(* ===== verification/_CoqProject ===== *)
-Q . S2P
Prelude.v
CInt.v
SlotLockTable.v
SharedBuffer.v
SwapWorker.v
Console.v
WorkerInvariant.v
WorkerTheorems.v
WorkerLiveness.v
WorkerAtomic.v
WorkerLog.v
WorkerEvents.v
Coordinator.v
Main.v
