(* ===== verification/Prelude.v ===== *)
(** * Verification of [swape2.c]: per-slot mutexes around a concurrent swap

    The program (src/swape2.c, one file) starts [num_threads] POSIX threads
    that all run [swap] on one shared [struct buffer] of [buffer_size] ints,
    initialised to [0, 1, ..., N-1].  Every slot [k] of the buffer has its own
    [pthread_mutex_t mutexes[k]].  Each thread repeats [iterations] times: draw
    [i] and [j] with [rand() % size], print the two slots, take the locks of
    both slots (blocking [pthread_mutex_lock] on [j], then
    [pthread_mutex_trylock] on [i], releasing [j] and retrying when the
    trylock fails; a spin on [trylock] when [i == j]), swap [data[i]] and
    [data[j]] through [tmp], and release the locks.  [start_threads] builds
    the buffer and the mutexes, spawns and joins the threads, and checks the
    buffer with [checkBuffer].

    ** Parts of the program and the files that model them

    The files, in the order of [_CoqProject]:
    - [Prelude] (this file): the notation scope [swape_scope], the tactics,
      the hint databases [swape] and [swape_rw], and the generic facts on
      lists, permutations and sums that the components share.
    - [CInt]: C's [int] ([INT_MIN]/[INT_MAX]), [x--] and [+] with overflow as
      undefined behaviour, C's truncating [%], array reads and writes with the
      out-of-range case as [None], the kinds of undefined behaviour [ub], and
      the results [mresult] of the library calls.
    - [SlotLockTable]: the array [pthread_mutex_t mutex[opt.buffer_size]].
      [Module LockSpec] is the abstract contract of a table of mutexes (the
      owner of each slot, blocking lock, trylock returning [0]/[EBUSY],
      unlock by the owner only, destroy returning [EBUSY] on a held mutex);
      the class [SlotLocks] with its laws [SlotLocksLaws] is the interface
      the worker is proved against; [MutexArray] is an implementation (one
      lock word and one owner field per mutex) that meets it.
    - [SharedBuffer]: [struct buffer], its initialisation loop in
      [start_threads], and [checkBuffer] with its [int] accumulator.
    - [SwapWorker]: the thread function [swap] as a per-thread program
      counter [pc] whose constructors are the atomic steps of the C code,
      the global state [world] (buffer, mutex table, threads, the position
      in the [rand()] sequence, the printed log), one step [swap_step] of a
      thread, the interleaving semantics [step], schedules [run] and the
      lowest-thread-first scheduler [first_step]/[run_first]; the accesses
      of a thread's next step to the buffer ([next_accesses]) and the data
      races between two threads ([data_race]).
    - [Console]: [printf] as output appended to a string: [%i] and [%d]
      ([print_int]), [print_buffer] and the per-swap line of [swap], and a
      reader of the output ([parse_buffer]).
    - [WorkerInvariant]: the invariant [inv] of the reachable states and
      its preservation by every step, one lemma per program counter.
    - [WorkerTheorems]: the safety theorems derived from [inv], and the
      concrete schedules of the witnesses ([demo_world]).
    - [WorkerLiveness]: the progress argument (threads that own a mutex
      release it; a thread alone finishes its iteration), a schedule to the
      join from every reachable state, a livelock, and the termination of
      every run with one worker.
    - [WorkerAtomic]: the three steps of the critical section act as an
      atomic exchange, whatever the other threads do; the path of [i == j]
      from its [trylock] to the test of line 75; writes happen under the
      slot's mutex.
    - [WorkerLog]: the lines each thread prints against its iteration
      count.
    - [WorkerEvents]: the runs where no thread enters its loop
      ([iterations = 0] or no thread).
    - [Coordinator]: [main] and [start_threads] around the parallel phase:
      the options, the initial world ([start_setup]), [struct thread_info]
      and the join loop ([join_wait]), which ends exactly when every thread
      has returned ([joined]), [checkBuffer] and the destruction of the
      mutexes ([finish]).
    - [Main]: the whole program as the relation [program_run] between the
      answers of the platform ([malloc], [pthread_create]), the options and
      the outcome: the output and the exit status or undefined behaviour,
      one rule per way the code ends; [main] is [program_run] on the
      options [read_options] makes of the command line.

    ** Correspondence with the code

    A thread is the record [thread] ([thread_num], [delay], [iterations] of
    [struct args], and the locals [i], [j], [tmp] of [swap]) plus its [pc].
    Each [pc] value is one line group of [swap] (lines 39-78): [LoopTest] is
    [while(args->iterations--)], [DrawI]/[DrawJ] the two [rand() % size],
    [PrintSwap] the [printf] of line 45 (which reads [data[i]] and [data[j]]
    without holding their locks), [LockJ]/[TryI]/[BackoffJ] the loop of lines
    49-54, [SpinI] the loop of lines 56-60, [ReadTmp]/[WriteI]/[WriteJ] the
    three buffer accesses of lines 63-69 (the [usleep] calls change no state
    and are scheduling points only, which the interleaving semantics already
    has between any two steps), [UnlockI]/[UnlockJ] lines 73-77.  [rand()] is
    a shared sequence [rand_seq] read at a shared position, one call per atomic
    step; every theorem holds for every sequence of non-negative values, hence
    for every seed given to [srand].  A call that has undefined behaviour in C
    (an index out of range, [x % 0], [iterations--] at [INT_MIN], unlocking a
    mutex one does not own, relocking one's own mutex) is the outcome
    [Crashed] of the step function, so that the safety theorems state that
    no reachable step crashes.  The [printf] of line 45 reads [data[i]] and
    [data[j]] without their mutexes: a state where another thread is about
    to write one of these slots is a data race ([data_race], two threads
    whose next accesses conflict, as in an interleaving semantics), and
    [program_run] ends such runs with undefined behaviour; the step itself
    returns the value the buffer holds.

    ** What the theorems show

    - Locks: [MutexArray] refines [LockSpec] (refinement).
    - Safety, in every reachable state: the buffer with the pending [tmp]s
      put back is a permutation of [0..N-1]; two critical sections never
      share a slot; a thread writes a slot only while the mutex table says
      it owns the slot's mutex; a blocked thread owns no mutex; no step of
      a thread has undefined behaviour (indices, [% 0], overflow, unlocks,
      relocks); indices and counters stay in range (typing).
    - Behaviour of [swap]: the critical section is an atomic exchange of
      [data[i]] and [data[j]]; with [i == j] a thread takes the one mutex
      by [trylock], unlocks it once and leaves buffer and mutex table as
      they were; a thread prints exactly [iterations] lines; a negative
      count never returns; with [iterations = 0] nothing is printed or
      swapped.
    - Progress: no reachable state is a dead end before the join; from every
      reachable state some schedule reaches the join; the backoff loop can
      livelock under an unfair schedule; with one worker every run
      terminates.
    - End of the run: after the join the buffer is a permutation of
      [0..N-1] with sum [N*(N-1)/2], every mutex is free, and [checkBuffer]
      says "Correct" exactly when [N = 10] (a divergence from the
      specification); [checkBuffer]'s sum overflows for [N >= 65537]; the
      initialisation loop equals
      [iota N]; the printed buffer and the per-swap lines parse back
      (round trips); the program exits with 0 when every allocation and
      thread creation succeeds and with 1 otherwise, or ends in the data
      race of line 45 (which needs two threads); an exit with 0 prints the
      verdict and a permutation of [0..N-1]; a run without swaps prints the
      same buffer before and after; run without flags (the defaults,
      [N = 10]) it reports "Correct buffer" unless it races.
    - The [printf] of line 45 reads slots without their locks: a concrete
      schedule prints the transient duplicate of a swap in progress, and
      another reaches the data race, undefined behaviour.

    ** Bounds and fuel

    Values stay in [0..N-1] and the only arithmetic on them is the sum of
    [checkBuffer], which does not overflow [int] for [N <= 65536].  The
    witnesses run explicit schedules (lists of thread ids) or [run_first]
    with a fuel large enough to reach the join (checked by evaluation); no
    theorem depends on fuel: the schedule to the join is proved to exist by
    induction on the work left, and single-worker termination by a measure
    of twelve steps per iteration left.

    ** Not modelled

    [read_options] (options.c, not in the repository) is modelled from the
    specification as a fold of flags over the defaults.  The time printed by
    line 178 ([clock()] and [%f]) is an input of the model.
    [pthread_mutex_init] is taken to succeed, as glibc's does with default
    attributes, so the failure message of line 124 is never printed.
    [usleep] is a scheduling point with no effect on the state.  [malloc] and
    [pthread_create] succeed or fail as an input says; what a failed
    allocation returns is not modelled beyond the exit it causes. *)

From stdpp Require Export list relations.
From Stdlib Require Export ZArith Lia.

Declare Scope swape_scope.
Delimit Scope swape_scope with swape.

Create HintDb swape.
Create Rewrite HintDb swape_rw.

(** ** Tactics *)

(** Invert a hypothesis and clean up. *)
Ltac invc H := inversion H; subst; clear H.

(** Split the conjunctions and existentials in the hypotheses. *)
Ltac destr_hyps :=
  repeat match goal with
  | H : _ ∧ _ |- _ => destruct H
  | H : ∃ _, _ |- _ => destruct H
  end.

(** ** Sums of lists of integers *)

Definition sumZ (l : list Z) : Z := foldr Z.add 0%Z l.

Lemma sumZ_nil : sumZ [] = 0%Z.
Proof. done. Qed.

Lemma sumZ_cons x l : sumZ (x :: l) = (x + sumZ l)%Z.
Proof. done. Qed.

Lemma sumZ_app l1 l2 : sumZ (l1 ++ l2) = (sumZ l1 + sumZ l2)%Z.
Proof. induction l1 as [|x l1 IH]; simpl; [done|]. rewrite IH. lia. Qed.

(** The sum does not depend on the order: [sumZ] respects permutation, so
    [rewrite] with a permutation works under it. *)
#[export] Instance sumZ_perm : Proper ((≡ₚ) ==> (=)) sumZ.
Proof.
  intros l1 l2 Hp. induction Hp; simpl in *; lia.
Qed.

Lemma sumZ_seq (n : nat) :
  sumZ (Z.of_nat <$> seq 0 n) = (Z.of_nat n * (Z.of_nat n - 1) / 2)%Z.
Proof.
  induction n as [|n IH]; [done|].
  rewrite seq_S, fmap_app, sumZ_app, IH. simpl.
  rewrite Nat2Z.inj_succ. set (m := Z.of_nat n).
  replace (Z.succ m * (Z.succ m - 1))%Z with (m * (m - 1) + m * 2)%Z by lia.
  rewrite Z.div_add by lia. lia.
Qed.

(** ** Permutations built from in-place updates *)

Lemma perm_insert_cons {A} (l : list A) (i : nat) (x y : A) :
  l !! i = Some y → x :: l ≡ₚ y :: <[i:=x]> l.
Proof.
  intros Hi. pose proof (lookup_lt_Some _ _ _ Hi) as Hlt.
  rewrite insert_take_drop by done.
  rewrite <- (take_drop_middle l i y Hi) at 1.
  rewrite <- !Permutation_middle. apply perm_swap.
Qed.

(** A list that agrees with [l] except that slots [i] and [j] are
    exchanged is a permutation of [l]. *)
Lemma perm_exchange {A} (l l' : list A) (i j : nat) :
  length l' = length l → i < length l → j < length l →
  l' !! i = l !! j → l' !! j = l !! i →
  (∀ k, k ≠ i → k ≠ j → l' !! k = l !! k) →
  l' ≡ₚ l.
Proof.
  intros Hlen Hi Hj Hli Hlj Hk.
  destruct (lookup_lt_is_Some_2 l i Hi) as [a Ha].
  destruct (lookup_lt_is_Some_2 l j Hj) as [b Hb].
  assert (l' = <[i:=b]> (<[j:=a]> l)) as ->.
  { apply list_eq. intros k.
    destruct (decide (k = i)) as [->|]; [rewrite list_lookup_insert_eq; [congruence|];
      rewrite length_insert; lia|].
    rewrite list_lookup_insert_ne by congruence.
    destruct (decide (k = j)) as [->|]; [rewrite list_lookup_insert_eq; [congruence|lia]|].
    rewrite list_lookup_insert_ne by congruence. auto. }
  destruct (decide (i = j)) as [->|Hij].
  { rewrite list_insert_insert_eq, list_insert_id; done. }
  apply Permutation_cons_inv with (a := a).
  rewrite (perm_insert_cons l j a b Hb).
  rewrite (perm_insert_cons (<[j:=a]> l) i b a); [done|].
  rewrite list_lookup_insert_ne by congruence. done.
Qed.

#[export] Hint Rewrite @length_insert sumZ_nil sumZ_cons sumZ_app : swape_rw.
#[export] Hint Resolve perm_exchange : swape.
