(* ===== verification/CInt.v ===== *)
(** * C integers and arrays as [swape2.c] uses them

    [int] is 32-bit two's complement.  Signed overflow, [x % 0], and an array
    index outside the array are undefined behaviour in C; the operations here
    return [None] in those cases, so that a model that uses them can state
    that they never happen.  [data[i]] on an [int *] of [n] elements is
    [lookupZ] (read) and [storeZ] (write); [x--] and [x % y] are [c_dec] and
    [c_rem]; [aux += x] is [c_add]. *)

From S2P Require Import Prelude.

Local Open Scope Z_scope.

Definition INT_MIN : Z := -2147483648.
Definition INT_MAX : Z := 2147483647.

Definition in_int (x : Z) : bool := bool_decide (INT_MIN <= x <= INT_MAX).

(** [a + b] on [int]: [None] on overflow. *)
Definition c_add (a b : Z) : option Z :=
  if in_int (a + b) then Some (a + b) else None.

(** [x--]: the old value is the result of the expression; [None] when the
    decrement overflows. *)
Definition c_dec (x : Z) : option Z :=
  if in_int (x - 1) then Some (x - 1) else None.

(** [a % b]: C truncates towards zero, which is [Z.rem]; [None] for a zero
    divisor and for [INT_MIN % -1]. *)
Definition c_rem (a b : Z) : option Z :=
  if decide (b = 0) then None
  else if decide (a = INT_MIN ∧ b = -1) then None
  else Some (Z.rem a b).

(** [p[i]] for an array of the length of [l]. *)
Definition lookupZ {A} (l : list A) (i : Z) : option A :=
  if decide (0 <= i) then l !! Z.to_nat i else None.

(** [p[i] = v]. *)
Definition storeZ {A} (l : list A) (i : Z) (v : A) : option (list A) :=
  if decide (0 <= i < Z.of_nat (length l)) then Some (<[Z.to_nat i := v]> l)
  else None.

Notation "l !!z i" := (lookupZ l i) (at level 20) : swape_scope.
Open Scope swape_scope.

(** ** Lemmas *)

Lemma c_rem_range (a b r : Z) :
  0 <= a → 0 < b → c_rem a b = Some r → 0 <= r < b.
Proof.
  unfold c_rem. intros Ha Hb H.
  repeat case_decide; simplify_eq. apply Z.rem_bound_pos; lia.
Qed.

Lemma c_rem_pos_Some (a b : Z) : 0 <= a → 0 < b → c_rem a b = Some (Z.rem a b).
Proof. unfold c_rem. intros. repeat case_decide; first [lia | done]. Qed.

Lemma c_dec_Some (x : Z) : 0 <= x <= INT_MAX → c_dec x = Some (x - 1).
Proof.
  unfold c_dec, in_int, INT_MIN, INT_MAX. intros.
  case_bool_decide; [done|lia].
Qed.

Lemma c_add_Some (a b : Z) :
  INT_MIN <= a + b <= INT_MAX → c_add a b = Some (a + b).
Proof.
  unfold c_add, in_int. intros. by rewrite bool_decide_true.
Qed.

Lemma lookupZ_nat {A} (l : list A) (n : nat) : l !!z Z.of_nat n = l !! n.
Proof. unfold lookupZ. rewrite decide_True by lia. by rewrite Nat2Z.id. Qed.

Lemma lookupZ_lt {A} (l : list A) (i : Z) :
  0 <= i < Z.of_nat (length l) → ∃ x, l !!z i = Some x.
Proof.
  intros Hi. unfold lookupZ. rewrite decide_True by lia.
  apply lookup_lt_is_Some_2. lia.
Qed.

Lemma lookupZ_Some_range {A} (l : list A) (i : Z) (x : A) :
  l !!z i = Some x → 0 <= i < Z.of_nat (length l).
Proof.
  unfold lookupZ. case_decide; [|done].
  intros ?%lookup_lt_Some. lia.
Qed.

Lemma storeZ_Some {A} (l : list A) (i : Z) (v : A) :
  0 <= i < Z.of_nat (length l) → storeZ l i v = Some (<[Z.to_nat i := v]> l).
Proof. unfold storeZ. intros. by rewrite decide_True. Qed.

Lemma storeZ_None {A} (l : list A) (i : Z) (v : A) :
  storeZ l i v = None ↔ ¬ (0 <= i < Z.of_nat (length l)).
Proof. unfold storeZ. case_decide; naive_solver. Qed.

#[export] Hint Rewrite @lookupZ_nat : swape_rw.
#[export] Hint Resolve c_rem_range lookupZ_Some_range : swape.

(** ** Undefined behaviour and the results of library calls *)

(** The kinds of undefined behaviour the model can reach: an array index out
    of range, [x % 0], signed overflow, [pthread_mutex_unlock] of a mutex the
    caller does not own, [pthread_mutex_lock] of a mutex the caller already
    owns, a variable-length array declared with a size that is not
    positive, and a data race: two threads whose next accesses are to the
    same object, one of them a write, not both under its mutex (C11
    5.1.2.4p25).  The first five are reached by one step of one thread,
    [UB_vla_size] by [start_threads] itself, and a data race is a property
    of a state of the whole program. *)
Inductive ub :=
| UB_index
| UB_div_zero
| UB_overflow
| UB_unlock_not_owner
| UB_relock
| UB_vla_size
| UB_data_race.

#[export] Instance ub_eq_dec : EqDecision ub.
Proof. solve_decision. Defined.

(** The result of a call that may block the caller or have undefined
    behaviour. *)
Inductive mresult (A : Type) :=
| MOk (a : A)
| MBlock
| MUB (u : ub).
Arguments MOk {A} a.
Arguments MBlock {A}.
Arguments MUB {A} u.

#[export] Instance mresult_eq_dec `{EqDecision A} : EqDecision (mresult A).
Proof. solve_decision. Defined.

Definition mres_map {A B} (f : A → B) (r : mresult A) : mresult B :=
  match r with
  | MOk a => MOk (f a)
  | MBlock => MBlock
  | MUB u => MUB u
  end.

Lemma mres_map_MOk {A B} (f : A → B) r b :
  mres_map f r = MOk b ↔ ∃ a, r = MOk a ∧ b = f a.
Proof. destruct r; simpl; split; intros; destr_hyps; simplify_eq; eauto. Qed.

Lemma lookupZ_nonneg {A} (l : list A) (i : Z) : 0 <= i → l !!z i = l !! Z.to_nat i.
Proof. unfold lookupZ. intros. by rewrite decide_True. Qed.

Lemma storeZ_Some_inv {A} (l l' : list A) (i : Z) (v : A) :
  storeZ l i v = Some l' → 0 <= i < Z.of_nat (length l) ∧ l' = <[Z.to_nat i := v]> l.
Proof. unfold storeZ. case_decide; naive_solver. Qed.

Lemma c_dec_Some_inv (x y : Z) : c_dec x = Some y → y = x - 1 ∧ INT_MIN <= x - 1.
Proof. unfold c_dec, in_int. case_bool_decide; naive_solver. Qed.
