(* ===== verification/SlotLockTable.v ===== *)
(** * The table of per-slot mutexes

    [start_threads] declares [pthread_mutex_t mutex[opt.buffer_size]], one
    mutex per slot of the buffer, and hands the array to every thread as
    [args->mutexes].  The threads use it only through
    [pthread_mutex_lock], [pthread_mutex_trylock] and [pthread_mutex_unlock];
    [start_threads] initialises and destroys every mutex.

    - [Module LockSpec] is the contract of such a table, stated on the
      owner of each slot ([None] for a free mutex): a blocking lock that waits
      while another thread owns the slot, a trylock returning [0] or [EBUSY]
      without waiting, an unlock allowed to the owner only, a destroy
      returning [EBUSY] on a held mutex.  An index outside the table is
      undefined behaviour.
    - [Class SlotLocks] is the interface [SwapWorker] is proved against: the
      operations and a view [sl_owners] of the owners; [SlotLocksLaws] says
      that each operation acts on the view as [LockSpec] says.
    - [Module MutexArray] implements the table as an array of mutex records
      with a lock word and an owner field, as the C library keeps them, and
      proves the laws (refinement of [LockSpec]). *)

From S2P Require Import Prelude CInt.

Local Open Scope Z_scope.

(** [EBUSY] on Linux. *)
Definition EBUSY : Z := 16.

Module LockSpec.

(** The owner of each mutex, by slot. *)
Definition owners := list (option nat).

(** [pthread_mutex_init] on each of [n] mutexes. *)
Definition init (n : nat) : owners := replicate n None.

Definition lock (o : owners) (k : Z) (t : nat) : mresult owners :=
  match o !!z k with
  | None => MUB UB_index
  | Some None => MOk (<[Z.to_nat k := Some t]> o)
  | Some (Some u) => if decide (u = t) then MUB UB_relock else MBlock
  end.

Definition trylock (o : owners) (k : Z) (t : nat) : mresult (Z * owners) :=
  match o !!z k with
  | None => MUB UB_index
  | Some None => MOk (0, <[Z.to_nat k := Some t]> o)
  | Some (Some _) => MOk (EBUSY, o)
  end.

Definition unlock (o : owners) (k : Z) (t : nat) : mresult owners :=
  match o !!z k with
  | Some (Some u) =>
      if decide (u = t) then MOk (<[Z.to_nat k := None]> o)
      else MUB UB_unlock_not_owner
  | Some None => MUB UB_unlock_not_owner
  | None => MUB UB_index
  end.

Definition destroy (o : owners) (k : Z) : mresult Z :=
  match o !!z k with
  | None => MUB UB_index
  | Some None => MOk 0
  | Some (Some _) => MOk EBUSY
  end.

End LockSpec.

(** ** The interface the threads use *)

Class SlotLocks (L : Type) := {
  sl_init : nat → L;
  sl_owners : L → list (option nat);
  sl_lock : L → Z → nat → mresult L;
  sl_trylock : L → Z → nat → mresult (Z * L);
  sl_unlock : L → Z → nat → mresult L;
  sl_destroy : L → Z → mresult Z
}.

Class SlotLocksLaws (L : Type) `{!SlotLocks L} := {
  sl_init_spec n : sl_owners (sl_init n) = LockSpec.init n;
  sl_lock_spec l k t :
    mres_map sl_owners (sl_lock l k t) = LockSpec.lock (sl_owners l) k t;
  sl_trylock_spec l k t :
    mres_map (prod_map id sl_owners) (sl_trylock l k t)
    = LockSpec.trylock (sl_owners l) k t;
  sl_unlock_spec l k t :
    mres_map sl_owners (sl_unlock l k t) = LockSpec.unlock (sl_owners l) k t;
  sl_destroy_spec l k : sl_destroy l k = LockSpec.destroy (sl_owners l) k
}.

(** ** Consequences of the laws, used by the clients *)

Section Laws.
Context `{SlotLocksLaws L}.

Lemma sl_lock_MOk l k t l' :
  sl_lock l k t = MOk l' →
  sl_owners l !!z k = Some None ∧
  sl_owners l' = <[Z.to_nat k := Some t]> (sl_owners l).
Proof.
  intros Hl. pose proof (sl_lock_spec l k t) as Hs. rewrite Hl in Hs.
  unfold LockSpec.lock in Hs. simpl in Hs.
  repeat case_match; simplify_eq; try case_decide; simplify_eq; auto.
Qed.

Lemma sl_lock_MBlock l k t :
  sl_lock l k t = MBlock → ∃ u, sl_owners l !!z k = Some (Some u) ∧ u ≠ t.
Proof.
  intros Hl. pose proof (sl_lock_spec l k t) as Hs. rewrite Hl in Hs.
  unfold LockSpec.lock in Hs. simpl in Hs.
  repeat case_match; simplify_eq; try case_decide; simplify_eq; eauto.
Qed.

Lemma sl_lock_MUB l k t u :
  sl_lock l k t = MUB u →
  sl_owners l !!z k = None ∨ sl_owners l !!z k = Some (Some t).
Proof.
  intros Hl. pose proof (sl_lock_spec l k t) as Hs. rewrite Hl in Hs.
  unfold LockSpec.lock in Hs. simpl in Hs.
  repeat case_match; simplify_eq; try case_decide; simplify_eq; auto.
Qed.

Lemma sl_trylock_MOk l k t r l' :
  sl_trylock l k t = MOk (r, l') →
  (r = 0 ∧ sl_owners l !!z k = Some None ∧
     sl_owners l' = <[Z.to_nat k := Some t]> (sl_owners l)) ∨
  (r = EBUSY ∧ (∃ u, sl_owners l !!z k = Some (Some u)) ∧
     sl_owners l' = sl_owners l).
Proof.
  intros Hl. pose proof (sl_trylock_spec l k t) as Hs. rewrite Hl in Hs.
  unfold LockSpec.trylock in Hs. simpl in Hs.
  repeat case_match; simplify_eq; eauto 10.
Qed.

Lemma sl_trylock_not_MOk l k t :
  (∀ r l', sl_trylock l k t ≠ MOk (r, l')) → sl_owners l !!z k = None.
Proof.
  intros Hl. pose proof (sl_trylock_spec l k t) as Hs.
  destruct (sl_trylock l k t) as [[r l']| |]; [by destruct (Hl r l')| |];
    unfold LockSpec.trylock in Hs; simpl in Hs; repeat case_match; simplify_eq; done.
Qed.

Lemma sl_unlock_MOk l k t l' :
  sl_unlock l k t = MOk l' →
  sl_owners l !!z k = Some (Some t) ∧
  sl_owners l' = <[Z.to_nat k := None]> (sl_owners l).
Proof.
  intros Hl. pose proof (sl_unlock_spec l k t) as Hs. rewrite Hl in Hs.
  unfold LockSpec.unlock in Hs. simpl in Hs.
  repeat case_match; simplify_eq; try case_decide; simplify_eq; auto.
Qed.

Lemma sl_unlock_not_MOk l k t :
  (∀ l', sl_unlock l k t ≠ MOk l') → sl_owners l !!z k ≠ Some (Some t).
Proof.
  intros Hl Ho. pose proof (sl_unlock_spec l k t) as Hs.
  unfold LockSpec.unlock in Hs. rewrite Ho, decide_True in Hs by done.
  apply mres_map_MOk in Hs as [l' [Hl' _]]. by apply (Hl l').
Qed.

Lemma sl_lock_free l k t :
  sl_owners l !!z k = Some None → ∃ l', sl_lock l k t = MOk l'.
Proof.
  intros Ho. pose proof (sl_lock_spec l k t) as Hs.
  unfold LockSpec.lock in Hs. rewrite Ho in Hs.
  apply mres_map_MOk in Hs as [l' [Hl' _]]. eauto.
Qed.

Lemma sl_lock_not_MUB l k t u :
  (∃ o, sl_owners l !!z k = Some o ∧ o ≠ Some t) → sl_lock l k t ≠ MUB u.
Proof.
  intros [o [Ho Hne]] Hl. apply sl_lock_MUB in Hl as [|]; congruence.
Qed.

Lemma sl_lock_held l k t u :
  sl_owners l !!z k = Some (Some u) → u ≠ t → sl_lock l k t = MBlock.
Proof.
  intros Ho Hne. pose proof (sl_lock_spec l k t) as Hs.
  unfold LockSpec.lock in Hs. rewrite Ho, decide_False in Hs by done.
  destruct (sl_lock l k t); simpl in Hs; congruence.
Qed.

Lemma sl_trylock_in_range l k t o :
  sl_owners l !!z k = Some o → ∃ r l', sl_trylock l k t = MOk (r, l').
Proof.
  intros Ho. pose proof (sl_trylock_spec l k t) as Hs.
  unfold LockSpec.trylock in Hs. rewrite Ho in Hs.
  destruct (sl_trylock l k t) as [[r l']| |]; simpl in Hs; [eauto|..];
    destruct o; simpl in Hs; congruence.
Qed.

Lemma sl_trylock_free l k t :
  sl_owners l !!z k = Some None →
  ∃ l', sl_trylock l k t = MOk (0, l') ∧ sl_owners l' = <[Z.to_nat k := Some t]> (sl_owners l).
Proof.
  intros Ho. destruct (sl_trylock_in_range l k t None Ho) as (r & l' & Hl).
  exists l'. destruct (sl_trylock_MOk l k t r l' Hl) as [(-> & _ & ?)|(_ & [u Hu] & _)];
    [done|congruence].
Qed.

Lemma sl_unlock_owner l k t :
  sl_owners l !!z k = Some (Some t) → ∃ l', sl_unlock l k t = MOk l'.
Proof.
  intros Ho. pose proof (sl_unlock_spec l k t) as Hs.
  unfold LockSpec.unlock in Hs. rewrite Ho, decide_True in Hs by done.
  apply mres_map_MOk in Hs as [l' [Hl' _]]. eauto.
Qed.

End Laws.

(** ** An implementation: an array of mutex records *)

Module MutexArray.

(** A mutex as the C library keeps it: a lock word ([0] free, [1] held) and
    the owner's thread id, meaningful while the word is [1]. *)
Record pthread_mutex := {
  mx_lock : Z;
  mx_owner : nat
}.

Definition mutex_init : pthread_mutex := {| mx_lock := 0; mx_owner := 0 |}.

Abbreviation table := (list pthread_mutex).

Definition owner_of (m : pthread_mutex) : option nat :=
  if decide (mx_lock m = 0) then None else Some (mx_owner m).

Definition owners (l : table) : list (option nat) := owner_of <$> l.

Definition held_by (t : nat) : pthread_mutex := {| mx_lock := 1; mx_owner := t |}.

Definition lock (l : table) (k : Z) (t : nat) : mresult table :=
  match l !!z k with
  | None => MUB UB_index
  | Some m =>
      if decide (mx_lock m = 0) then MOk (<[Z.to_nat k := held_by t]> l)
      else if decide (mx_owner m = t) then MUB UB_relock else MBlock
  end.

Definition trylock (l : table) (k : Z) (t : nat) : mresult (Z * table) :=
  match l !!z k with
  | None => MUB UB_index
  | Some m =>
      if decide (mx_lock m = 0) then MOk (0, <[Z.to_nat k := held_by t]> l)
      else MOk (EBUSY, l)
  end.

Definition unlock (l : table) (k : Z) (t : nat) : mresult table :=
  match l !!z k with
  | None => MUB UB_index
  | Some m =>
      if decide (mx_lock m ≠ 0 ∧ mx_owner m = t)
      then MOk (<[Z.to_nat k := mutex_init]> l)
      else MUB UB_unlock_not_owner
  end.

Definition destroy (l : table) (k : Z) : mresult Z :=
  match l !!z k with
  | None => MUB UB_index
  | Some m => if decide (mx_lock m = 0) then MOk 0 else MOk EBUSY
  end.

#[global] Instance mutex_array_slot_locks : SlotLocks table := {|
  sl_init n := replicate n mutex_init;
  sl_owners := owners;
  sl_lock := lock;
  sl_trylock := trylock;
  sl_unlock := unlock;
  sl_destroy := destroy
|}.

Lemma owners_lookupZ (l : table) (k : Z) :
  owners l !!z k = owner_of <$> l !!z k.
Proof. unfold owners, lookupZ. case_decide; [apply list_lookup_fmap|done]. Qed.

Lemma owners_insert (l : table) (n : nat) (m : pthread_mutex) :
  owners (<[n := m]> l) = <[n := owner_of m]> (owners l).
Proof. unfold owners. by rewrite list_fmap_insert. Qed.

(** Each operation on the array, seen through [owners], is the operation
    of [LockSpec]. *)
Ltac refine_op :=
  unfold LockSpec.lock, LockSpec.trylock, LockSpec.unlock, LockSpec.destroy,
    lock, trylock, unlock, destroy;
  rewrite owners_lookupZ; destruct (_ !!z _) as [m|]; simpl; [|done];
  unfold owner_of; repeat case_decide; simpl; rewrite ?owners_insert;
  try done; naive_solver.

Lemma init_refines n : owners (replicate n mutex_init) = LockSpec.init n.
Proof. unfold owners, LockSpec.init. by rewrite fmap_replicate. Qed.

Lemma lock_refines l k t :
  mres_map owners (lock l k t) = LockSpec.lock (owners l) k t.
Proof. refine_op. Qed.

Lemma trylock_refines l k t :
  mres_map (prod_map id owners) (trylock l k t) = LockSpec.trylock (owners l) k t.
Proof. refine_op. Qed.

Lemma unlock_refines l k t :
  mres_map owners (unlock l k t) = LockSpec.unlock (owners l) k t.
Proof. refine_op. Qed.

Lemma destroy_refines l k : destroy l k = LockSpec.destroy (owners l) k.
Proof. refine_op. Qed.

#[global] Instance mutex_array_laws : SlotLocksLaws table.
Proof.
  split; simpl; [apply init_refines|apply lock_refines|apply trylock_refines
                |apply unlock_refines|apply destroy_refines].
Qed.

(** C12. Refinement: the array of mutex records, with its lock word and
    owner field, implements the contract [LockSpec] of a table of mutexes:
    seen through the owner of each slot, [pthread_mutex_init],
    [pthread_mutex_lock], [pthread_mutex_trylock], [pthread_mutex_unlock]
    and [pthread_mutex_destroy] on the array are the operations of the
    contract, results and undefined behaviour included. *)
Theorem mutex_array_refines (l : table) (k : Z) (t n : nat) :
  owners (replicate n mutex_init) = LockSpec.init n ∧
  mres_map owners (lock l k t) = LockSpec.lock (owners l) k t ∧
  mres_map (prod_map id owners) (trylock l k t) = LockSpec.trylock (owners l) k t ∧
  mres_map owners (unlock l k t) = LockSpec.unlock (owners l) k t ∧
  destroy l k = LockSpec.destroy (owners l) k.
Proof.
  split; [apply init_refines|]. split; [apply lock_refines|].
  split; [apply trylock_refines|]. split; [apply unlock_refines|apply destroy_refines].
Qed.

End MutexArray.
