(* ===== verification/SharedBuffer.v ===== *)
(** * The shared buffer

    [struct buffer] (swape2.c, lines 16-19) is the array [data] of [size]
    ints that every thread swaps in.  [start_threads] fills it with
    [data[i] = i] (lines 119-120), and after the join [checkBuffer] (lines
    92-99) adds the elements into an [int] and compares the sum with 45.

    This file models the record, the initialisation loop (on the unspecified
    contents [malloc] returns), and [checkBuffer] with its accumulator kept as
    a C [int] ([None] on signed overflow).  The theorems: the loop produces
    [0..N-1] whatever [malloc] returned; [checkBuffer] computes the sum
    without overflow up to [N = 65536] and overflows beyond; on a permutation
    of [0..N-1] it answers true exactly when [N = 10]. *)

From S2P Require Import Prelude CInt.

Local Open Scope Z_scope.

Record buffer := {
  data : list Z;
  size : Z
}.

(** [0, 1, ..., n-1]: the contents the specification requires initially. *)
Definition iota (n : nat) : list Z := Z.of_nat <$> seq 0 n.

(** [for (i = k; i < k + cnt; i++) buffer.data[i] = i;] *)
Fixpoint init_loop (k cnt : nat) (d : list Z) : list Z :=
  match cnt with
  | O => d
  | S c => init_loop (S k) c (<[k := Z.of_nat k]> d)
  end.

(** Lines 112-120: [data] is the block [malloc] returned ([garbage], of
    [buffer_size] ints), [size] is [opt.buffer_size], then the loop. *)
Definition buffer_init (buffer_size : Z) (garbage : list Z) : buffer :=
  {| data := init_loop 0 (Z.to_nat buffer_size) garbage; size := buffer_size |}.

(** [aux += buffer.data[i]] for every element, from [aux]. *)
Fixpoint sum_loop (d : list Z) (aux : Z) : option Z :=
  match d with
  | [] => Some aux
  | x :: d' => c_add aux x ≫= sum_loop d'
  end.

(** [checkBuffer]: [None] when the sum overflows [int]. *)
Definition checkBuffer (b : buffer) : option bool :=
  (λ aux, bool_decide (aux = 45)) <$> sum_loop (take (Z.to_nat (size b)) (data b)) 0.

(** ** The initialisation loop *)

(** Stated pointwise: after the loop from [k], slot [m] holds [m] when
    [k <= m < k + cnt], and is untouched otherwise. *)
Lemma init_loop_lookup (k cnt m : nat) (d : list Z) :
  init_loop k cnt d !! m =
    if decide (k ≤ m < k + cnt ∧ m < length d)%nat then Some (Z.of_nat m) else d !! m.
Proof.
  revert k d. induction cnt as [|c IH]; intros k d; simpl.
  - rewrite decide_False by lia. done.
  - rewrite IH, length_insert, list_lookup_insert.
    repeat case_decide; destr_hyps; subst; done || lia.
Qed.

Lemma init_loop_length (k cnt : nat) (d : list Z) :
  length (init_loop k cnt d) = length d.
Proof. revert k d. induction cnt; intros; simpl; rewrite ?IHcnt; autorewrite with swape_rw; done. Qed.

(** From any contents of the
    right length, the loop of lines 119-120 yields [0..N-1]. *)
Lemma init_loop_iota (n : nat) (garbage : list Z) :
  length garbage = n → init_loop 0 n garbage = iota n.
Proof.
  intros Hlen. apply list_eq. intros m. rewrite init_loop_lookup.
  unfold iota. rewrite list_lookup_fmap.
  case_decide.
  - rewrite lookup_seq_lt by lia. done.
  - rewrite lookup_ge_None_2, lookup_seq_ge by lia. done.
Qed.

Lemma length_iota (n : nat) : length (iota n) = n.
Proof. unfold iota. by rewrite length_fmap, length_seq. Qed.

Lemma lookup_iota (n m : nat) : (m < n)%nat → iota n !! m = Some (Z.of_nat m).
Proof. intros. unfold iota. rewrite list_lookup_fmap, lookup_seq_lt by done. done. Qed.

Lemma sumZ_iota (n : nat) : sumZ (iota n) = Z.of_nat n * (Z.of_nat n - 1) / 2.
Proof. apply sumZ_seq. Qed.

Lemma iota_range (n : nat) (x : Z) : x ∈ iota n → 0 <= x < Z.of_nat n.
Proof.
  unfold iota. rewrite list_elem_of_fmap. intros [y [-> Hy]].
  apply elem_of_seq in Hy. lia.
Qed.

(** ** The sum of [checkBuffer] *)

(** When the elements are non-negative and the total fits in an [int], the
    loop computes the sum. *)
Lemma sum_loop_ok (d : list Z) (aux : Z) :
  Forall (λ x, 0 <= x) d → 0 <= aux → aux + sumZ d <= INT_MAX →
  sum_loop d aux = Some (aux + sumZ d).
Proof.
  revert aux. induction d as [|x d IH]; intros aux Hd Ha Hs;
    cbn [sum_loop] in *; autorewrite with swape_rw in *.
  - f_equal. lia.
  - apply Forall_cons in Hd as [Hx Hd].
    assert (0 <= sumZ d) by (clear - Hd; induction Hd; autorewrite with swape_rw; lia).
    rewrite c_add_Some by (unfold INT_MIN; lia). simpl.
    rewrite IH; [f_equal; lia|done|lia|lia].
Qed.

(** A result of the loop on non-negative elements is their sum, and it
    fits in an [int]. *)
Lemma sum_loop_Some (d : list Z) (aux r : Z) :
  Forall (λ x, 0 <= x) d → 0 <= aux <= INT_MAX →
  sum_loop d aux = Some r → r = aux + sumZ d ∧ r <= INT_MAX.
Proof.
  revert aux. induction d as [|x d IH]; intros aux Hd Ha Hr;
    cbn [sum_loop] in *; autorewrite with swape_rw in *.
  - simplify_eq. lia.
  - apply Forall_cons in Hd as [Hx Hd]. unfold c_add, in_int in Hr.
    case_bool_decide; simpl in Hr; [|done].
    apply IH in Hr as [-> ?]; try done; unfold INT_MIN, INT_MAX in *; lia.
Qed.

(** The sum of the initial contents of a buffer of [n] slots. *)
Definition expected_sum (n : Z) : Z := n * (n - 1) / 2.

Lemma expected_sum_mono (n m : Z) : 0 <= n <= m → expected_sum n <= expected_sum m.
Proof.
  intros Hnm. unfold expected_sum. apply Z.div_le_mono; [lia|].
  destruct (decide (n = 0)) as [->|]; [nia|].
  apply Z.mul_le_mono_nonneg; lia.
Qed.

Lemma expected_sum_eq_45 (n : Z) : 0 <= n → expected_sum n = 45 ↔ n = 10.
Proof.
  intros Hn. split; [|intros ->; reflexivity]. intros H.
  destruct (decide (n <= 9)).
  { pose proof (expected_sum_mono n 9 ltac:(lia)).
    assert (expected_sum 9 = 36) by reflexivity. lia. }
  destruct (decide (11 <= n)); [|lia].
  pose proof (expected_sum_mono 11 n ltac:(lia)).
  assert (expected_sum 11 = 55) by reflexivity. lia.
Qed.

Lemma perm_iota_nonneg (n : nat) (d : list Z) :
  d ≡ₚ iota n → Forall (λ x, 0 <= x) d.
Proof.
  intros Hp. apply Forall_forall. intros x Hx.
  rewrite Hp in Hx. apply iota_range in Hx. lia.
Qed.

Lemma sumZ_perm_iota (n : nat) (d : list Z) :
  d ≡ₚ iota n → sumZ d = expected_sum (Z.of_nat n).
Proof. intros ->. apply sumZ_iota. Qed.

Lemma expected_sum_int (n : Z) : 0 <= n <= 65536 → 0 <= expected_sum n <= INT_MAX.
Proof.
  intros Hn. split; [unfold expected_sum; apply Z.div_pos; nia|].
  transitivity (expected_sum 65536); [by apply expected_sum_mono|].
  vm_compute. discriminate.
Qed.

Lemma expected_sum_overflow (n : Z) : 65537 <= n → INT_MAX < expected_sum n.
Proof.
  intros Hn. apply Z.lt_le_trans with (expected_sum 65537); [reflexivity|].
  apply expected_sum_mono; lia.
Qed.

(** [checkBuffer] on a buffer of [N <= 65536] slots holding a permutation
    of [0..N-1]. *)
Lemma checkBuffer_iota_perm (b : buffer) (n : nat) :
  data b ≡ₚ iota n → size b = Z.of_nat n → Z.of_nat n <= 65536 →
  checkBuffer b = Some (bool_decide (n = 10%nat)).
Proof.
  destruct b as [d sz]. simpl. intros Hp -> Hn. unfold checkBuffer; simpl.
  assert (length d = n) as Hlen by (rewrite Hp; apply length_iota).
  rewrite Nat2Z.id, take_ge by lia.
  rewrite sum_loop_ok; [|by eapply perm_iota_nonneg|lia|].
  - simpl. f_equal. apply bool_decide_ext.
    rewrite (sumZ_perm_iota n d Hp), Z.add_0_l, expected_sum_eq_45; lia.
  - rewrite (sumZ_perm_iota n d Hp). pose proof (expected_sum_int (Z.of_nat n)). lia.
Qed.

(** C25. The initialisation of lines 112-120 builds the buffer
    [0, 1, ..., N-1] of size [N], whatever the block [malloc] returned
    held: the loop [buffer.data[i] = i] equals the reference list [iota]. *)
Theorem buffer_init_spec (sz : Z) (garbage : list Z) :
  0 <= sz → length garbage = Z.to_nat sz →
  buffer_init sz garbage = {| data := iota (Z.to_nat sz); size := sz |}.
Proof. intros _ Hg. unfold buffer_init. by rewrite init_loop_iota. Qed.

Lemma buffer_init_spec_witness :
  buffer_init 3 [7; -1; 42] = {| data := iota (Z.to_nat 3); size := 3 |}.
Proof. apply buffer_init_spec; [lia|reflexivity]. Defined.

(** C6. [checkBuffer] on any permutation of [0..N-1] with [N <= 65536]
    computes the sum without overflowing [int] and reports a correct buffer
    exactly when [N = 10]: it compares the sum with the constant 45, not with
    [N*(N-1)/2] as the specification says. *)
Theorem checkBuffer_perm (n : nat) (d : list Z) :
  d ≡ₚ iota n → Z.of_nat n <= 65536 →
  checkBuffer {| data := d; size := Z.of_nat n |} = Some (bool_decide (n = 10%nat)).
Proof. intros Hp Hn. by apply checkBuffer_iota_perm. Qed.

(** The specification's scenario [N = 2]: after any run the buffer is
    [0 1] or [1 0], and [checkBuffer] reports it incorrect. *)
Lemma checkBuffer_perm_witness :
  [1; 0] ≡ₚ iota 2 ∧ Z.of_nat 2 <= 65536 ∧
  checkBuffer {| data := [1; 0]; size := Z.of_nat 2 |} = Some false.
Proof.
  split; [apply Permutation_swap|split; [lia|]].
  apply (checkBuffer_perm 2 [1; 0]); [apply Permutation_swap|lia].
Defined.

(** C10. From [N = 65537] on, the sum of a permutation of [0..N-1] exceeds
    [INT_MAX]: the accumulator [aux] of [checkBuffer] overflows (undefined
    behaviour), which the model reports as [None]. *)
Theorem checkBuffer_overflow (n : nat) (d : list Z) :
  d ≡ₚ iota n → 65537 <= Z.of_nat n →
  checkBuffer {| data := d; size := Z.of_nat n |} = None.
Proof.
  intros Hp Hn. unfold checkBuffer; simpl.
  assert (length d = n) as Hlen by (rewrite Hp; apply length_iota).
  rewrite Nat2Z.id, take_ge by lia.
  destruct (sum_loop d 0) as [r|] eqn:Hr; [|done]. exfalso.
  apply sum_loop_Some in Hr as [-> Hr]; [|by eapply perm_iota_nonneg|unfold INT_MAX; lia].
  rewrite (sumZ_perm_iota n d Hp) in Hr. pose proof (expected_sum_overflow (Z.of_nat n) Hn). lia.
Qed.

Lemma checkBuffer_overflow_witness :
  iota (Z.to_nat 65537) ≡ₚ iota (Z.to_nat 65537) ∧ 65537 <= Z.of_nat (Z.to_nat 65537) ∧
  checkBuffer {| data := iota (Z.to_nat 65537); size := Z.of_nat (Z.to_nat 65537) |} = None.
Proof.
  split; [done|split; [rewrite Z2Nat.id; lia|]].
  apply (checkBuffer_overflow (Z.to_nat 65537) (iota (Z.to_nat 65537))); [done|rewrite Z2Nat.id; lia].
Defined.
