(* ===== verification/SwapWorker.v ===== *)
(** * The worker threads: [swap] (swape2.c, lines 35-81)

    Every thread runs [swap] on its [struct args].  This file models one
    thread as a record of its arguments and locals plus a program counter
    [pc], and the whole program during the parallel phase as a [world]: the
    shared buffer, the mutex table (any implementation of the [SlotLocks]
    interface), the threads, the position reached in the sequence of
    [rand()] results, and the log printed by line 45.  [swap_step w t] runs
    one atomic step of thread [t]; [step] lets any thread that can move
    move, which gives every interleaving of the threads.

    The invariant [inv] of the reachable states and its preservation are in
    [WorkerInvariant]; the theorems derived from it are in the files that
    follow it. *)

From S2P Require Import Prelude CInt SlotLockTable SharedBuffer.

Local Open Scope Z_scope.

(** The atomic steps of [swap], by the lines they run. *)
Inductive pc :=
| LoopTest   (** line 39: [while(args->iterations--)] *)
| DrawI      (** line 42: [i = rand() % args->buffer->size] *)
| DrawJ      (** line 43: [j = rand() % args->buffer->size] *)
| PrintSwap  (** lines 45-46, then the test [i != j] of line 48 *)
| LockJ      (** line 50: [pthread_mutex_lock(&mutexes[j])] *)
| TryI       (** lines 51-52: [if (pthread_mutex_trylock(&mutexes[i]) == 0) break] *)
| BackoffJ   (** line 53: [pthread_mutex_unlock(&mutexes[j])] *)
| SpinI      (** lines 57-59: the [trylock] loop when [i == j] *)
| ReadTmp    (** lines 63-64: [tmp = data[i]] *)
| WriteI     (** lines 66-67: [data[i] = data[j]] *)
| WriteJ     (** lines 69-71: [data[j] = tmp] *)
| UnlockI    (** line 73: [pthread_mutex_unlock(&mutexes[i])], then line 75 *)
| UnlockJ    (** line 76: [pthread_mutex_unlock(&mutexes[j])] *)
| Finished.  (** line 80: [return NULL] *)

#[export] Instance pc_eq_dec : EqDecision pc.
Proof. solve_decision. Defined.

(** [struct args] (lines 26-32) without the two shared pointers, which are
    the [world]'s buffer and mutex table, and the locals [i], [j], [tmp]. *)
Record thread := {
  thread_num : nat;
  delay : Z;
  iterations : Z;
  idx_i : Z;
  idx_j : Z;
  tmp : Z;
  tpc : pc
}.

(** One line printed by line 45: the thread, [i], [data[i]], [j], [data[j]]. *)
Record event := {
  ev_thread : nat;
  ev_i : Z;
  ev_di : Z;
  ev_j : Z;
  ev_dj : Z
}.

Definition set_pc (th : thread) (p : pc) : thread :=
  {| thread_num := thread_num th; delay := delay th; iterations := iterations th;
     idx_i := idx_i th; idx_j := idx_j th; tmp := tmp th; tpc := p |}.

Definition set_iterations (th : thread) (n : Z) (p : pc) : thread :=
  {| thread_num := thread_num th; delay := delay th; iterations := n;
     idx_i := idx_i th; idx_j := idx_j th; tmp := tmp th; tpc := p |}.

Definition set_i (th : thread) (v : Z) (p : pc) : thread :=
  {| thread_num := thread_num th; delay := delay th; iterations := iterations th;
     idx_i := v; idx_j := idx_j th; tmp := tmp th; tpc := p |}.

Definition set_j (th : thread) (v : Z) (p : pc) : thread :=
  {| thread_num := thread_num th; delay := delay th; iterations := iterations th;
     idx_i := idx_i th; idx_j := v; tmp := tmp th; tpc := p |}.

Definition set_tmp (th : thread) (v : Z) (p : pc) : thread :=
  {| thread_num := thread_num th; delay := delay th; iterations := iterations th;
     idx_i := idx_i th; idx_j := idx_j th; tmp := v; tpc := p |}.

(** Lines 145-151: the arguments of thread [k] before it runs. *)
Definition spawn_thread (k : nat) (dly its : Z) : thread :=
  {| thread_num := k; delay := dly; iterations := its;
     idx_i := 0; idx_j := 0; tmp := 0; tpc := LoopTest |}.

Section Worker.
Context `{SlotLocks L}.

(** The program during the parallel phase. *)
Record world := {
  buf : buffer;
  locks : L;
  threads : list thread;
  rand_pos : nat;
  log : list event
}.

Definition with_thread (w : world) (t : nat) (th : thread) : world :=
  {| buf := buf w; locks := locks w; threads := <[t := th]> (threads w);
     rand_pos := rand_pos w; log := log w |}.

Definition with_locks (w : world) (l : L) : world :=
  {| buf := buf w; locks := l; threads := threads w;
     rand_pos := rand_pos w; log := log w |}.

Definition with_data (w : world) (d : list Z) : world :=
  {| buf := {| data := d; size := size (buf w) |}; locks := locks w;
     threads := threads w; rand_pos := rand_pos w; log := log w |}.

Definition with_rand (w : world) : world :=
  {| buf := buf w; locks := locks w; threads := threads w;
     rand_pos := S (rand_pos w); log := log w |}.

Definition with_event (w : world) (e : event) : world :=
  {| buf := buf w; locks := locks w; threads := threads w;
     rand_pos := rand_pos w; log := log w ++ [e] |}.

(** What one step of a thread does. *)
Inductive outcome :=
| Stepped (w : world)
| Blocked
| Exited
| Crashed (u : ub).

(** The results of [rand()], one per call, shared by all threads. *)
Variable rand_seq : nat → Z.

(** [rand() % args->buffer->size]: the draw and the next position. *)
Definition draw (w : world) : option Z := c_rem (rand_seq (rand_pos w)) (size (buf w)).

Definition swap_step (w : world) (t : nat) : outcome :=
  match threads w !! t with
  | None => Exited
  | Some th =>
    let d := data (buf w) in
    let i := idx_i th in
    let j := idx_j th in
    match tpc th with
    | LoopTest =>
        if decide (iterations th = 0)
        then Stepped (with_thread w t (set_iterations th (-1) Finished))
        else match c_dec (iterations th) with
             | Some n => Stepped (with_thread w t (set_iterations th n DrawI))
             | None => Crashed UB_overflow
             end
    | DrawI =>
        match draw w with
        | Some r => Stepped (with_thread (with_rand w) t (set_i th r DrawJ))
        | None => Crashed UB_div_zero
        end
    | DrawJ =>
        match draw w with
        | Some r => Stepped (with_thread (with_rand w) t (set_j th r PrintSwap))
        | None => Crashed UB_div_zero
        end
    | PrintSwap =>
        match d !!z i, d !!z j with
        | Some di, Some dj =>
            Stepped (with_thread
              (with_event w {| ev_thread := thread_num th; ev_i := i; ev_di := di;
                               ev_j := j; ev_dj := dj |})
              t (set_pc th (if decide (i ≠ j) then LockJ else SpinI)))
        | _, _ => Crashed UB_index
        end
    | LockJ =>
        match sl_lock (locks w) j t with
        | MOk l => Stepped (with_thread (with_locks w l) t (set_pc th TryI))
        | MBlock => Blocked
        | MUB u => Crashed u
        end
    | TryI =>
        match sl_trylock (locks w) i t with
        | MOk (r, l) =>
            Stepped (with_thread (with_locks w l) t
                       (set_pc th (if decide (r = 0) then ReadTmp else BackoffJ)))
        | MBlock => Blocked
        | MUB u => Crashed u
        end
    | BackoffJ =>
        match sl_unlock (locks w) j t with
        | MOk l => Stepped (with_thread (with_locks w l) t (set_pc th LockJ))
        | MBlock => Blocked
        | MUB u => Crashed u
        end
    | SpinI =>
        match sl_trylock (locks w) i t with
        | MOk (r, l) =>
            Stepped (with_thread (with_locks w l) t
                       (set_pc th (if decide (r = 0) then ReadTmp else SpinI)))
        | MBlock => Blocked
        | MUB u => Crashed u
        end
    | ReadTmp =>
        match d !!z i with
        | Some v => Stepped (with_thread w t (set_tmp th v WriteI))
        | None => Crashed UB_index
        end
    | WriteI =>
        match d !!z j with
        | Some v =>
            match storeZ d i v with
            | Some d' => Stepped (with_thread (with_data w d') t (set_pc th WriteJ))
            | None => Crashed UB_index
            end
        | None => Crashed UB_index
        end
    | WriteJ =>
        match storeZ d j (tmp th) with
        | Some d' => Stepped (with_thread (with_data w d') t (set_pc th UnlockI))
        | None => Crashed UB_index
        end
    | UnlockI =>
        match sl_unlock (locks w) i t with
        | MOk l =>
            Stepped (with_thread (with_locks w l) t
                       (set_pc th (if decide (i ≠ j) then UnlockJ else LoopTest)))
        | MBlock => Blocked
        | MUB u => Crashed u
        end
    | UnlockJ =>
        match sl_unlock (locks w) j t with
        | MOk l => Stepped (with_thread (with_locks w l) t (set_pc th LoopTest))
        | MBlock => Blocked
        | MUB u => Crashed u
        end
    | Finished => Exited
    end
  end.

(** Any thread that can move may move next: the interleavings. *)
Inductive step : world → world → Prop :=
| step_thread (t : nat) (w w' : world) :
    swap_step w t = Stepped w' → step w w'.

(** ** Data races

    The accesses to the buffer that the next step of a thread makes: the
    slot, whether it writes, and whether the thread holds the slot's
    mutex.  Line 45 reads [data[i]] and [data[j]] before any lock; lines
    63-69 read and write under the mutexes of [i] and [j]. *)
Inductive access_kind := ReadAcc | WriteAcc.

Record access := {
  acc_kind : access_kind;
  acc_slot : Z;
  acc_locked : bool
}.

Definition next_accesses (th : thread) : list access :=
  match tpc th with
  | PrintSwap =>
      [{| acc_kind := ReadAcc; acc_slot := idx_i th; acc_locked := false |};
       {| acc_kind := ReadAcc; acc_slot := idx_j th; acc_locked := false |}]
  | ReadTmp => [{| acc_kind := ReadAcc; acc_slot := idx_i th; acc_locked := true |}]
  | WriteI =>
      [{| acc_kind := ReadAcc; acc_slot := idx_j th; acc_locked := true |};
       {| acc_kind := WriteAcc; acc_slot := idx_i th; acc_locked := true |}]
  | WriteJ => [{| acc_kind := WriteAcc; acc_slot := idx_j th; acc_locked := true |}]
  | _ => []
  end.

(** Two accesses that race: the same slot, one of them a write, not both
    under the slot's mutex. *)
Definition conflicting (a b : access) : Prop :=
  acc_slot a = acc_slot b ∧ (acc_kind a = WriteAcc ∨ acc_kind b = WriteAcc) ∧
  ¬ (acc_locked a = true ∧ acc_locked b = true).

(** A data race (C11 5.1.2.4p25), as an interleaving semantics states it:
    two threads whose next accesses conflict.  A program has a data race in
    some execution exactly when a state of this kind is reachable. *)
Definition data_race (w : world) : Prop :=
  ∃ t u th thu a b, t ≠ u ∧ threads w !! t = Some th ∧ threads w !! u = Some thu ∧
    a ∈ next_accesses th ∧ b ∈ next_accesses thu ∧ conflicting a b.

(** Run a schedule of thread ids; [None] if a scheduled thread cannot
    move. *)
Fixpoint run (w : world) (sched : list nat) : option world :=
  match sched with
  | [] => Some w
  | t :: s =>
      match swap_step w t with
      | Stepped w' => run w' s
      | _ => None
      end
  end.

Lemma run_rtc (w w' : world) (s : list nat) : run w s = Some w' → rtc step w w'.
Proof.
  revert w. induction s as [|t s IH]; intros w Hr; simpl in Hr; [by simplify_eq|].
  destruct (swap_step w t) eqn:E; try done.
  eapply rtc_l; [by econstructor|]. by apply IH.
Qed.

(** The first thread, from [t] on, that can move, and its step. *)
Fixpoint first_step (w : world) (t : nat) (cnt : nat) : option world :=
  match cnt with
  | O => None
  | S c =>
      match swap_step w t with
      | Stepped w' => Some w'
      | _ => first_step w (S t) c
      end
  end.

(** A deterministic schedule: always run the lowest-numbered thread that
    can move, for at most [fuel] steps. *)
Fixpoint run_first (fuel : nat) (w : world) : world :=
  match fuel with
  | O => w
  | S f =>
      match first_step w 0 (length (threads w)) with
      | Some w' => run_first f w'
      | None => w
      end
  end.

Lemma first_step_step (w w' : world) (t cnt : nat) :
  first_step w t cnt = Some w' → step w w'.
Proof.
  revert t. induction cnt as [|c IH]; intros t; simpl; [done|].
  destruct (swap_step w t) eqn:E; try apply IH. intros [= <-]. by econstructor.
Qed.

Lemma run_first_rtc (fuel : nat) (w : world) : rtc step w (run_first fuel w).
Proof.
  revert w. induction fuel as [|f IH]; intros w; simpl; [done|].
  destruct (first_step w 0 _) eqn:E; [|done].
  eapply rtc_l; [by eapply first_step_step|]. apply IH.
Qed.

End Worker.

Arguments world L : clear implicits.
