(* ===== verification/Console.v ===== *)
(** * Console output (swape2.c, lines 83-90, 45-46 and the [printf]s of
    [start_threads])

    [printf] writes to one output stream, modelled as a [string].  [%i] and
    [%d] of an [int] print its decimal form, as the Standard Library's
    [NilZero.string_of_int] does ([print_int]).  [print_buffer] prints each
    element of the buffer followed by a space, then a newline; line 45
    prints one line per swap ([print_event]).

    A reader of the output recovers the buffer: [parse_buffer] splits a
    line at its spaces and reads each word back as an integer, and
    [print_buffer_roundtrip] shows it gives back exactly the elements
    [print_buffer] printed; [parse_log] reads the per-swap lines back into
    the events they report ([log_roundtrip]). *)

From Stdlib Require Import Ascii DecimalString DecimalFacts DecimalZ.
From stdpp Require Import strings.
From S2P Require Import Prelude CInt SharedBuffer SwapWorker.

Local Open Scope Z_scope.

(** ** Strings *)

Definition nl : string := String "010"%char EmptyString.

Lemma string_app_cons c (s1 s2 : string) : String c s1 +:+ s2 = String c (s1 +:+ s2).
Proof. done. Qed.

Lemma string_app_nil_l (s : string) : EmptyString +:+ s = s.
Proof. done. Qed.

Lemma string_app_nil_r (s : string) : s +:+ EmptyString = s.
Proof. induction s as [|c s IH]; [done|]. by rewrite string_app_cons, IH. Qed.

Lemma string_app_assoc (s1 s2 s3 : string) : (s1 +:+ s2) +:+ s3 = s1 +:+ (s2 +:+ s3).
Proof. induction s1 as [|c s IH]; [done|]. by rewrite !string_app_cons, IH. Qed.

(** A separator of the output: a space or a newline. *)
Definition is_sep (c : ascii) : bool := Ascii.eqb c " " || Ascii.eqb c "010".

Fixpoint sep_free (s : string) : bool :=
  match s with
  | EmptyString => true
  | String c s' => negb (is_sep c) && sep_free s'
  end.

(** ** What the program prints *)

(** [printf("%i", x)] and [printf("%d", x)]. *)
Definition print_int (x : Z) : string := NilZero.string_of_int (Z.to_int x).

(** Lines 86-87: [printf("%i ", buffer.data[i])] for [i < buffer.size]. *)
Fixpoint print_ints (l : list Z) : string :=
  match l with
  | [] => EmptyString
  | x :: l' => print_int x +:+ " " +:+ print_ints l'
  end.

(** [print_buffer], lines 83-90. *)
Definition print_buffer (b : buffer) : string :=
  print_ints (take (Z.to_nat (size b)) (data b)) +:+ nl.

(** Lines 45-46. *)
Definition print_event (e : event) : string :=
  "Thread " +:+ print_int (Z.of_nat (ev_thread e)) +:+ " swapping positions " +:+
  print_int (ev_i e) +:+ " (== " +:+ print_int (ev_di e) +:+ ") and " +:+
  print_int (ev_j e) +:+ " (== " +:+ print_int (ev_dj e) +:+ ")" +:+ nl.

(** What the threads printed, in order. *)
Definition log_out (l : list event) : string := foldr (λ e s, print_event e +:+ s) EmptyString l.

(** ** Reading the output back *)

(** The words of a line, up to its newline; [cur] is the word being read. *)
Fixpoint words (s : string) (cur : string) : option (list string) :=
  match s with
  | EmptyString => None
  | String c s' =>
      if Ascii.eqb c " " then (cur ::.) <$> words s' EmptyString
      else if Ascii.eqb c "010" then
        (if bool_decide (cur = EmptyString ∧ s' = EmptyString) then Some [] else None)
      else words s' (cur +:+ String c EmptyString)
  end.

Definition parse_int (s : string) : option Z := Z.of_int <$> NilZero.int_of_string s.

Definition parse_buffer (s : string) : option (list Z) :=
  words s EmptyString ≫= mapM parse_int.

(** ** Lemmas *)

Lemma sep_free_uint (d : Decimal.uint) : sep_free (NilEmpty.string_of_uint d) = true.
Proof. induction d; simpl; auto. Qed.

Lemma sep_free_print_int x : sep_free (print_int x) = true.
Proof.
  unfold print_int, NilZero.string_of_int, NilZero.string_of_uint.
  destruct (Z.to_int x) as [d|d]; destruct d; simpl; auto using sep_free_uint.
Qed.

(** [Z.to_int] never yields an empty digit string. *)
Lemma to_int_not_nil x : Z.to_int x ≠ Decimal.Pos Decimal.Nil ∧ Z.to_int x ≠ Decimal.Neg Decimal.Nil.
Proof.
  split; intros E; pose proof (DecimalZ.of_to x) as Hx; rewrite E in Hx;
    simpl in Hx; subst x; discriminate.
Qed.

Lemma parse_print_int x : parse_int (print_int x) = Some x.
Proof.
  unfold parse_int, print_int. destruct (to_int_not_nil x).
  rewrite NilZero.isi by done. simpl. by rewrite DecimalZ.of_to.
Qed.

Lemma words_word t r cur :
  sep_free t = true →
  words (t +:+ String " " r) cur = (cur +:+ t ::.) <$> words r EmptyString.
Proof.
  revert cur. induction t as [|c t IH]; intros cur Ht.
  - simpl. by rewrite string_app_nil_r.
  - rewrite string_app_cons. simpl. simpl in Ht. apply andb_true_iff in Ht as [Hc Ht]. unfold is_sep in Hc.
    destruct (Ascii.eqb c " "), (Ascii.eqb c "010"); try discriminate.
    rewrite IH by done. by rewrite string_app_assoc.
Qed.

Lemma words_print_ints l : words (print_ints l +:+ nl) EmptyString = Some (print_int <$> l).
Proof.
  induction l as [|x l IH]; [done|]. simpl.
  rewrite !string_app_assoc, string_app_cons, string_app_nil_l.
  rewrite words_word by apply sep_free_print_int.
  by rewrite IH.
Qed.

Lemma mapM_parse_print l : mapM parse_int (print_int <$> l) = Some l.
Proof. induction l as [|x l IH]; [done|]. simpl. rewrite parse_print_int. simpl. by setoid_rewrite IH. Qed.

Lemma parse_print_ints l : parse_buffer (print_ints l +:+ nl) = Some l.
Proof. unfold parse_buffer. rewrite words_print_ints. exact (mapM_parse_print _). Qed.

(** ** Reading the per-swap lines back *)

(** A character that ends a number in the line of line 45. *)
Definition is_delim (c : ascii) : bool := Ascii.eqb c " " || Ascii.eqb c ")" || Ascii.eqb c "010".

Fixpoint delim_free (s : string) : bool :=
  match s with
  | EmptyString => true
  | String c s' => negb (is_delim c) && delim_free s'
  end.

(** The longest prefix without a delimiter, and the rest. *)
Fixpoint take_word (s : string) : string * string :=
  match s with
  | EmptyString => (EmptyString, EmptyString)
  | String c s' =>
      if is_delim c then (EmptyString, s) else let '(w, r) := take_word s' in (String c w, r)
  end.

Definition scan_int (s : string) : option (Z * string) :=
  let '(w, r) := take_word s in (λ x, (x, r)) <$> parse_int w.

Fixpoint strip_prefix (p s : string) : option string :=
  match p, s with
  | EmptyString, _ => Some s
  | String c p', String c' s' => if Ascii.eqb c c' then strip_prefix p' s' else None
  | String _ _, EmptyString => None
  end.

(** One line of line 45, and the text after it. *)
Definition parse_event (s : string) : option (event * string) :=
  s1 ← strip_prefix "Thread " s; '(k, s2) ← scan_int s1;
  s3 ← strip_prefix " swapping positions " s2; '(i, s4) ← scan_int s3;
  s5 ← strip_prefix " (== " s4; '(di, s6) ← scan_int s5;
  s7 ← strip_prefix ") and " s6; '(j, s8) ← scan_int s7;
  s9 ← strip_prefix " (== " s8; '(dj, s10) ← scan_int s9;
  s11 ← strip_prefix (")" +:+ nl) s10;
  Some ({| ev_thread := Z.to_nat k; ev_i := i; ev_di := di; ev_j := j; ev_dj := dj |}, s11).

(** The lines of the threads, one event per line, until the end of the
    text ([fuel] bounds the number of lines). *)
Fixpoint parse_events (fuel : nat) (s : string) : option (list event) :=
  match s with
  | EmptyString => Some []
  | _ =>
      match fuel with
      | O => None
      | S f => '(e, r) ← parse_event s; (e ::.) <$> parse_events f r
      end
  end.

Definition parse_log (s : string) : option (list event) := parse_events (String.length s) s.

Lemma delim_free_uint (d : Decimal.uint) : delim_free (NilEmpty.string_of_uint d) = true.
Proof. induction d; simpl; auto. Qed.

Lemma delim_free_print_int x : delim_free (print_int x) = true.
Proof.
  unfold print_int, NilZero.string_of_int, NilZero.string_of_uint.
  destruct (Z.to_int x) as [d|d]; destruct d; simpl; auto using delim_free_uint.
Qed.

(** The text after a number starts with a delimiter. *)
Definition starts_delim (r : string) : bool :=
  match r with EmptyString => false | String c _ => is_delim c end.

Lemma take_word_app t r :
  delim_free t = true → starts_delim r = true → take_word (t +:+ r) = (t, r).
Proof.
  intros Ht Hr. induction t as [|c' t IH].
  - destruct r as [|c r]; [done|]. simpl in *. by rewrite Hr.
  - rewrite string_app_cons. simpl. simpl in Ht. apply andb_true_iff in Ht as [Hc' Ht].
    destruct (is_delim c'); [done|]. by rewrite IH.
Qed.

Lemma scan_print_int x r : starts_delim r = true → scan_int (print_int x +:+ r) = Some (x, r).
Proof.
  intros Hr. unfold scan_int. rewrite take_word_app by auto using delim_free_print_int.
  by rewrite parse_print_int.
Qed.

Lemma strip_prefix_app p s : strip_prefix p (p +:+ s) = Some s.
Proof. induction p as [|c p IH]; [done|]. simpl. by rewrite Ascii.eqb_refl. Qed.

Lemma parse_print_event e r : parse_event (print_event e +:+ r) = Some (e, r).
Proof.
  destruct e as [k i di j dj]. unfold print_event, parse_event. cbn [ev_thread ev_i ev_di ev_j ev_dj].
  rewrite !string_app_assoc.
  repeat (rewrite ?string_app_nil_l;
          (rewrite strip_prefix_app || rewrite scan_print_int by reflexivity); simpl).
  by rewrite Nat2Z.id.
Qed.

Lemma string_length_app (s1 s2 : string) :
  String.length (s1 +:+ s2) = (String.length s1 + String.length s2)%nat.
Proof. induction s1 as [|c s IH]; [done|]. rewrite string_app_cons. simpl. by rewrite IH. Qed.

Lemma print_event_app_cons e r : ∃ c s, print_event e +:+ r = String c s.
Proof. unfold print_event. rewrite !string_app_assoc, string_app_cons. by eexists _, _. Qed.

Lemma parse_events_log fuel l :
  (length l <= fuel)%nat → parse_events fuel (log_out l) = Some l.
Proof.
  revert fuel. induction l as [|e l IH]; intros fuel Hf; [by destruct fuel|].
  destruct fuel as [|f]; [simpl in Hf; lia|]. simpl in Hf.
  change (log_out (e :: l)) with (print_event e +:+ log_out l).
  destruct (print_event_app_cons e (log_out l)) as (c & s & Es).
  rewrite Es. cbn [parse_events]. rewrite <- Es, parse_print_event. simpl.
  rewrite IH by lia. done.
Qed.

Lemma length_log_out l : (length l <= String.length (log_out l))%nat.
Proof.
  induction l as [|e l IH]; [simpl; lia|].
  change (log_out (e :: l)) with (print_event e +:+ log_out l). rewrite string_length_app.
  destruct (print_event_app_cons e EmptyString) as (c & s & Es).
  rewrite string_app_nil_r in Es. rewrite Es. simpl. lia.
Qed.

(** C24. The per-swap lines the threads print (line 45) can be read back:
    parsing the log gives the events in the order they were printed, with
    the thread, both indices and both values read. *)
Theorem log_roundtrip l : parse_log (log_out l) = Some l.
Proof. unfold parse_log. apply parse_events_log, length_log_out. Qed.

(** C19. Reading back what [print_buffer] printed gives the elements it
    printed, [data[0..size-1]]: the snapshots of lines 139 and 168 determine
    the buffer. *)
Theorem print_buffer_roundtrip (b : buffer) :
  parse_buffer (print_buffer b) = Some (take (Z.to_nat (size b)) (data b)).
Proof.
  apply parse_print_ints.
Qed.
