(* ===== verification/WorkerInvariant.v ===== *)
(** * The invariant of the parallel phase

    What holds in every state the threads of [swap] reach from the start of
    [start_threads]'s parallel phase:
    - the buffer and the mutex table have [N] slots;
    - each thread's locals are in range for its program counter
      ([thread_ok]): [0 <= i, j < N] once drawn, [i != j] on the two-lock
      path, [i == j] on the spin path, [0 <= iterations <= INT_MAX];
    - between the lines of a swap the buffer holds what the thread saw
      ([data_ok]): [data[i] == tmp] before line 66, [data[i] == data[j]]
      between lines 66 and 69;
    - the mutex table says exactly which thread holds which slot, as the
      program counters say ([locks_ok] with [holds]);
    - the buffer with the pending [tmp] of every thread between lines 66
      and 69 put back at its slot [i] ([restore]) is a permutation of
      [0..N-1].

    The preservation proof has one lemma per program counter, on top of
    three lemmas for the lock table (same owners, acquire, release) and the
    lemmas on pending writes. *)

From S2P Require Import Prelude CInt SlotLockTable SharedBuffer SwapWorker.

Local Open Scope Z_scope.

(** The slots a thread holds the mutex of, by its program counter. *)
Definition holds (th : thread) (k : nat) : bool :=
  match tpc th with
  | TryI | BackoffJ | UnlockJ => bool_decide (k = Z.to_nat (idx_j th))
  | ReadTmp | WriteI | WriteJ | UnlockI =>
      bool_decide (k = Z.to_nat (idx_i th)) || bool_decide (k = Z.to_nat (idx_j th))
  | _ => false
  end.

(** A thread between lines 66 and 69 has overwritten [data[i]]; the value it
    will put in [data[j]] is in [tmp]. *)
Definition is_pending (th : thread) (k : nat) : bool :=
  bool_decide (tpc th = WriteJ ∧ k = Z.to_nat (idx_i th)).

Definition pend (th : thread) (k : nat) : option Z :=
  if is_pending th k then Some (tmp th) else None.

Fixpoint pending_at (ths : list thread) (k : nat) : option Z :=
  match ths with
  | [] => None
  | th :: ths' =>
      match pend th k with
      | Some v => Some v
      | None => pending_at ths' k
      end
  end.

(** The buffer as it is once every pending swap is undone at slot [i]. *)
Definition restore_data (ths : list thread) (d : list Z) : list Z :=
  imap (λ k x, default x (pending_at ths k)) d.

Definition restore `{SlotLocks L} (w : world L) : list Z :=
  restore_data (threads w) (data (buf w)).

Definition thread_ok (n : nat) (th : thread) : Prop :=
  let it_ok := 0 <= iterations th <= INT_MAX in
  let i_ok := 0 <= idx_i th < Z.of_nat n in
  let j_ok := 0 <= idx_j th < Z.of_nat n in
  match tpc th with
  | LoopTest | DrawI => it_ok
  | DrawJ => it_ok ∧ i_ok
  | PrintSwap | ReadTmp | WriteI | WriteJ | UnlockI => it_ok ∧ i_ok ∧ j_ok
  | LockJ | TryI | BackoffJ | UnlockJ => it_ok ∧ i_ok ∧ j_ok ∧ idx_i th ≠ idx_j th
  | SpinI => it_ok ∧ i_ok ∧ j_ok ∧ idx_i th = idx_j th
  | Finished => True
  end.

Definition data_ok (d : list Z) (th : thread) : Prop :=
  match tpc th with
  | WriteI => d !!z idx_i th = Some (tmp th)
  | WriteJ => d !!z idx_i th = d !!z idx_j th
  | _ => True
  end.

Definition locks_ok (o : list (option nat)) (ths : list thread) : Prop :=
  ∀ k u, o !! k = Some (Some u) ↔ ∃ th, ths !! u = Some th ∧ holds th k = true.

Record inv `{SlotLocks L} (n : nat) (w : world L) : Prop := {
  inv_size : size (buf w) = Z.of_nat n;
  inv_n : (0 < n)%nat ∧ Z.of_nat n <= INT_MAX;
  inv_len : length (data (buf w)) = n;
  inv_olen : length (sl_owners (locks w)) = n;
  inv_threads : ∀ t th, threads w !! t = Some th →
                  thread_ok n th ∧ data_ok (data (buf w)) th;
  inv_locks : locks_ok (sl_owners (locks w)) (threads w);
  inv_perm : restore w ≡ₚ iota n
}.

(** ** Ownership *)

Lemma pending_holds th k : is_pending th k = true → holds th k = true.
Proof.
  unfold is_pending, holds. intros ?%bool_decide_eq_true. destr_hyps.
  rewrite H. by rewrite bool_decide_true.
Qed.

Lemma pend_not_WriteJ th k : tpc th ≠ WriteJ → pend th k = None.
Proof. intros. unfold pend, is_pending. by rewrite bool_decide_false by naive_solver. Qed.

(** Two threads holding the same slot are the same thread. *)
Lemma locks_ok_excl o ths t u th thu k :
  locks_ok o ths → ths !! t = Some th → ths !! u = Some thu →
  holds th k = true → holds thu k = true → t = u.
Proof.
  intros Hl Ht Hu Hk Hk'.
  assert (o !! k = Some (Some t)) as E1 by (apply Hl; eauto).
  assert (o !! k = Some (Some u)) as E2 by (apply Hl; eauto).
  congruence.
Qed.

(** The three ways a step changes the table, for the stepping thread [t]. *)
Lemma locks_ok_update o o' ths t th th' :
  locks_ok o ths → ths !! t = Some th →
  (∀ k u, u ≠ t → o' !! k = Some (Some u) ↔ o !! k = Some (Some u)) →
  (∀ k, o' !! k = Some (Some t) ↔ holds th' k = true) →
  locks_ok o' (<[t := th']> ths).
Proof.
  intros Hl Ht Hother Hself k u.
  destruct (decide (u = t)) as [->|Hne].
  - rewrite Hself, list_lookup_insert_eq by (eapply lookup_lt_Some; eauto). naive_solver.
  - rewrite Hother, list_lookup_insert_ne by congruence. apply Hl.
Qed.

Lemma locks_ok_same o ths t th th' :
  locks_ok o ths → ths !! t = Some th → (∀ k, holds th' k = holds th k) →
  locks_ok o (<[t := th']> ths).
Proof.
  intros Hl Ht Hh. eapply locks_ok_update; [done|done|done|].
  intros k. rewrite Hh, (Hl k t). naive_solver.
Qed.

Lemma locks_ok_acquire o ths t th th' K :
  locks_ok o ths → ths !! t = Some th → o !! K = Some None →
  (∀ k, holds th' k = holds th k || bool_decide (k = K)) →
  locks_ok (<[K := Some t]> o) (<[t := th']> ths).
Proof.
  intros Hl Ht HK Hh. eapply locks_ok_update; [done|done| |].
  - intros k u Hne. rewrite list_lookup_insert.
    case_decide; [destr_hyps; subst; rewrite HK|]; naive_solver.
  - intros k. rewrite Hh, list_lookup_insert, orb_true_iff, bool_decide_eq_true.
    pose proof (lookup_lt_Some _ _ _ HK).
    case_decide as Hd; [destruct Hd; subst; naive_solver|].
    rewrite (Hl k t). split; [naive_solver|].
    intros [Hk| ->]; [eauto|]. exfalso; apply Hd; auto.
Qed.

Lemma locks_ok_release o ths t th th' K :
  locks_ok o ths → ths !! t = Some th → o !! K = Some (Some t) →
  (∀ k, holds th' k = holds th k && negb (bool_decide (k = K))) →
  locks_ok (<[K := None]> o) (<[t := th']> ths).
Proof.
  intros Hl Ht HK Hh. eapply locks_ok_update; [done|done| |].
  - intros k u Hne. rewrite list_lookup_insert.
    case_decide; [destr_hyps; subst; rewrite HK|]; naive_solver.
  - intros k. rewrite Hh, list_lookup_insert, andb_true_iff, negb_true_iff,
      bool_decide_eq_false.
    pose proof (lookup_lt_Some _ _ _ HK).
    case_decide as Hd; [destruct Hd; subst; naive_solver|].
    rewrite (Hl k t). split; [naive_solver|].
    intros [Hk Hne]. eauto.
Qed.

(** ** Pending writes *)

Lemma pending_at_Some ths k v :
  pending_at ths k = Some v → ∃ u th, ths !! u = Some th ∧ pend th k = Some v.
Proof.
  induction ths as [|th ths IH]; simpl; [done|]. destruct (pend th k) eqn:E.
  - intros [= ->]. by exists 0%nat, th.
  - intros (u & thu & ? & ?)%IH. by exists (S u), thu.
Qed.

Lemma pending_at_None ths k :
  (∀ u th, ths !! u = Some th → is_pending th k = false) → pending_at ths k = None.
Proof.
  induction ths as [|th ths IH]; intros Hall; simpl; [done|].
  unfold pend. rewrite (Hall 0%nat th) by done. apply IH.
  intros u thu ?. by apply (Hall (S u)).
Qed.

Lemma pending_at_None_inv ths k u th :
  pending_at ths k = None → ths !! u = Some th → pend th k = None.
Proof.
  revert u. induction ths as [|th' ths IH]; intros u; simpl; [done|].
  destruct (pend th' k) eqn:E; [done|]. intros Hn.
  destruct u; simpl; [naive_solver|]. by apply IH.
Qed.

Lemma pend_Some th k v : pend th k = Some v ↔ is_pending th k = true ∧ v = tmp th.
Proof. unfold pend. destruct (is_pending th k); naive_solver. Qed.

(** The pending write at a slot is the one of the thread that holds it. *)
Lemma pending_at_unique ths o u thu k :
  locks_ok o ths → ths !! u = Some thu → is_pending thu k = true →
  pending_at ths k = Some (tmp thu).
Proof.
  intros Hl Hu Hp. destruct (pending_at ths k) as [v|] eqn:E.
  - apply pending_at_Some in E as (u' & th' & Hu' & (Hp' & ->)%pend_Some).
    assert (u' = u) as -> by (eapply locks_ok_excl; eauto using pending_holds).
    congruence.
  - eapply pending_at_None_inv in E; [|done]. unfold pend in E. by rewrite Hp in E.
Qed.

(** No write is pending at a slot held by a thread that is not pending
    there. *)
Lemma pending_at_held ths o t th k :
  locks_ok o ths → ths !! t = Some th → holds th k = true → is_pending th k = false →
  pending_at ths k = None.
Proof.
  intros Hl Ht Hh Hp. apply pending_at_None. intros u thu Hu.
  destruct (is_pending thu k) eqn:E; [|done].
  assert (u = t) as -> by (eapply locks_ok_excl; eauto using pending_holds).
  congruence.
Qed.

Lemma pending_at_insert ths t th th' k :
  ths !! t = Some th → pend th' k = pend th k →
  pending_at (<[t := th']> ths) k = pending_at ths k.
Proof.
  revert t. induction ths as [|th0 ths IH]; intros t; [done|].
  destruct t as [|t]; simpl.
  - intros [= ->] ->. done.
  - intros Ht Hp. by rewrite IH.
Qed.

Lemma restore_data_lookup ths d k :
  restore_data ths d !! k = (λ x, default x (pending_at ths k)) <$> d !! k.
Proof. unfold restore_data. by rewrite list_lookup_imap. Qed.

Lemma length_restore_data ths d : length (restore_data ths d) = length d.
Proof. apply length_imap. Qed.

(** Changing thread [t] without changing its pending write, nor the data,
    leaves the restored buffer as it was. *)
Lemma restore_data_insert ths t th th' d :
  ths !! t = Some th → (∀ k, pend th' k = pend th k) →
  restore_data (<[t := th']> ths) d = restore_data ths d.
Proof.
  intros Ht Hp. apply list_eq. intros k.
  by rewrite !restore_data_lookup, (pending_at_insert ths t th th').
Qed.

#[export] Hint Resolve pending_holds locks_ok_same : swape.

(** ** Preservation, one program counter at a time *)

(** ** The restored buffer across the two writes of a swap *)

Section Restore.
Variables (o : list (option nat)) (ths : list thread) (d : list Z).
Variables (t : nat) (th : thread).
Hypothesis Hl : locks_ok o ths.
Hypothesis Ht : ths !! t = Some th.
Hypothesis Hi : 0 <= idx_i th < Z.of_nat (length d).
Hypothesis Hj : 0 <= idx_j th < Z.of_nat (length d).

Lemma holds_I : tpc th ∈ [ReadTmp; WriteI; WriteJ; UnlockI] → holds th (Z.to_nat (idx_i th)) = true.
Proof.
  unfold holds. intros Hp. repeat (apply elem_of_cons in Hp as [Hp|Hp]);
    try (by apply elem_of_nil in Hp); rewrite Hp; by rewrite bool_decide_true.
Qed.

Lemma holds_J : tpc th ∈ [ReadTmp; WriteI; WriteJ; UnlockI] → holds th (Z.to_nat (idx_j th)) = true.
Proof.
  unfold holds. intros Hp. repeat (apply elem_of_cons in Hp as [Hp|Hp]);
    try (by apply elem_of_nil in Hp); rewrite Hp, orb_true_iff; right;
    by rewrite bool_decide_true.
Qed.

(** Line 66 writes [data[j]] into [data[i]]: the thread becomes pending
    at [i] with [tmp = data[i]], so the restored buffer does not change. *)
Lemma restore_WriteI v :
  tpc th = WriteI → d !!z idx_i th = Some (tmp th) →
  restore_data (<[t := set_pc th WriteJ]> ths) (<[(Z.to_nat (idx_i th)) := v]> d) = restore_data ths d.
Proof.
  intros Hpc Hd. rewrite lookupZ_nonneg in Hd by lia.
  assert (locks_ok o (<[t := set_pc th WriteJ]> ths)) as Hl'.
  { eapply locks_ok_same; [done|done|]. intros k. unfold holds. by rewrite Hpc. }
  apply list_eq. intros k. rewrite !restore_data_lookup.
  destruct (decide (k = Z.to_nat (idx_i th))) as [->|Hne].
  - rewrite list_lookup_insert_eq by lia. rewrite Hd. simpl.
    erewrite (pending_at_unique _ o t); [|done| |];
      [| by rewrite list_lookup_insert_eq by (eapply lookup_lt_Some; eauto)
       | unfold is_pending; simpl; by rewrite bool_decide_true].
    erewrite (pending_at_held _ o t th); [done|done|done| |].
    + apply holds_I. rewrite Hpc. set_solver.
    + unfold is_pending. rewrite bool_decide_false; [done|]. rewrite Hpc. naive_solver.
  - rewrite list_lookup_insert_ne by done.
    erewrite (pending_at_insert ths t th); [done|done|].
    unfold pend, is_pending. simpl. rewrite Hpc.
    rewrite !bool_decide_false; [done|naive_solver..].
Qed.

(** Line 69 writes [tmp] into [data[j]]: the restored buffer has slots
    [i] and [j] exchanged, so it stays a permutation. *)
Lemma restore_WriteJ :
  tpc th = WriteJ → d !!z idx_i th = d !!z idx_j th →
  restore_data (<[t := set_pc th UnlockI]> ths) (<[Z.to_nat (idx_j th) := tmp th]> d)
    ≡ₚ restore_data ths d.
Proof.
  intros Hpc Hd. rewrite !lookupZ_nonneg in Hd by lia.
  set (I := Z.to_nat (idx_i th)) in *. set (J := Z.to_nat (idx_j th)) in *.
  assert (Hlt : (t < length ths)%nat) by (eapply lookup_lt_Some; eauto).
  assert (Hl' : locks_ok o (<[t := set_pc th UnlockI]> ths)).
  { eapply locks_ok_same; [done|done|]. intros k. unfold holds. by rewrite Hpc. }
  assert (Hn' : ∀ k, holds th k = true →
                pending_at (<[t := set_pc th UnlockI]> ths) k = None).
  { intros k Hk. apply (pending_at_held _ o t (set_pc th UnlockI)); [done| | |].
    - by rewrite list_lookup_insert_eq.
    - unfold holds in *. simpl. by rewrite Hpc in Hk.
    - unfold is_pending. apply bool_decide_false. simpl. naive_solver. }
  assert (HpI : pending_at ths I = Some (tmp th)).
  { eapply (pending_at_unique _ o t); [done|done|]. unfold is_pending. by rewrite bool_decide_true. }
  assert (HhI : holds th I = true) by (apply holds_I; rewrite Hpc; set_solver).
  assert (HhJ : holds th J = true) by (apply holds_J; rewrite Hpc; set_solver).
  destruct (lookup_lt_is_Some_2 d I) as [x Hx]; [lia|].
  apply perm_exchange with (i := I) (j := J);
    rewrite ?length_restore_data, ?length_insert; try lia;
    rewrite ?restore_data_lookup.
  - rewrite Hn' by done. destruct (decide (I = J)) as [Heq|Hne].
    + rewrite <- Heq, list_lookup_insert_eq by lia. by rewrite HpI, Hx.
    + rewrite list_lookup_insert_ne by done.
      rewrite (pending_at_held _ o t th); [by rewrite Hd|done|done|done|].
      unfold is_pending. rewrite bool_decide_false; [done|]. naive_solver.
  - rewrite Hn' by done. rewrite list_lookup_insert_eq by lia. by rewrite HpI, Hx.
  - intros k HkI HkJ. rewrite !restore_data_lookup, list_lookup_insert_ne by done.
    erewrite (pending_at_insert ths t th); [done|done|].
    unfold pend, is_pending. simpl. rewrite Hpc.
    rewrite !bool_decide_false; [done|naive_solver..].
Qed.

End Restore.

Section Preservation.
Context `{SlotLocksLaws L}.
Variable rand_seq : nat → Z.
(** [rand()] returns a value in [0, RAND_MAX]. *)
Hypothesis rand_nonneg : ∀ p, 0 <= rand_seq p.

Implicit Types w : world L.

(** A step that changes thread [t], possibly the mutex table, and not the
    buffer nor any pending write. *)
Lemma inv_update n w w' t th th' :
  inv n w → threads w !! t = Some th →
  buf w' = buf w → threads w' = <[t := th']> (threads w) →
  length (sl_owners (locks w')) = n →
  locks_ok (sl_owners (locks w')) (threads w') →
  thread_ok n th' → data_ok (data (buf w)) th' →
  (∀ k, pend th' k = pend th k) →
  inv n w'.
Proof.
  intros Hi Ht Hb Hths Hlen Hl Hok Hd Hp. destruct Hi.
  split; rewrite ?Hb; try done.
  - intros u thu. rewrite Hths, list_lookup_insert.
    case_decide as Hc; [destruct Hc as [-> _]; intros [= <-]; done|].
    by apply inv_threads0.
  - unfold restore. rewrite Hb, Hths. by erewrite restore_data_insert.
Qed.

Lemma pend_same th th' : tpc th ≠ WriteJ → tpc th' ≠ WriteJ → ∀ k, pend th' k = pend th k.
Proof. intros. by rewrite !pend_not_WriteJ. Qed.

Lemma thread_in_inv n w t th : inv n w → threads w !! t = Some th → thread_ok n th.
Proof. intros Hi Ht. by apply (inv_threads _ _ Hi t th). Qed.

Lemma data_in_inv n w t th :
  inv n w → threads w !! t = Some th → data_ok (data (buf w)) th.
Proof. intros Hi Ht. by apply (inv_threads _ _ Hi t th). Qed.

End Preservation.

(** Open the step of thread [t] at program counter [pc]. *)
Ltac open_step Hs Ht Hpc :=
  unfold swap_step in Hs; rewrite Ht, Hpc in Hs; simpl in Hs;
  repeat (case_match; simplify_eq/=; try done).

(** Discharge [thread_ok] of the new thread from the old one. *)
Ltac thread_ok_from Hok Hpc :=
  try (unfold thread_ok in Hok; rewrite Hpc in Hok; simpl in Hok; destr_hyps);
  unfold thread_ok; simpl; repeat split; try lia.

(** Bring the bounds of thread [th] into the context. *)
Ltac get_ok Hi Ht Hpc :=
  let Hok := fresh "Hok" in
  pose proof (thread_in_inv _ _ _ _ Hi Ht) as Hok;
  unfold thread_ok in Hok; rewrite Hpc in Hok; simpl in Hok; destr_hyps.

(** [holds] of the new thread against [holds] of the old one. *)
Ltac holds_eq Hpc :=
  intros ?; unfold holds; simpl; rewrite Hpc; simpl;
  repeat case_bool_decide; simpl; try reflexivity; exfalso; lia.

(** Close the premises of [inv_update] for a step that leaves the owners of
    the mutex table as they were. *)
Ltac same_owners Hi Ht Hpc Hok :=
  eapply inv_update;
    [exact Hi | exact Ht | reflexivity | reflexivity | apply Hi
    | simpl; eapply locks_ok_same; [apply Hi | exact Ht |];
      intros ?; unfold holds; simpl; rewrite Hpc; reflexivity
    | thread_ok_from Hok Hpc
    | unfold data_ok; simpl; done
    | apply pend_same; simpl; congruence ].

Section Steps.
Context `{SlotLocksLaws L}.
Variable rand_seq : nat → Z.
Hypothesis rand_nonneg : ∀ p, 0 <= rand_seq p.
Implicit Types w : world L.

Lemma draw_range n w r : inv n w → draw rand_seq w = Some r → 0 <= r < Z.of_nat n.
Proof.
  intros Hi Hd. unfold draw in Hd. rewrite (inv_size _ _ Hi) in Hd.
  eapply c_rem_range in Hd; [done|apply rand_nonneg|]. pose proof (inv_n _ _ Hi). lia.
Qed.

Lemma inv_step_LoopTest n w w' t th :
  inv n w → threads w !! t = Some th → tpc th = LoopTest →
  swap_step rand_seq w t = Stepped w' → inv n w'.
Proof.
  intros Hi Ht Hpc Hs. pose proof (thread_in_inv _ _ _ _ Hi Ht) as Hok.
  open_step Hs Ht Hpc.
  - same_owners Hi Ht Hpc Hok.
  - match goal with E : c_dec _ = Some _ |- _ => apply c_dec_Some_inv in E as [-> _] end.
    same_owners Hi Ht Hpc Hok.
Qed.

Lemma inv_step_draw n w w' t th :
  inv n w → threads w !! t = Some th → tpc th = DrawI ∨ tpc th = DrawJ →
  swap_step rand_seq w t = Stepped w' → inv n w'.
Proof.
  intros Hi Ht [Hpc|Hpc] Hs; pose proof (thread_in_inv _ _ _ _ Hi Ht) as Hok;
    open_step Hs Ht Hpc;
    match goal with E : draw _ _ = Some _ |- _ => apply (draw_range n) in E; [|done] end;
    same_owners Hi Ht Hpc Hok.
Qed.

Lemma inv_step_PrintSwap n w w' t th :
  inv n w → threads w !! t = Some th → tpc th = PrintSwap →
  swap_step rand_seq w t = Stepped w' → inv n w'.
Proof.
  intros Hi Ht Hpc Hs. pose proof (thread_in_inv _ _ _ _ Hi Ht) as Hok.
  open_step Hs Ht Hpc; same_owners Hi Ht Hpc Hok.
Qed.

Lemma inv_step_ReadTmp n w w' t th :
  inv n w → threads w !! t = Some th → tpc th = ReadTmp →
  swap_step rand_seq w t = Stepped w' → inv n w'.
Proof.
  intros Hi Ht Hpc Hs. get_ok Hi Ht Hpc. open_step Hs Ht Hpc.
  eapply inv_update;
    [exact Hi | exact Ht | reflexivity | reflexivity | apply Hi
    | simpl; eapply locks_ok_same; [apply Hi | exact Ht | holds_eq Hpc]
    | thread_ok_from Hok Hpc | unfold data_ok; simpl; done
    | apply pend_same; simpl; congruence ].
Qed.

(** A step that takes the mutex of slot [k]. *)
Lemma inv_acquire n w l t th th' k :
  inv n w → threads w !! t = Some th → 0 <= k →
  sl_owners (locks w) !!z k = Some None →
  sl_owners l = <[Z.to_nat k := Some t]> (sl_owners (locks w)) →
  (∀ m, holds th' m = holds th m || bool_decide (m = Z.to_nat k)) →
  thread_ok n th' → data_ok (data (buf w)) th' →
  tpc th ≠ WriteJ → tpc th' ≠ WriteJ →
  inv n (with_thread (with_locks w l) t th').
Proof.
  intros Hi Ht Hk Hfree Hown Hh Hok Hd Hp Hp'.
  eapply inv_update; [exact Hi|exact Ht|done|done| | | done|done|by apply pend_same].
  - simpl. rewrite Hown, length_insert. apply Hi.
  - simpl. rewrite Hown. eapply locks_ok_acquire; [apply Hi|exact Ht| |exact Hh].
    by rewrite <- lookupZ_nonneg.
Qed.

(** A step that gives back the mutex of slot [k]. *)
Lemma inv_release n w l t th th' k :
  inv n w → threads w !! t = Some th → 0 <= k →
  sl_owners (locks w) !!z k = Some (Some t) →
  sl_owners l = <[Z.to_nat k := None]> (sl_owners (locks w)) →
  (∀ m, holds th' m = holds th m && negb (bool_decide (m = Z.to_nat k))) →
  thread_ok n th' → data_ok (data (buf w)) th' →
  tpc th ≠ WriteJ → tpc th' ≠ WriteJ →
  inv n (with_thread (with_locks w l) t th').
Proof.
  intros Hi Ht Hk Hheld Hown Hh Hok Hd Hp Hp'.
  eapply inv_update; [exact Hi|exact Ht|done|done| | | done|done|by apply pend_same].
  - simpl. rewrite Hown, length_insert. apply Hi.
  - simpl. rewrite Hown. eapply locks_ok_release; [apply Hi|exact Ht| |exact Hh].
    by rewrite <- lookupZ_nonneg.
Qed.

Lemma inv_step_lock n w w' t th :
  inv n w → threads w !! t = Some th →
  tpc th ∈ [LockJ; TryI; BackoffJ; SpinI; UnlockI; UnlockJ] →
  swap_step rand_seq w t = Stepped w' → inv n w'.
Proof.
  intros Hi Ht Hpc Hs.
  repeat (apply elem_of_cons in Hpc as [Hpc|Hpc]); [..|by apply elem_of_nil in Hpc];
    get_ok Hi Ht Hpc; open_step Hs Ht Hpc;
    repeat match goal with
    | E : sl_lock _ _ _ = MOk _ |- _ => apply sl_lock_MOk in E as [? ?]
    | E : sl_trylock _ _ _ = MOk _ |- _ =>
        apply sl_trylock_MOk in E as [(? & ? & ?)|(? & ? & ?)]; [|unfold EBUSY in *]
    | E : sl_unlock _ _ _ = MOk _ |- _ => apply sl_unlock_MOk in E as [? ?]
    end; simplify_eq/=;
    first
      [ eapply inv_acquire; [done|done| |done|done|holds_eq Hpc|thread_ok_from Hok Hpc
                            |unfold data_ok; simpl; done|congruence|simpl; congruence]
      | eapply inv_release; [done|done| |done|done|holds_eq Hpc|thread_ok_from Hok Hpc
                            |unfold data_ok; simpl; done|congruence|simpl; congruence]
      | eapply inv_update;
          [exact Hi | exact Ht | reflexivity | reflexivity
          | simpl; match goal with E : sl_owners _ = sl_owners _ |- _ => rewrite E end;
            apply Hi
          | simpl; match goal with E : sl_owners _ = sl_owners _ |- _ => rewrite E end;
            eapply locks_ok_same; [apply Hi | exact Ht | holds_eq Hpc]
          | thread_ok_from Hok Hpc | unfold data_ok; simpl; done
          | apply pend_same; simpl; congruence ] ];
    lia.
Qed.

(** A write into a slot [t] holds leaves the view of the other threads as
    it was. *)
Lemma data_ok_write_other o ths d t th u thu p v n :
  locks_ok o ths → ths !! t = Some th → ths !! u = Some thu → u ≠ t →
  holds th p = true → thread_ok n thu → data_ok d thu →
  data_ok (<[p := v]> d) thu.
Proof.
  intros Hl Ht Hu Hne Hp Hok Hd.
  assert (∀ q, holds thu q = true → q ≠ p) as Hq.
  { intros q Hq ->. apply Hne. eapply locks_ok_excl; eauto. }
  unfold data_ok in *. unfold thread_ok in Hok. unfold holds in Hq.
  destruct (tpc thu); try done; destr_hyps;
    rewrite !lookupZ_nonneg in * by lia;
    rewrite !list_lookup_insert_ne by (apply not_eq_sym, Hq; rewrite orb_true_iff;
      rewrite !bool_decide_eq_true; auto); done.
Qed.

Lemma inv_write n w t th th' p v :
  inv n w → threads w !! t = Some th → holds th p = true →
  (∀ k, holds th' k = holds th k) →
  thread_ok n th' → data_ok (<[p := v]> (data (buf w))) th' →
  restore_data (<[t := th']> (threads w)) (<[p := v]> (data (buf w))) ≡ₚ iota n →
  inv n (with_thread (with_data w (<[p := v]> (data (buf w)))) t th').
Proof.
  intros Hi Ht Hp Hh Hok Hd Hperm. destruct Hi.
  split; simpl; rewrite ?length_insert; try done.
  - intros u thu. rewrite list_lookup_insert.
    case_decide as Hc; [destruct Hc as [-> _]; intros [= <-]; done|].
    intros Hu. assert (u ≠ t) by (intros ->; apply Hc; split; [done|];
      eapply lookup_lt_Some; eauto).
    destruct (inv_threads0 u thu Hu).
    split; [done|]. by eapply (data_ok_write_other _ _ _ t th u thu).
  - eapply locks_ok_same; eauto.
Qed.

Lemma inv_step_WriteI n w w' t th :
  inv n w → threads w !! t = Some th → tpc th = WriteI →
  swap_step rand_seq w t = Stepped w' → inv n w'.
Proof.
  intros Hi Ht Hpc Hs. pose proof (data_in_inv _ _ _ _ Hi Ht) as Hd.
  unfold data_ok in Hd. rewrite Hpc in Hd. get_ok Hi Ht Hpc. open_step Hs Ht Hpc.
  match goal with E : storeZ _ _ _ = Some _ |- _ => apply storeZ_Some_inv in E as [_ ->] end.
  pose proof (inv_len _ _ Hi).
  apply inv_write with th; [done|done| |holds_eq Hpc|thread_ok_from Hok Hpc| |].
  - apply holds_I. rewrite Hpc. set_solver.
  - unfold data_ok; simpl. rewrite !lookupZ_nonneg in * by lia.
    rewrite list_lookup_insert_eq by lia.
    destruct (decide (Z.to_nat (idx_i th) = Z.to_nat (idx_j th))) as [<-|Hne].
    + by rewrite list_lookup_insert_eq by lia.
    + by rewrite list_lookup_insert_ne.
  - erewrite (restore_WriteI (sl_owners (locks w))); first [apply Hi | done | lia].
Qed.

Lemma inv_step_WriteJ n w w' t th :
  inv n w → threads w !! t = Some th → tpc th = WriteJ →
  swap_step rand_seq w t = Stepped w' → inv n w'.
Proof.
  intros Hi Ht Hpc Hs. pose proof (data_in_inv _ _ _ _ Hi Ht) as Hd.
  unfold data_ok in Hd. rewrite Hpc in Hd. get_ok Hi Ht Hpc. open_step Hs Ht Hpc.
  match goal with E : storeZ _ _ _ = Some _ |- _ => apply storeZ_Some_inv in E as [_ ->] end.
  pose proof (inv_len _ _ Hi).
  apply inv_write with th; [done|done| |holds_eq Hpc|thread_ok_from Hok Hpc|done|].
  - apply holds_J. rewrite Hpc. set_solver.
  - rewrite (restore_WriteJ (sl_owners (locks w))); first [apply Hi | done | lia].
Qed.

(** Every step preserves the invariant. *)
Lemma inv_step n w w' t :
  inv n w → swap_step rand_seq w t = Stepped w' → inv n w'.
Proof.
  intros Hi Hs. destruct (threads w !! t) as [th|] eqn:Ht;
    [|by unfold swap_step in Hs; rewrite Ht in Hs].
  destruct (tpc th) eqn:Hpc.
  all: first [ by eapply inv_step_LoopTest | by eapply inv_step_draw; eauto
             | by eapply inv_step_PrintSwap | by eapply inv_step_ReadTmp
             | by eapply inv_step_WriteI | by eapply inv_step_WriteJ
             | eapply inv_step_lock; [done|done| |done]; rewrite Hpc; set_solver
             | by unfold swap_step in Hs; rewrite Ht, Hpc in Hs ].
Qed.

End Steps.
