(* ===== verification/WorkerTheorems.v ===== *)
(** * What the worker threads guarantee

    From the invariant of [WorkerInvariant], for every [SlotLocks]
    implementation that meets the contract and every sequence of [rand()]
    results:
    - [step_progress]: a thread that has not returned either moves, or waits
      in [pthread_mutex_lock(&mutexes[j])] (line 50) on a mutex owned by
      another thread; no step is undefined behaviour;
    - the reachable states of the parallel phase satisfy the invariant, so
      the restored buffer is a permutation of [0..N-1] (the swaps lose and
      duplicate nothing), two threads never work on a common slot between
      their locks and their unlocks, and a state where some thread has not
      returned always has a next step (no deadlock). *)

From S2P Require Import Prelude CInt SlotLockTable SharedBuffer SwapWorker WorkerInvariant.

Local Open Scope Z_scope.

(** The initial state of the parallel phase: the buffer [0..N-1], all
    mutexes free, [m] threads at the top of their loop. *)
Definition init_world `{SlotLocks L} (n m : nat) (dly its : Z) : world L :=
  {| buf := {| data := iota n; size := Z.of_nat n |};
     locks := sl_init n;
     threads := (λ k, spawn_thread k dly its) <$> seq 0 m;
     rand_pos := 0;
     log := [] |}.

Section Theorems.
Context `{SlotLocksLaws L}.
Variable rand_seq : nat → Z.
Hypothesis rand_nonneg : ∀ p, 0 <= rand_seq p.
Implicit Types w : world L.

Lemma owner_in_range n w k :
  inv n w → 0 <= k < Z.of_nat n → ∃ o, sl_owners (locks w) !!z k = Some o.
Proof. intros Hi Hk. apply lookupZ_lt. rewrite (inv_olen _ _ Hi). lia. Qed.

Lemma data_in_range n w k :
  inv n w → 0 <= k < Z.of_nat n → ∃ x, data (buf w) !!z k = Some x.
Proof. intros Hi Hk. apply lookupZ_lt. rewrite (inv_len _ _ Hi). lia. Qed.

Lemma owner_holder n w t th k :
  inv n w → threads w !! t = Some th → 0 <= k → holds th (Z.to_nat k) = true →
  sl_owners (locks w) !!z k = Some (Some t).
Proof. intros Hi Ht Hk Hh. rewrite lookupZ_nonneg by done. apply Hi. eauto. Qed.

(** Progress of one thread. *)
Lemma step_progress n w t th :
  inv n w → threads w !! t = Some th → tpc th ≠ Finished →
  (∃ w', swap_step rand_seq w t = Stepped w') ∨
  (tpc th = LockJ ∧ swap_step rand_seq w t = Blocked ∧
   ∃ u, u ≠ t ∧ sl_owners (locks w) !!z idx_j th = Some (Some u)).
Proof.
  intros Hi Ht Hfin. pose proof (inv_size _ _ Hi). pose proof (inv_n _ _ Hi).
  destruct (tpc th) eqn:Hpc; try done; get_ok Hi Ht Hpc;
    unfold swap_step; rewrite Ht, Hpc; simpl.
  all: try (destruct (data_in_range n w (idx_i th)) as [? ->]; [done|lia|]);
       try (destruct (data_in_range n w (idx_j th)) as [? ->]; [done|lia|]).
  - case_decide; [by left; eexists|]. rewrite c_dec_Some by lia. by left; eexists.
  - unfold draw. rewrite H0, c_rem_pos_Some by (apply rand_nonneg || lia). by left; eexists.
  - unfold draw. rewrite H0, c_rem_pos_Some by (apply rand_nonneg || lia). by left; eexists.
  - by left; eexists.
  - destruct (owner_in_range n w (idx_j th)) as [[u|] Ho]; [done|lia| |].
    + assert (u ≠ t).
      { intros ->. rewrite lookupZ_nonneg in Ho by lia. apply (inv_locks _ _ Hi) in Ho.
        destruct Ho as (th' & Ht' & Hh). rewrite Ht in Ht'. simplify_eq.
        unfold holds in Hh. by rewrite Hpc in Hh. }
      right. rewrite (sl_lock_held _ _ _ u) by done. eauto.
    + destruct (sl_lock_free _ _ t Ho) as [l' ->]. by left; eexists.
  - destruct (owner_in_range n w (idx_i th)) as [o Ho]; [done|lia|].
    destruct (sl_trylock_in_range _ _ t _ Ho) as (r & l' & ->). by left; eexists.
  - destruct (sl_unlock_owner (locks w) (idx_j th) t) as [l' ->]; [|by left; eexists].
    apply (owner_holder n w t th); [done|done|lia|]. unfold holds. rewrite Hpc.
    by apply bool_decide_eq_true.
  - destruct (owner_in_range n w (idx_i th)) as [o Ho]; [done|lia|].
    destruct (sl_trylock_in_range _ _ t _ Ho) as (r & l' & ->). by left; eexists.
  - by left; eexists.
  - rewrite storeZ_Some by (rewrite (inv_len _ _ Hi); lia). by left; eexists.
  - rewrite storeZ_Some by (rewrite (inv_len _ _ Hi); lia). by left; eexists.
  - destruct (sl_unlock_owner (locks w) (idx_i th) t) as [l' ->]; [|by left; eexists].
    apply (owner_holder n w t th); [done|done|lia|]. unfold holds. rewrite Hpc.
    apply orb_true_iff. left. by apply bool_decide_eq_true.
  - destruct (sl_unlock_owner (locks w) (idx_j th) t) as [l' ->]; [|by left; eexists].
    apply (owner_holder n w t th); [done|done|lia|]. unfold holds. rewrite Hpc.
    by apply bool_decide_eq_true.
Qed.

Lemma restore_data_no_pending ths d :
  (∀ u th, ths !! u = Some th → tpc th ≠ WriteJ) → restore_data ths d = d.
Proof.
  intros Hn. apply list_eq. intros k. rewrite restore_data_lookup.
  rewrite pending_at_None; [by destruct (d !! k)|].
  intros u th Hu. unfold is_pending. apply bool_decide_false. naive_solver.
Qed.

(** The parallel phase starts in a state of the invariant. *)
Lemma inv_init n m dly its :
  (0 < n)%nat → Z.of_nat n <= INT_MAX → 0 <= its <= INT_MAX →
  inv n (init_world (L := L) n m dly its).
Proof.
  intros Hn HN Hits.
  assert (∀ t th, ((λ k, spawn_thread k dly its) <$> seq 0 m) !! t = Some th →
            tpc th = LoopTest ∧ iterations th = its) as Hth.
  { intros t th. rewrite list_lookup_fmap. destruct (seq 0 m !! t); simpl; naive_solver. }
  split; simpl; try done.
  - apply length_iota.
  - rewrite sl_init_spec. unfold LockSpec.init. by rewrite length_replicate.
  - intros t th Ht. destruct (Hth t th Ht) as [Hpc Hit].
    unfold thread_ok, data_ok. rewrite Hpc, Hit. done.
  - intros k u. rewrite sl_init_spec. unfold LockSpec.init. rewrite lookup_replicate.
    split; [naive_solver|]. intros (th & Ht & Hh).
    unfold holds in Hh. by rewrite (proj1 (Hth u th Ht)) in Hh.
  - unfold restore. simpl. rewrite restore_data_no_pending; [done|].
    intros u th Ht. by rewrite (proj1 (Hth u th Ht)).
Qed.

Lemma inv_rtc n w w' : inv n w → rtc (step rand_seq) w w' → inv n w'.
Proof.
  intros Hi Hr. induction Hr as [|w1 w2 w3 Hs _ IH]; [done|].
  apply IH. destruct Hs. by eapply inv_step.
Qed.

Lemma inv_reachable n m dly its w :
  (0 < n)%nat → Z.of_nat n <= INT_MAX → 0 <= its <= INT_MAX →
  rtc (step rand_seq) (init_world n m dly its) w → inv n w.
Proof. intros ????. eapply inv_rtc; [by apply inv_init|done]. Qed.

(** The program counters of the critical section, lines 63-73: both
    mutexes taken, not yet released. *)
Definition in_cs (p : pc) : Prop := p ∈ [ReadTmp; WriteI; WriteJ; UnlockI].

(** C1. In every state reachable from the start of the parallel phase,
    the buffer, with the value in [tmp] put back at slot [i] for each
    thread between lines 66 and 69, is a permutation of [0..N-1]: no swap
    loses or duplicates a value, whatever the interleaving and whatever
    [rand()] returns. *)
Theorem swap_permutation n m dly its w :
  (0 < n)%nat → Z.of_nat n <= INT_MAX → 0 <= its <= INT_MAX →
  rtc (step rand_seq) (init_world n m dly its) w →
  restore w ≡ₚ iota n.
Proof. intros. eapply inv_perm, inv_reachable; eauto. Qed.

(** C3. Mutual exclusion: two different threads between their locks and
    their unlocks (lines 63-73) never have a slot in common, so no two
    threads read or write the same [data[k]] in their critical sections. *)
Theorem critical_sections_disjoint n m dly its w t u th thu :
  (0 < n)%nat → Z.of_nat n <= INT_MAX → 0 <= its <= INT_MAX →
  rtc (step rand_seq) (init_world n m dly its) w →
  threads w !! t = Some th → threads w !! u = Some thu → t ≠ u →
  in_cs (tpc th) → in_cs (tpc thu) →
  idx_i th ≠ idx_i thu ∧ idx_i th ≠ idx_j thu ∧
  idx_j th ≠ idx_i thu ∧ idx_j th ≠ idx_j thu.
Proof.
  intros Hn HN Hits Hr Ht Hu Htu Hcs Hcsu.
  pose proof (inv_reachable n m dly its w Hn HN Hits Hr) as Hi.
  assert (Hex : ∀ a b, holds th a = true → holds thu b = true → a ≠ b).
  { intros a b Ha Hb ->. apply Htu. eapply locks_ok_excl; [apply Hi|exact Ht|exact Hu|done|done]. }
  pose proof (holds_I th Hcs). pose proof (holds_J th Hcs).
  pose proof (holds_I thu Hcsu). pose proof (holds_J thu Hcsu).
  split; [|split; [|split]]; intros E.
  - apply (Hex (Z.to_nat (idx_i th)) (Z.to_nat (idx_i thu))); [done|done|by rewrite E].
  - apply (Hex (Z.to_nat (idx_i th)) (Z.to_nat (idx_j thu))); [done|done|by rewrite E].
  - apply (Hex (Z.to_nat (idx_j th)) (Z.to_nat (idx_i thu))); [done|done|by rewrite E].
  - apply (Hex (Z.to_nat (idx_j th)) (Z.to_nat (idx_j thu))); [done|done|by rewrite E].
Qed.

(** C4. No hold-and-wait: a thread that waits in [pthread_mutex_lock]
    (line 50) owns no mutex, and the mutex it waits for is owned by
    another thread. *)
Theorem blocked_holds_nothing n m dly its w t :
  (0 < n)%nat → Z.of_nat n <= INT_MAX → 0 <= its <= INT_MAX →
  rtc (step rand_seq) (init_world n m dly its) w →
  swap_step rand_seq w t = Blocked →
  (∀ k, sl_owners (locks w) !! k ≠ Some (Some t)) ∧
  ∃ th u, threads w !! t = Some th ∧ u ≠ t ∧
          sl_owners (locks w) !!z idx_j th = Some (Some u).
Proof.
  intros Hn HN Hits Hr Hb.
  pose proof (inv_reachable n m dly its w Hn HN Hits Hr) as Hi.
  destruct (threads w !! t) as [th|] eqn:Ht; [|by unfold swap_step in Hb; rewrite Ht in Hb].
  destruct (decide (tpc th = Finished)) as [Hf|Hf];
    [by unfold swap_step in Hb; rewrite Ht, Hf in Hb|].
  destruct (step_progress n w t th Hi Ht Hf) as [[w' Hs]|(Hpc & _ & u & Hne & Ho)];
    [congruence|].
  split; [|eauto]. intros k Hk. apply (inv_locks _ _ Hi) in Hk as (th' & Ht' & Hh).
  rewrite Ht in Ht'. simplify_eq. unfold holds in Hh. by rewrite Hpc in Hh.
Qed.

(** A thread that owns a mutex is never blocked. *)
Lemma holder_steps n w u thu k :
  inv n w → threads w !! u = Some thu → holds thu k = true →
  ∃ w', swap_step rand_seq w u = Stepped w'.
Proof.
  intros Hi Hu Hh.
  assert (tpc thu ≠ Finished) by (intros Hf; unfold holds in Hh; by rewrite Hf in Hh).
  destruct (step_progress n w u thu Hi Hu) as [?|(Hpc & _)]; [done|done|].
  unfold holds in Hh. by rewrite Hpc in Hh.
Qed.

(** In a state of the invariant where a thread has not returned, some
    thread can move. *)
Lemma inv_red n w t th :
  inv n w → threads w !! t = Some th → tpc th ≠ Finished → red (step rand_seq) w.
Proof.
  intros Hi Ht Hf.
  destruct (step_progress n w t th Hi Ht Hf) as [[w' Hs]|(Hpc & _ & u & _ & Ho)];
    [eexists; by econstructor|].
  get_ok Hi Ht Hpc. rewrite lookupZ_nonneg in Ho by lia.
  apply (inv_locks _ _ Hi) in Ho as (thu & Hu & Hh).
  destruct (holder_steps n w u thu _ Hi Hu Hh) as [w' Hs].
  eexists. by econstructor.
Qed.

(** C5. Deadlock freedom: in every reachable state where some thread has
    not returned from [swap], some thread can make a step. *)
Theorem no_deadlock n m dly its w :
  (0 < n)%nat → Z.of_nat n <= INT_MAX → 0 <= its <= INT_MAX →
  rtc (step rand_seq) (init_world n m dly its) w →
  (∃ t th, threads w !! t = Some th ∧ tpc th ≠ Finished) →
  ∃ w', step rand_seq w w'.
Proof.
  intros Hn HN Hits Hr (t & th & Ht & Hf).
  eapply inv_red; [eapply inv_reachable; eauto|done|done].
Qed.

(** No step from a state of the invariant has undefined behaviour. *)
Lemma step_not_crashed n w t u : inv n w → swap_step rand_seq w t ≠ Crashed u.
Proof.
  intros Hi Hc.
  destruct (threads w !! t) as [th|] eqn:Ht; [|by unfold swap_step in Hc; rewrite Ht in Hc].
  destruct (decide (tpc th = Finished)) as [Hf|Hf];
    [by unfold swap_step in Hc; rewrite Ht, Hf in Hc|].
  destruct (step_progress n w t th Hi Ht Hf) as [[w' Hs]|(_ & Hs & _)]; congruence.
Qed.

(** C2. No reachable step of a thread has one of the undefined
    behaviours a single step can have: every index is in range,
    [rand() % size] never divides by zero, [iterations--] never overflows,
    a thread never relocks its own mutex and only unlocks mutexes it owns.
    The data race of the unlocked reads of line 45 is not a step of one
    thread but a state of two ([data_race]); it is reachable
    ([Main.data_race_reachable]). *)
Theorem no_step_undefined_behaviour n m dly its w t u :
  (0 < n)%nat → Z.of_nat n <= INT_MAX → 0 <= its <= INT_MAX →
  rtc (step rand_seq) (init_world n m dly its) w →
  swap_step rand_seq w t ≠ Crashed u.
Proof.
  intros Hn HN Hits Hr. eapply step_not_crashed, inv_reachable; eauto.
Qed.

(** C23. The data stay well typed: in every reachable state the buffer
    has [size = N] elements and the mutex table [N] entries, the counter of
    a running thread is an [int] in [0..INT_MAX], and every index a thread
    has drawn (line 42 for [i], line 43 for [j]) is in [0..N-1]. *)
Theorem reachable_well_typed n m dly its w :
  (0 < n)%nat → Z.of_nat n <= INT_MAX → 0 <= its <= INT_MAX →
  rtc (step rand_seq) (init_world n m dly its) w →
  size (buf w) = Z.of_nat n ∧ length (data (buf w)) = n ∧ length (sl_owners (locks w)) = n ∧
  ∀ t th, threads w !! t = Some th → tpc th ≠ Finished →
    0 <= iterations th <= INT_MAX ∧
    (tpc th ∉ [LoopTest; DrawI] → 0 <= idx_i th < Z.of_nat n) ∧
    (tpc th ∉ [LoopTest; DrawI; DrawJ] → 0 <= idx_j th < Z.of_nat n).
Proof.
  intros Hn HN Hits Hr. pose proof (inv_reachable n m dly its w Hn HN Hits Hr) as Hi.
  split_and!; [apply Hi..|]. intros t th Ht Hf.
  pose proof (thread_in_inv _ _ _ _ Hi Ht) as Hok. unfold thread_ok in Hok.
  destruct (tpc th); try done; split_and!; try tauto; intros Hc; exfalso; apply Hc; set_solver.
Qed.

End Theorems.

(** ** Concrete runs

    The mutex array of [SlotLockTable], four slots, two threads of two
    iterations, and [rand()] returning the listed values in turn. *)

Definition demo_rand (l : list Z) (p : nat) : Z := Z.abs (nth p l 0).

Lemma demo_rand_nonneg l p : 0 <= demo_rand l p.
Proof. apply Z.abs_nonneg. Qed.

Definition demo_world : world MutexArray.table := init_world 4 2 10 2.

(** Both threads inside their critical sections, on slots [0,1] and [2,3]. *)
Definition sched_both_cs : list nat := [0; 0; 0; 1; 1; 1; 0; 0; 0; 1; 1; 1]%nat.

(** Thread 0 holds slots 0 and 1; thread 1 waits for slot 0. *)
Definition sched_blocked : list nat := [0; 0; 0; 0; 0; 0; 1; 1; 1; 1]%nat.

Lemma swap_permutation_witness :
  ∃ w, run (demo_rand [0; 1; 2; 3]) demo_world sched_both_cs = Some w ∧ restore w ≡ₚ iota 4.
Proof.
  eexists; split; [vm_compute; reflexivity|].
  apply (swap_permutation (demo_rand [0; 1; 2; 3]) (demo_rand_nonneg [0; 1; 2; 3]) 4 2 10 2); [lia|unfold INT_MAX; lia|unfold INT_MAX; lia|].
  apply (run_rtc _ _ _ sched_both_cs). vm_compute. reflexivity.
Defined.

(** The state [sched_both_cs] reaches. *)
Definition w_both_cs : world MutexArray.table :=
  default demo_world (run (demo_rand [0; 1; 2; 3]) demo_world sched_both_cs).

Lemma critical_sections_disjoint_witness :
  ∃ th thu, threads w_both_cs !! 0%nat = Some th ∧ threads w_both_cs !! 1%nat = Some thu ∧
    in_cs (tpc th) ∧ in_cs (tpc thu) ∧
    idx_i th ≠ idx_i thu ∧ idx_i th ≠ idx_j thu ∧
    idx_j th ≠ idx_i thu ∧ idx_j th ≠ idx_j thu.
Proof.
  eexists _, _. split; [vm_compute; reflexivity|]. split; [vm_compute; reflexivity|].
  split; [simpl; set_solver|]. split; [simpl; set_solver|].
  apply (critical_sections_disjoint (demo_rand [0; 1; 2; 3]) (demo_rand_nonneg [0; 1; 2; 3])
           4 2 10 2 w_both_cs 0 1);
    [lia|unfold INT_MAX; lia|unfold INT_MAX; lia| |vm_compute; reflexivity|vm_compute; reflexivity
    |lia|simpl; set_solver|simpl; set_solver].
  apply (run_rtc _ _ _ sched_both_cs). vm_compute. reflexivity.
Defined.

Lemma blocked_holds_nothing_witness :
  ∃ w, run (demo_rand [0; 1; 1; 0]) demo_world sched_blocked = Some w ∧
    swap_step (demo_rand [0; 1; 1; 0]) w 1 = Blocked ∧
    (∀ k, sl_owners (locks w) !! k ≠ Some (Some 1%nat)).
Proof.
  eexists; split; [vm_compute; reflexivity|]. split; [vm_compute; reflexivity|].
  apply (blocked_holds_nothing (demo_rand [0; 1; 1; 0]) (demo_rand_nonneg [0; 1; 1; 0]) 4 2 10 2); [lia|unfold INT_MAX; lia|unfold INT_MAX; lia| |].
  - apply (run_rtc _ _ _ sched_blocked). vm_compute. reflexivity.
  - vm_compute. reflexivity.
Defined.

Lemma no_deadlock_witness :
  ∃ w, run (demo_rand [0; 1; 1; 0]) demo_world sched_blocked = Some w ∧
    ∃ w', step (demo_rand [0; 1; 1; 0]) w w'.
Proof.
  eexists; split; [vm_compute; reflexivity|].
  apply (no_deadlock (demo_rand [0; 1; 1; 0]) (demo_rand_nonneg [0; 1; 1; 0]) 4 2 10 2); [lia|unfold INT_MAX; lia|unfold INT_MAX; lia| |].
  - apply (run_rtc _ _ _ sched_blocked). vm_compute. reflexivity.
  - exists 1%nat. eexists. split; [reflexivity|]. simpl. discriminate.
Defined.

Lemma no_step_undefined_behaviour_witness :
  ∃ w, run (demo_rand [0; 1; 1; 0]) demo_world sched_blocked = Some w ∧
    swap_step (demo_rand [0; 1; 1; 0]) w 0 ≠ Crashed UB_index.
Proof.
  eexists; split; [vm_compute; reflexivity|].
  apply (no_step_undefined_behaviour (demo_rand [0; 1; 1; 0]) (demo_rand_nonneg [0; 1; 1; 0]) 4 2 10 2); [lia|unfold INT_MAX; lia|unfold INT_MAX; lia|].
  apply (run_rtc _ _ _ sched_blocked). vm_compute. reflexivity.
Defined.

Lemma reachable_well_typed_witness :
  length (data (buf w_both_cs)) = 4%nat ∧
  ∃ th, threads w_both_cs !! 0%nat = Some th ∧ tpc th = ReadTmp ∧
        0 <= idx_i th < Z.of_nat 4 ∧ 0 <= idx_j th < Z.of_nat 4.
Proof.
  destruct (reachable_well_typed (demo_rand [0; 1; 2; 3]) (demo_rand_nonneg [0; 1; 2; 3]) 4 2 10 2
              w_both_cs ltac:(lia) ltac:(unfold INT_MAX; lia) ltac:(unfold INT_MAX; lia))
    as (_ & Hlen & _ & Hth); [apply (run_rtc _ _ _ sched_both_cs); vm_compute; reflexivity|].
  split; [done|].
  destruct (threads w_both_cs !! 0%nat) as [th|] eqn:Ht; [|vm_compute in Ht; discriminate].
  assert (Hpc : tpc th = ReadTmp) by (vm_compute in Ht; injection Ht as <-; reflexivity).
  destruct (Hth 0%nat th Ht) as (_ & Hi & Hj); [rewrite Hpc; discriminate|].
  exists th. do 2 (split; [done|]).
  split; [apply Hi|apply Hj]; rewrite Hpc; set_solver.
Defined.

(** Thread 0 is between lines 66 and 69 of its swap of slots 0 and 1;
    thread 1 then runs the [printf] of line 45 on the same two slots. *)
Definition sched_torn_print : list nat := [0; 0; 0; 0; 0; 0; 0; 0; 1; 1; 1; 1]%nat.

(** C7. The [printf] of lines 45-46 reads [data[i]] and [data[j]] before
    the thread takes their mutexes.  A reachable run prints the same value
    for two different slots, a state the buffer never has once the pending
    swap is accounted for: the read races with the swap of another
    thread. *)
Theorem print_reads_unlocked :
  ∃ w, rtc (step (demo_rand [0; 1; 0; 1])) demo_world w ∧
    NoDup (restore w) ∧
    ∃ e, e ∈ log w ∧ ev_i e ≠ ev_j e ∧ ev_di e = ev_dj e.
Proof.
  destruct (run (demo_rand [0; 1; 0; 1]) demo_world sched_torn_print) as [w|] eqn:E;
    [|vm_compute in E; discriminate].
  exists w. split; [by eapply run_rtc|].
  vm_compute in E. injection E as <-. split.
  - apply NoDup_ListNoDup. vm_compute. repeat constructor; simpl; lia.
  - eexists. split; [by right; left|]. simpl. lia.
Qed.
