(* ===== verification/WorkerLiveness.v ===== *)
(** * Termination is always possible

    The backoff protocol of [swap] prevents deadlock but promises no
    fairness: a thread can fail its [trylock] forever.  What holds is that
    from every reachable state some schedule leads to the state where every
    thread has returned.  The schedule is built in two phases:
    - every thread that owns a mutex runs alone until it owns none (it never
      waits: [trylock] and [unlock] do not block), which does not change the
      work left ([quiesce]);
    - with no mutex owned, one thread that has not returned runs alone
      through the end of its current iteration and one loop test, which
      lowers the work left ([solo_iteration]).
    The work left is the sum, over the threads that have not returned, of
    [iterations + 1]. *)

From S2P Require Import Prelude CInt SlotLockTable SharedBuffer SwapWorker WorkerInvariant WorkerTheorems.

Local Open Scope Z_scope.

(** The threads that own a mutex, by program counter. *)
Definition holder (p : pc) : bool :=
  match p with
  | TryI | BackoffJ | ReadTmp | WriteI | WriteJ | UnlockI | UnlockJ => true
  | _ => false
  end.

(** Work left to a thread: the loop tests it will still pass. *)
Definition thread_work (th : thread) : nat :=
  match tpc th with
  | Finished => 0
  | _ => S (Z.to_nat (iterations th))
  end.

Definition work `{SlotLocks L} (w : world L) : nat := sum_list_with thread_work (threads w).

Definition nholders `{SlotLocks L} (w : world L) : nat :=
  sum_list_with (λ th, if holder (tpc th) then 1%nat else 0%nat) (threads w).

(** Distance of a lock-owning thread to the release of its last mutex. *)
Definition release_rank (p : pc) : nat :=
  match p with
  | TryI => 6 | ReadTmp => 5 | WriteI => 4 | WriteJ => 3 | UnlockI => 2
  | UnlockJ | BackoffJ => 1 | _ => 0
  end%nat.

(** Distance of a thread running alone to its next loop test. *)
Definition solo_rank (p : pc) : nat :=
  match p with
  | DrawI => 11 | DrawJ => 10 | PrintSwap => 9 | LockJ | SpinI => 8 | TryI => 7
  | ReadTmp => 6 | WriteI => 5 | WriteJ => 4 | UnlockI => 3 | UnlockJ => 2
  | BackoffJ => 1 | _ => 0
  end%nat.

Lemma sum_list_insert {A} (f : A → nat) (l : list A) (t : nat) (x y : A) :
  l !! t = Some x → (sum_list_with f (<[t := y]> l) + f x = sum_list_with f l + f y)%nat.
Proof.
  revert t. induction l as [|z l IH]; intros [|t] Ht; try done.
  - simpl in *. simplify_eq. lia.
  - simpl in *. specialize (IH t Ht). lia.
Qed.

Lemma holds_holder th k : holds th k = true → holder (tpc th) = true.
Proof. unfold holds. by destruct (tpc th). Qed.

(** The control flow of [swap]: the program counters that can follow
    each one. *)
Definition next_pcs (p : pc) : list pc :=
  match p with
  | LoopTest => [Finished; DrawI]
  | DrawI => [DrawJ]
  | DrawJ => [PrintSwap]
  | PrintSwap => [LockJ; SpinI]
  | LockJ => [TryI]
  | TryI => [ReadTmp; BackoffJ]
  | BackoffJ => [LockJ]
  | SpinI => [ReadTmp; SpinI]
  | ReadTmp => [WriteI]
  | WriteI => [WriteJ]
  | WriteJ => [UnlockI]
  | UnlockI => [UnlockJ; LoopTest]
  | UnlockJ => [LoopTest]
  | Finished => []
  end.

(** Between two loop tests the work left to a thread does not change. *)
Lemma thread_work_same th th' :
  tpc th ≠ LoopTest → tpc th' ∈ next_pcs (tpc th) → iterations th' = iterations th →
  thread_work th' = thread_work th.
Proof.
  intros HL Hnext Hit. unfold thread_work. rewrite Hit. apply list_elem_of_In in Hnext.
  destruct (tpc th), (tpc th'); simpl in Hnext |- *; intuition (try discriminate; lia).
Qed.

(** The loop test of a thread that has iterations left lowers its work. *)
Lemma thread_work_loop th th' :
  tpc th = LoopTest → 0 <= iterations th →
  tpc th' = Finished ∨ (iterations th ≠ 0 ∧ iterations th' = iterations th - 1) →
  (thread_work th' < thread_work th)%nat.
Proof.
  unfold thread_work. intros -> Hit [->|[Hne ->]]; [lia|].
  destruct (tpc th'); lia.
Qed.

Section Shape.
Context `{SlotLocksLaws L}.
Variable rand_seq : nat → Z.

(** A step of thread [t] changes thread [t] only; its program counter
    follows the control flow; [iterations] changes only at the loop test,
    where it is decremented or the thread returns; the failure branches of
    a [trylock] are taken only when the mutex of slot [i] is owned. *)
Lemma swap_step_shape (w w' : world L) (t : nat) (th : thread) :
  threads w !! t = Some th → swap_step rand_seq w t = Stepped w' →
  ∃ th', threads w' = <[t := th']> (threads w) ∧
    tpc th' ∈ next_pcs (tpc th) ∧
    (tpc th ≠ LoopTest → iterations th' = iterations th) ∧
    (tpc th = LoopTest → tpc th' = Finished ∨
       (iterations th ≠ 0 ∧ iterations th' = iterations th - 1)) ∧
    (tpc th' = BackoffJ ∨ (tpc th = SpinI ∧ tpc th' = SpinI) →
       ∃ u, sl_owners (locks w) !!z idx_i th = Some (Some u)).
Proof.
  intros Ht Hs. unfold swap_step in Hs. rewrite Ht in Hs.
  destruct (tpc th) eqn:Hpc; simpl in Hs; try discriminate;
    repeat (case_match; simplify_eq/=; try done);
    repeat match goal with
    | E : sl_trylock _ _ _ = MOk _ |- _ => apply sl_trylock_MOk in E as [(? & ? & ?)|(? & ? & ?)]
    | E : c_dec _ = Some _ |- _ => apply c_dec_Some_inv in E as [-> _]
    end;
    eexists; (split; [reflexivity|]); simpl; rewrite ?Hpc;
    (split; [set_solver|]); repeat split; try done; try congruence;
    intros; destr_hyps; try naive_solver; try congruence; unfold EBUSY in *; try lia.
Qed.

End Shape.

Section Liveness.
Context `{SlotLocksLaws L}.
Variable rand_seq : nat → Z.
Hypothesis rand_nonneg : ∀ p, 0 <= rand_seq p.
Implicit Types w : world L.

(** Every thread other than [t] is as it was. *)
Definition others_same (t : nat) w w' : Prop := ∀ u, u ≠ t → threads w' !! u = threads w !! u.

Lemma work_insert w w' t th th' :
  threads w' = <[t := th']> (threads w) → threads w !! t = Some th →
  (work w' + thread_work th = work w + thread_work th')%nat.
Proof. intros E Ht. unfold work. rewrite E. by apply sum_list_insert. Qed.

Lemma others_same_insert t w w' th' :
  threads w' = <[t := th']> (threads w) → others_same t w w'.
Proof. intros E u Hu. rewrite E. by apply list_lookup_insert_ne. Qed.

Lemma others_same_trans t w1 w2 w3 :
  others_same t w1 w2 → others_same t w2 w3 → others_same t w1 w3.
Proof. intros H1 H2 u Hu. by rewrite H2, H1. Qed.

(** One step of a thread that is neither finished nor waiting. *)
Lemma step_exists n w t th :
  inv n w → threads w !! t = Some th → tpc th ≠ Finished → tpc th ≠ LockJ →
  ∃ w', swap_step rand_seq w t = Stepped w'.
Proof.
  intros Hi Ht Hf Hl.
  by destruct (step_progress rand_seq rand_nonneg n w t th Hi Ht Hf) as [?|(? & _)].
Qed.

Lemma lookup_after_insert (ths : list thread) t th th' :
  ths !! t = Some th → <[t := th']> ths !! t = Some th'.
Proof. intros. apply list_lookup_insert_eq. by eapply lookup_lt_Some. Qed.

(** A thread that owns a mutex runs alone until it owns none. *)
Lemma release_one n w t th :
  inv n w → threads w !! t = Some th → holder (tpc th) = true →
  ∃ w', rtc (step rand_seq) w w' ∧ work w' = work w ∧
        (nholders w' < nholders w)%nat ∧ others_same t w w'.
Proof.
  remember (release_rank (tpc th)) as r eqn:Er. revert w th Er.
  induction r as [r IH] using lt_wf_ind. intros w th Er Hi Ht Hh.
  destruct (step_exists n w t th) as [w' Hs]; [done|done|by destruct (tpc th)|by destruct (tpc th)|].
  destruct (swap_step_shape rand_seq w w' t th Ht Hs) as (th' & Ew & Hnext & Hit & _ & _).
  assert (Hi' : inv n w') by (by eapply inv_step).
  assert (Hw : work w' = work w).
  { pose proof (work_insert w w' t th th' Ew Ht).
    assert (thread_work th' = thread_work th); [|lia].
    apply thread_work_same; [by destruct (tpc th)|done|apply Hit; by destruct (tpc th)]. }
  pose proof (sum_list_insert (λ th, if holder (tpc th) then 1%nat else 0%nat) _ t th th' Ht) as Eh.
  unfold nholders. cbv beta in Eh. rewrite Hh in Eh.
  destruct (holder (tpc th')) eqn:Hh'.
  - assert (Hlt : (release_rank (tpc th') < r)%nat).
    { subst r. apply list_elem_of_In in Hnext.
      destruct (tpc th); try discriminate; destruct (tpc th'); try discriminate;
        simpl in Hnext |- *; intuition (try discriminate; lia). }
    destruct (IH (release_rank (tpc th')) Hlt w' th' eq_refl Hi') as (w'' & Hr & Hw' & Hn & Ho);
      [rewrite Ew; by eapply lookup_after_insert|done|].
    exists w''. split; [eapply rtc_l; [by econstructor|done]|].
    split; [lia|]. split; [unfold nholders in *; rewrite Ew in *; lia|].
    eapply others_same_trans; [by eapply others_same_insert|done].
  - exists w'. split; [apply rtc_once; by econstructor|]. split; [done|].
    split; [rewrite Ew; lia|]. by eapply others_same_insert.
Qed.

(** No thread owns a mutex. *)
Definition quiet w : Prop := Forall (λ th, holder (tpc th) = false) (threads w).

Lemma quiet_lookup w u thu : quiet w → threads w !! u = Some thu → holder (tpc thu) = false.
Proof. intros Hq Hu. unfold quiet in Hq. rewrite Forall_lookup in Hq. by apply (Hq u). Qed.

(** From any state of the invariant, a state where no thread owns a mutex,
    with the same work left. *)
Lemma quiesce n w :
  inv n w → ∃ w', rtc (step rand_seq) w w' ∧ inv n w' ∧ work w' = work w ∧ quiet w'.
Proof.
  remember (nholders w) as k eqn:Ek. revert w Ek.
  induction k as [k IH] using lt_wf_ind. intros w Ek Hi.
  destruct (decide (quiet w)) as [Hq|Hq]; [by exists w|].
  apply not_Forall_Exists in Hq; [|apply _].
  apply Exists_exists in Hq as (th & Hin & Hh). apply list_elem_of_lookup in Hin as [t Ht].
  apply not_false_is_true in Hh.
  destruct (release_one n w t th Hi Ht Hh) as (w' & Hr & Hw & Hn & _).
  destruct (IH (nholders w') ltac:(lia) w' eq_refl) as (w'' & Hr' & Hi'' & Hw' & Hq'');
    [by eapply inv_rtc|].
  exists w''. split; [by etrans|]. split; [done|]. split; [lia|done].
Qed.

(** The owner of a mutex is a thread between its lock and its unlock. *)
Lemma owner_is_holder n w k u :
  inv n w → 0 <= k → sl_owners (locks w) !!z k = Some (Some u) →
  ∃ thu, threads w !! u = Some thu ∧ holds thu (Z.to_nat k) = true.
Proof. intros Hi Hk Ho. rewrite lookupZ_nonneg in Ho by done. by apply (inv_locks _ _ Hi). Qed.

(** Every thread other than [t] owns no mutex. *)
Definition others_quiet (t : nat) w : Prop :=
  ∀ u thu, u ≠ t → threads w !! u = Some thu → holder (tpc thu) = false.

Lemma others_quiet_owner n w t k u :
  inv n w → others_quiet t w → 0 <= k → sl_owners (locks w) !!z k = Some (Some u) → u = t.
Proof.
  intros Hi Hq Hk Ho. destruct (owner_is_holder n w k u Hi Hk Ho) as (thu & Hu & Hh).
  destruct (decide (u = t)) as [|Hne]; [done|].
  apply holds_holder in Hh. by rewrite (Hq u thu Hne Hu) in Hh.
Qed.

Lemma others_quiet_step t w w' :
  others_quiet t w → others_same t w w' → others_quiet t w'.
Proof. intros Hq Hs u thu Hu. rewrite Hs by done. by apply Hq. Qed.

(** A thread at [TryI] or [SpinI] does not own the mutex of its slot [i]
    (at [TryI] it owns that of [j], and [i <> j]): when no other thread
    owns a mutex, its [trylock] succeeds. *)
Lemma trylock_free n w t th u :
  inv n w → threads w !! t = Some th → (tpc th = TryI ∨ tpc th = SpinI) →
  others_quiet t w → sl_owners (locks w) !!z idx_i th ≠ Some (Some u).
Proof.
  intros Hi Ht Hpc Hq Ho. pose proof (thread_in_inv _ _ _ _ Hi Ht) as Hok.
  unfold thread_ok in Hok.
  assert (0 <= idx_i th) by (destruct Hpc as [E|E]; rewrite E in Hok; lia).
  pose proof (others_quiet_owner n w t _ u Hi Hq ltac:(done) Ho) as ->.
  destruct (owner_is_holder n w _ t Hi ltac:(done) Ho) as (thu & Hu & Hh).
  rewrite Ht in Hu. simplify_eq. unfold holds in Hh.
  destruct Hpc as [E|E]; rewrite E in Hh, Hok; [|done].
  apply bool_decide_eq_true in Hh. lia.
Qed.

(** The rank of a thread running alone decreases at every step before its
    loop test. *)
Lemma solo_rank_step th th' :
  tpc th ≠ LoopTest → tpc th ≠ BackoffJ → tpc th' ∈ next_pcs (tpc th) →
  ¬ (tpc th' = BackoffJ ∨ (tpc th = SpinI ∧ tpc th' = SpinI)) →
  (solo_rank (tpc th') < solo_rank (tpc th))%nat ∧ tpc th' ≠ Finished ∧ tpc th' ≠ BackoffJ.
Proof.
  intros HL HB Hnext Hnf. apply list_elem_of_In in Hnext.
  destruct (tpc th); try congruence; destruct (tpc th');
    simpl in Hnext |- *; intuition (try discriminate; lia).
Qed.

(** With no other thread owning a mutex, a thread that has not returned
    runs alone through its next loop test, which lowers the work left. *)
Lemma solo_iteration n w t th :
  inv n w → threads w !! t = Some th → tpc th ≠ Finished → tpc th ≠ BackoffJ →
  others_quiet t w → ∃ w', rtc (step rand_seq) w w' ∧ (work w' < work w)%nat.
Proof.
  remember (solo_rank (tpc th)) as r eqn:Er. revert w th Er.
  induction r as [r IH] using lt_wf_ind. intros w th Er Hi Ht Hf Hb Hq.
  pose proof (thread_in_inv _ _ _ _ Hi Ht) as Hok. unfold thread_ok in Hok.
  destruct (step_progress rand_seq rand_nonneg n w t th Hi Ht Hf)
    as [[w' Hs]|(Hl & _ & u & Hu & Ho)];
    [|exfalso; apply Hu; rewrite Hl in Hok; by apply (others_quiet_owner n w t (idx_j th) u Hi Hq); [lia|]].
  destruct (swap_step_shape rand_seq w w' t th Ht Hs) as (th' & Ew & Hnext & Hit & Hloop & Hfail).
  pose proof (work_insert w w' t th th' Ew Ht) as Ework.
  assert (Hstep : rtc (step rand_seq) w w') by (apply rtc_once; by econstructor).
  destruct (decide (tpc th = LoopTest)) as [HL|HL].
  { exists w'. split; [done|]. rewrite HL in Hok.
    pose proof (thread_work_loop th th' HL ltac:(lia) (Hloop HL)). lia. }
  assert (Hnf : ¬ (tpc th' = BackoffJ ∨ (tpc th = SpinI ∧ tpc th' = SpinI))).
  { intros Hc. destruct (Hfail Hc) as [u Ho]. revert Ho. apply (trylock_free n w t th u Hi Ht); [|done].
    destruct Hc as [Hc|[Hc _]]; [|by right]. left. apply list_elem_of_In in Hnext.
    rewrite Hc in Hnext. destruct (tpc th); simpl in Hnext; intuition congruence. }
  destruct (solo_rank_step th th' HL Hb Hnext Hnf) as (Hlt & Hf' & Hb').
  rewrite <- Er in Hlt.
  destruct (IH _ Hlt w' th' eq_refl) as (w'' & Hr & Hw);
    [by eapply inv_step|rewrite Ew; by eapply lookup_after_insert|done|done
    |eapply others_quiet_step; [done|by eapply others_same_insert]|].
  exists w''. split; [by etrans|].
  rewrite (thread_work_same th th' HL Hnext (Hit HL)) in Ework. lia.
Qed.

(** From every state of the invariant, a schedule leads to the state where
    every thread has returned. *)
Lemma finish_from_inv n w :
  inv n w → ∃ w', rtc (step rand_seq) w w' ∧ Forall (λ th, tpc th = Finished) (threads w').
Proof.
  remember (work w) as k eqn:Ek. revert w Ek.
  induction k as [k IH] using lt_wf_ind. intros w Ek Hi.
  destruct (quiesce n w Hi) as (w1 & Hr1 & Hi1 & Hw1 & Hq1).
  destruct (decide (Forall (λ th, tpc th = Finished) (threads w1))) as [Hall|Hall];
    [by exists w1|].
  apply not_Forall_Exists in Hall; [|apply _].
  apply Exists_exists in Hall as (th & Hin & Hf). apply list_elem_of_lookup in Hin as [t Ht].
  pose proof (quiet_lookup w1 t th Hq1 Ht) as Hh.
  destruct (solo_iteration n w1 t th Hi1 Ht Hf) as (w2 & Hr2 & Hw2);
    [by intros Hb; rewrite Hb in Hh|intros u thu _; by apply quiet_lookup|].
  destruct (IH (work w2) ltac:(lia) w2 eq_refl) as (w3 & Hr3 & Hall);
    [by eapply inv_rtc|].
  exists w3. split; [by etrans; [|etrans]|done].
Qed.

(** ** One worker: every execution terminates *)

(** The steps a thread running alone has still to make, bounded: twelve per
    iteration left, plus the rank of its program counter. *)
Definition solo_measure (th : thread) : nat :=
  match tpc th with
  | Finished => 0
  | p => S (12 * Z.to_nat (iterations th) + solo_rank p)
  end.

(** A state with one thread, which never needs to back off. *)
Definition solo_state n w : Prop :=
  inv n w ∧ length (threads w) = 1%nat ∧ Forall (λ th, tpc th ≠ BackoffJ) (threads w).

Lemma solo_others_quiet w t th :
  length (threads w) = 1%nat → threads w !! t = Some th → others_quiet t w.
Proof.
  intros Hlen Ht u thu Hu Hthu. apply lookup_lt_Some in Hthu. apply lookup_lt_Some in Ht. lia.
Qed.

(** Each step of the only thread lowers its measure. *)
Lemma solo_step n w w' :
  solo_state n w → step rand_seq w w' →
  solo_state n w' ∧ (sum_list_with solo_measure (threads w') < sum_list_with solo_measure (threads w))%nat.
Proof.
  intros (Hi & Hlen & Hb) Hst. inversion Hst as [t w0 w1 Hs]; subst w0 w1.
  destruct (threads w !! t) as [th|] eqn:Ht; [|by unfold swap_step in Hs; rewrite Ht in Hs].
  destruct (swap_step_shape rand_seq w w' t th Ht Hs) as (th' & Ew & Hnext & Hit & Hloop & Hfail).
  pose proof (sum_list_insert solo_measure _ t th th' Ht) as Em. rewrite <- Ew in Em.
  pose proof (Forall_lookup_1 _ _ _ _ Hb Ht) as Hbt. simpl in Hbt.
  assert (Hnf : ¬ (tpc th' = BackoffJ ∨ (tpc th = SpinI ∧ tpc th' = SpinI))).
  { intros Hc. destruct (Hfail Hc) as [u Ho]. revert Ho.
    apply (trylock_free n w t th u Hi Ht); [|by eapply solo_others_quiet].
    destruct Hc as [Hc|[Hc _]]; [|by right]. left. apply list_elem_of_In in Hnext.
    rewrite Hc in Hnext. destruct (tpc th); simpl in Hnext; intuition congruence. }
  split; [split_and!|].
  - by eapply inv_step.
  - by rewrite Ew, length_insert.
  - rewrite Ew. apply Forall_insert; [done|]. intros Hc. apply Hnf. by left.
  - pose proof (thread_in_inv _ _ _ _ Hi Ht) as Hok. unfold thread_ok in Hok.
    assert (solo_measure th' < solo_measure th)%nat; [|lia].
    destruct (decide (tpc th = LoopTest)) as [HL|HL].
    + rewrite HL in Hok. unfold solo_measure. rewrite HL.
      destruct (Hloop HL) as [->|[Hne ->]]; [lia|].
      apply list_elem_of_In in Hnext. rewrite HL in Hnext. simpl in Hnext.
      destruct Hnext as [E|[E|[]]]; rewrite <- E; simpl; lia.
    + destruct (solo_rank_step th th' HL Hbt Hnext Hnf) as (Hlt & Hf' & _).
      unfold solo_measure. rewrite (Hit HL).
      destruct (tpc th'), (tpc th); simpl in *; lia.
Qed.

Lemma solo_state_sn n w : solo_state n w → sn (step rand_seq) w.
Proof.
  remember (sum_list_with solo_measure (threads w)) as k eqn:Ek. revert w Ek.
  induction k as [k IH] using lt_wf_ind. intros w -> Hso. constructor. intros w' Hst.
  destruct (solo_step n w w' Hso Hst) as [Hso' Hlt]. by eapply IH.
Qed.

(** C22. With a single worker ([num_threads = 1]) the program always
    terminates: from every reachable state, every execution is finite, and
    every step decreases [solo_measure] summed over the threads, so a run
    from the start has at most [12 * iterations + 1] steps.  Alone, the
    thread never fails a [trylock] (no other thread owns a mutex), so each
    step brings it closer to its return.  With two workers this fails
    ([livelock_possible]). *)
Theorem single_worker_terminates n dly its w :
  (0 < n)%nat → Z.of_nat n <= INT_MAX → 0 <= its <= INT_MAX →
  rtc (step rand_seq) (init_world n 1 dly its) w →
  sn (step rand_seq) w ∧
  ∀ w', step rand_seq w w' →
    (sum_list_with solo_measure (threads w') < sum_list_with solo_measure (threads w))%nat.
Proof.
  intros Hn HN Hits Hr.
  assert (Hso : solo_state n w).
  { remember (init_world n 1 dly its) as w0 eqn:E.
    assert (Hso0 : solo_state n w0).
    { subst w0. split_and!; [by apply inv_init|done|by repeat constructor]. }
    clear E. induction Hr as [|w1 w2 w3 Hst _ IH]; [done|].
    apply IH. by destruct (solo_step n w1 w2 Hso0 Hst). }
  split; [by apply (solo_state_sn n)|]. intros w' Hst. apply (solo_step n w w' Hso Hst).
Qed.

End Liveness.

Lemma run_app `{SlotLocks L} (rand_seq : nat → Z) (w : world L) s1 s2 :
  run rand_seq w (s1 ++ s2) = run rand_seq w s1 ≫= λ w', run rand_seq w' s2.
Proof.
  revert w. induction s1 as [|t s1 IH]; intros w; simpl; [done|].
  destruct (swap_step rand_seq w t); auto.
Qed.

(** A schedule that comes back to its start can be repeated forever. *)
Lemma run_cycle `{SlotLocks L} (rand_seq : nat → Z) (w : world L) s k :
  run rand_seq w s = Some w → run rand_seq w (concat (replicate k s)) = Some w.
Proof.
  intros Hc. induction k as [|k IH]; [done|]. simpl. by rewrite run_app, Hc.
Qed.

(** ** A schedule that never ends

    Thread 0 swaps slots [i = 0], [j = 1] and thread 1 slots [i = 1],
    [j = 0]: each takes its [j], fails its [trylock] on the slot the other
    holds, and backs off; the six steps come back to the state they left. *)

Definition livelock_rand : nat → Z := demo_rand [0; 1; 1; 0].

Definition sched_to_race : list nat := [0; 0; 0; 0; 1; 1; 1; 1]%nat.

Definition sched_livelock : list nat := [0; 1; 0; 1; 0; 1]%nat.

Definition w_race : world MutexArray.table :=
  default demo_world (run livelock_rand demo_world sched_to_race).

(** C16. Termination needs a fair scheduler: from a state both threads
    reach, the loop of lines 49-54 can run forever.  Each thread takes the
    mutex of its [j], fails its [trylock] on the mutex of its [i], which
    the other thread holds, and releases [j]; the six steps lead back to the
    state they started from, so repeating them any number of times never
    lets a thread return. *)
Theorem livelock_possible :
  ∃ w s, rtc (step livelock_rand) demo_world w ∧ s ≠ [] ∧
    (∀ t th, threads w !! t = Some th → tpc th ≠ Finished) ∧
    ∀ k, run livelock_rand w (concat (replicate k s)) = Some w.
Proof.
  exists w_race, sched_livelock. split_and!.
  - apply (run_rtc _ _ _ sched_to_race). vm_compute. reflexivity.
  - done.
  - intros t th Ht. apply list_elem_of_lookup_2 in Ht. revert Ht.
    vm_compute. intros Ht. apply list_elem_of_In in Ht. simpl in Ht.
    intuition (subst; discriminate).
  - intros k. apply run_cycle. vm_compute. reflexivity.
Qed.

(** One thread of two iterations on four slots, after five steps. *)
Definition w_solo : world MutexArray.table :=
  run_first (demo_rand [0; 1; 2; 3]) 5 (init_world 4 1 10 2).

Lemma single_worker_terminates_witness :
  sn (step (demo_rand [0; 1; 2; 3])) w_solo ∧
  ∀ w', step (demo_rand [0; 1; 2; 3]) w_solo w' →
    (sum_list_with solo_measure (threads w') < sum_list_with solo_measure (threads w_solo))%nat.
Proof.
  apply (single_worker_terminates (demo_rand [0; 1; 2; 3]) (demo_rand_nonneg _) 4 10 2);
    [lia|unfold INT_MAX; lia|unfold INT_MAX; lia|apply run_first_rtc].
Defined.
