(* ===== verification/WorkerAtomic.v ===== *)
(** * The critical section of [swap] is atomic (swape2.c, lines 63-71)

    Between its locks and its unlocks a thread reads [data[i]] into [tmp],
    writes [data[j]] into [data[i]] and [tmp] into [data[j]], in three
    steps that the other threads may interleave with.  Because every write
    of a thread is to a slot it holds the mutex of ([swap_step_data]), the
    steps of the other threads never touch [data[i]] or [data[j]] while the
    thread holds them ([other_step_keeps]), and the three steps have the
    effect of an atomic exchange of the two slots, whatever runs in
    between ([swap_atomic]).  When [i == j] the thread takes the one mutex
    by [trylock], unlocks it once (the test of line 75 skips the second
    unlock) and leaves the buffer and the mutex table as they were
    ([identity_swap]).  Seen from the mutex table, a thread
    changes a slot only while it owns the slot's mutex
    ([writes_under_lock]). *)

From S2P Require Import Prelude CInt SlotLockTable SharedBuffer SwapWorker WorkerInvariant WorkerTheorems WorkerLiveness.

Local Open Scope Z_scope.

(** Position of a thread in its critical section: the steps left before
    line 73. *)
Definition cs_rank (p : pc) : nat :=
  match p with ReadTmp => 3 | WriteI => 2 | WriteJ => 1 | _ => 0 end%nat.

(** What the thread has seen and done, with [a] and [b] the values of
    [data[i]] and [data[j]] when it entered line 63. *)
Definition cs_stage (i j : Z) (a b : option Z) (th : thread) (d : list Z) : Prop :=
  idx_i th = i ∧ idx_j th = j ∧
  match tpc th with
  | ReadTmp => d !!z i = a ∧ d !!z j = b
  | WriteI => Some (tmp th) = a ∧ d !!z j = b
  | WriteJ => Some (tmp th) = a ∧ d !!z i = b
  | UnlockI => d !!z i = b ∧ d !!z j = a
  | _ => False
  end.

(** [d'] is [d] with the slots [i] and [j] exchanged. *)
Definition exchanged (d d' : list Z) (i j : Z) : Prop := d' !!z i = d !!z j ∧ d' !!z j = d !!z i.

(** The mutex table records [mutexes[k]] as locked by thread [t]. *)
Definition owned_by `{SlotLocks L} (w : world L) (k t : nat) : Prop :=
  sl_owners (locks w) !! k = Some (Some t).

(** The five moves of a thread [t] with [i == j], from the [trylock] of
    line 57 through lines 63-71 to the unlock of line 73 and the test of
    line 75. *)
Definition cs_moves (t : nat) : list nat := [t; t; t; t; t].

Section Data.
Context `{SlotLocksLaws L}.
Variable rand_seq : nat → Z.
Implicit Types w : world L.

(** A step changes the buffer only by a write into a slot the stepping
    thread holds, and never changes its size. *)
Lemma swap_step_data w w' u thu :
  threads w !! u = Some thu → swap_step rand_seq w u = Stepped w' →
  size (buf w') = size (buf w) ∧
  (data (buf w') = data (buf w) ∨
   ∃ p v, holds thu p = true ∧ data (buf w') = <[p := v]> (data (buf w))).
Proof.
  intros Hu Hs. unfold swap_step in Hs. rewrite Hu in Hs.
  destruct (tpc thu) eqn:Hpc; simpl in Hs; try discriminate;
    repeat (case_match; simplify_eq/=; try (split; [done|by left]));
    match goal with E : storeZ _ _ _ = Some _ |- _ => apply storeZ_Some_inv in E as [_ ->] end;
    (split; [done|right]); eexists _, _; (split; [|done]);
    [apply holds_I|apply holds_J]; rewrite Hpc; set_solver.
Qed.

(** The steps of other threads keep the slots a thread holds, and the
    thread itself. *)
Lemma other_step_keeps n w w' t th u k :
  inv n w → threads w !! t = Some th → holds th k = true → u ≠ t →
  swap_step rand_seq w u = Stepped w' →
  data (buf w') !! k = data (buf w) !! k ∧ threads w' !! t = Some th.
Proof.
  intros Hi Ht Hk Hne Hs.
  destruct (threads w !! u) as [thu|] eqn:Hu; [|by unfold swap_step in Hs; rewrite Hu in Hs].
  destruct (swap_step_shape rand_seq w w' u thu Hu Hs) as (thu' & Ew & _).
  split; [|rewrite Ew, list_lookup_insert_ne by congruence; done].
  destruct (swap_step_data w w' u thu Hu Hs) as [_ [->|(p & v & Hp & ->)]]; [done|].
  rewrite list_lookup_insert_ne; [done|]. intros ->.
  apply Hne. symmetry. eapply locks_ok_excl; [apply Hi|exact Ht|exact Hu|done|done].
Qed.

End Data.

Section Atomic.
Context `{SlotLocksLaws L}.
Variable rand_seq : nat → Z.
Hypothesis rand_nonneg : ∀ p, 0 <= rand_seq p.
Implicit Types w : world L.

Variables (n t : nat) (i j : Z) (a b : option Z).
Hypothesis Hab : i = j → a = b.

Lemma cs_stage_holds th d k :
  cs_stage i j a b th d → (k = Z.to_nat i ∨ k = Z.to_nat j) → holds th k = true.
Proof.
  intros (<- & <- & Hst) Hk. unfold holds.
  destruct (tpc th); try done; apply orb_true_iff; rewrite !bool_decide_eq_true; done.
Qed.

(** The slots a thread holds in its critical section are in range. *)
Lemma cs_stage_range w th :
  inv n w → threads w !! t = Some th → cs_stage i j a b th (data (buf w)) →
  0 <= i < Z.of_nat n ∧ 0 <= j < Z.of_nat n.
Proof.
  intros Hi Ht (<- & <- & Hst). pose proof (thread_in_inv _ _ _ _ Hi Ht) as Hok.
  unfold thread_ok in Hok. destruct (tpc th); try done; lia.
Qed.

(** A step of another thread keeps the stage. *)
Lemma cs_stage_other w w' th u :
  inv n w → threads w !! t = Some th → cs_stage i j a b th (data (buf w)) → u ≠ t →
  swap_step rand_seq w u = Stepped w' →
  threads w' !! t = Some th ∧ cs_stage i j a b th (data (buf w')).
Proof.
  intros Hi Ht Hst Hne Hs.
  destruct (cs_stage_range w th Hi Ht Hst) as [Hri Hrj].
  destruct (other_step_keeps rand_seq n w w' t th u (Z.to_nat i) Hi Ht
              (cs_stage_holds th _ _ Hst (or_introl eq_refl)) Hne Hs) as [Ei Ht'].
  destruct (other_step_keeps rand_seq n w w' t th u (Z.to_nat j) Hi Ht
              (cs_stage_holds th _ _ Hst (or_intror eq_refl)) Hne Hs) as [Ej _].
  split; [done|]. destruct Hst as (Hi' & Hj' & Hst). split; [done|]. split; [done|].
  rewrite !lookupZ_nonneg by lia. rewrite !lookupZ_nonneg in Hst by lia.
  rewrite Ei, Ej. done.
Qed.

(** A step of the thread itself moves it one stage on. *)
Lemma cs_stage_self w w' th :
  inv n w → threads w !! t = Some th → cs_stage i j a b th (data (buf w)) →
  (0 < cs_rank (tpc th))%nat → swap_step rand_seq w t = Stepped w' →
  ∃ th', threads w' !! t = Some th' ∧ cs_stage i j a b th' (data (buf w')) ∧
         S (cs_rank (tpc th')) = cs_rank (tpc th).
Proof.
  intros Hi Ht Hst Hr Hs. destruct (cs_stage_range w th Hi Ht Hst) as [Hri Hrj].
  pose proof (inv_len _ _ Hi) as Hlen.
  destruct Hst as (<- & <- & Hst).
  unfold swap_step in Hs. rewrite Ht in Hs.
  destruct (tpc th) eqn:Hpc; simpl in Hr; try lia; destruct Hst as [Hs1 Hs2];
    repeat (case_match; simplify_eq/=; try done);
    repeat match goal with E : storeZ _ _ _ = Some _ |- _ => apply storeZ_Some_inv in E as [_ ->] end;
    (eexists; split; [rewrite list_lookup_insert_eq; [done|by eapply lookup_lt_Some]|]);
    simpl; (split; [repeat split|done]); try congruence.
  - (* WriteI: [data[i] = data[j]] *)
    rewrite lookupZ_nonneg, list_lookup_insert_eq by lia. done.
  - (* WriteJ: [data[j] = tmp]; when [i == j], [tmp] is the old [data[i]] *)
    rewrite !lookupZ_nonneg in * by lia.
    destruct (decide (idx_i th = idx_j th)) as [E|E].
    + rewrite E in *. rewrite list_lookup_insert_eq by lia. by apply Hab.
    + by rewrite list_lookup_insert_ne by lia.
  - rewrite lookupZ_nonneg, list_lookup_insert_eq by lia. done.
Qed.

(** Any run in which the thread moves at most as often as its rank says
    keeps it in its critical section, one stage on per move. *)
Lemma cs_run s : ∀ w w' th,
  inv n w → threads w !! t = Some th → cs_stage i j a b th (data (buf w)) →
  (count_occ Nat.eq_dec s t <= cs_rank (tpc th))%nat →
  run rand_seq w s = Some w' →
  ∃ th', threads w' !! t = Some th' ∧ cs_stage i j a b th' (data (buf w')) ∧
         (cs_rank (tpc th') + count_occ Nat.eq_dec s t = cs_rank (tpc th))%nat.
Proof.
  induction s as [|u s IH]; intros w w' th Hi Ht Hst Hc Hr; simpl in Hr, Hc |- *.
  { simplify_eq. exists th. split_and!; [done|done|lia]. }
  destruct (swap_step rand_seq w u) as [w1| | |] eqn:Hs; try discriminate.
  assert (Hi1 : inv n w1) by (by eapply inv_step).
  destruct (Nat.eq_dec u t) as [->|Hne].
  - destruct (cs_stage_self w w1 th Hi Ht Hst ltac:(lia) Hs) as (th1 & Ht1 & Hst1 & Hr1).
    destruct (IH w1 w' th1 Hi1 Ht1 Hst1 ltac:(lia) Hr) as (th' & ? & ? & ?).
    exists th'. split_and!; [done|done|lia].
  - destruct (cs_stage_other w w1 th u Hi Ht Hst Hne Hs) as [Ht1 Hst1].
    by apply (IH w1 w' th).
Qed.

End Atomic.

Section Theorems.
Context `{SlotLocksLaws L}.
Variable rand_seq : nat → Z.
Hypothesis rand_nonneg : ∀ p, 0 <= rand_seq p.
Implicit Types w : world L.

(** C14. The swap of lines 63-71 is atomic: in every reachable state, for
    a thread about to read [tmp = data[i]] and every schedule of the
    threads from there in which it makes its three moves, the thread ends
    at line 73 with [data[i]] and [data[j]] exchanged, whatever the other
    threads did in between. *)
Theorem swap_atomic n m dly its w t th s w' :
  (0 < n)%nat → Z.of_nat n <= INT_MAX → 0 <= its <= INT_MAX →
  rtc (step rand_seq) (init_world n m dly its) w →
  threads w !! t = Some th → tpc th = ReadTmp →
  run rand_seq w s = Some w' → count_occ Nat.eq_dec s t = 3%nat →
  ∃ th', threads w' !! t = Some th' ∧ tpc th' = UnlockI ∧
    exchanged (data (buf w)) (data (buf w')) (idx_i th) (idx_j th).
Proof.
  intros Hn HN Hits Hr Ht Hpc Hrun Hc.
  pose proof (inv_reachable rand_seq rand_nonneg n m dly its w Hn HN Hits Hr) as Hi.
  set (d := data (buf w)).
  destruct (cs_run rand_seq rand_nonneg n t (idx_i th) (idx_j th) (d !!z idx_i th) (d !!z idx_j th)
              ltac:(by intros ->) s w w' th Hi Ht) as (th' & Ht' & (_ & _ & Hst) & Hrk);
    [split_and!; [done|done|rewrite Hpc; done]|rewrite Hpc, Hc; done|done|].
  rewrite Hpc, Hc in Hrk. exists th'.
  destruct (tpc th'); simpl in Hrk; try lia. split; [done|]. split; [done|]. split; apply Hst.
Qed.

(** C29. A thread writes a slot of the buffer only while it owns the
    slot's mutex in the mutex table: in every reachable state, a step of
    thread [t] that changes [data[k]] is taken while [mutexes[k]] is
    locked by [t] (lines 66-69, between the locks of lines 50-58 and the
    unlocks of lines 73-76). *)
Theorem writes_under_lock n m dly its w w' t k :
  (0 < n)%nat → Z.of_nat n <= INT_MAX → 0 <= its <= INT_MAX →
  rtc (step rand_seq) (init_world n m dly its) w →
  swap_step rand_seq w t = Stepped w' → data (buf w') !! k ≠ data (buf w) !! k →
  owned_by w k t.
Proof.
  intros Hn HN Hits Hr Hs Hk.
  pose proof (inv_reachable rand_seq rand_nonneg n m dly its w Hn HN Hits Hr) as Hi.
  destruct (threads w !! t) as [th|] eqn:Ht; [|by unfold swap_step in Hs; rewrite Ht in Hs].
  destruct (swap_step_data rand_seq w w' t th Ht Hs) as [_ [Ed|(p & v & Hp & Ed)]]; rewrite Ed in Hk; [done|].
  destruct (decide (k = p)) as [->|Hne]; [|by rewrite list_lookup_insert_ne in Hk].
  unfold owned_by. apply (inv_locks _ _ Hi). eauto.
Qed.

End Theorems.

Section Identity.
Context `{SlotLocksLaws L}.
Variable rand_seq : nat → Z.
Hypothesis rand_nonneg : ∀ p, 0 <= rand_seq p.
Implicit Types w : world L.

Lemma lookup_with_thread w t th : (t < length (threads w))%nat → threads (with_thread w t th) !! t = Some th.
Proof. intros. simpl. by rewrite list_lookup_insert_eq. Qed.

(** The three steps of lines 63-71, where they succeed. *)
Lemma swap_step_ReadTmp w t th v :
  threads w !! t = Some th → tpc th = ReadTmp → data (buf w) !!z idx_i th = Some v →
  swap_step rand_seq w t = Stepped (with_thread w t (set_tmp th v WriteI)).
Proof. intros Ht Hpc Hv. unfold swap_step. rewrite Ht, Hpc. cbn zeta. by rewrite Hv. Qed.

Lemma swap_step_WriteI w t th v :
  threads w !! t = Some th → tpc th = WriteI → data (buf w) !!z idx_j th = Some v →
  0 <= idx_i th < Z.of_nat (length (data (buf w))) →
  swap_step rand_seq w t =
    Stepped (with_thread (with_data w (<[Z.to_nat (idx_i th) := v]> (data (buf w)))) t
               (set_pc th WriteJ)).
Proof.
  intros Ht Hpc Hv Hr. unfold swap_step. rewrite Ht, Hpc. cbn zeta. by rewrite Hv, storeZ_Some.
Qed.

Lemma swap_step_WriteJ w t th :
  threads w !! t = Some th → tpc th = WriteJ →
  0 <= idx_j th < Z.of_nat (length (data (buf w))) →
  swap_step rand_seq w t =
    Stepped (with_thread (with_data w (<[Z.to_nat (idx_j th) := tmp th]> (data (buf w)))) t
               (set_pc th UnlockI)).
Proof. intros Ht Hpc Hr. unfold swap_step. rewrite Ht, Hpc. cbn zeta. by rewrite storeZ_Some. Qed.

(** The steps that bracket lines 63-71 when [i == j]: the [trylock] of
    line 57 on a free mutex, and the unlock of line 73 followed by the test
    of line 75. *)
Lemma swap_step_SpinI_free w t th l' :
  threads w !! t = Some th → tpc th = SpinI → sl_trylock (locks w) (idx_i th) t = MOk (0, l') →
  swap_step rand_seq w t = Stepped (with_thread (with_locks w l') t (set_pc th ReadTmp)).
Proof. intros Ht Hpc Hl. unfold swap_step. rewrite Ht, Hpc. cbn zeta. by rewrite Hl, decide_True. Qed.

Lemma swap_step_UnlockI_same w t th l' :
  threads w !! t = Some th → tpc th = UnlockI → idx_i th = idx_j th →
  sl_unlock (locks w) (idx_i th) t = MOk l' →
  swap_step rand_seq w t = Stepped (with_thread (with_locks w l') t (set_pc th LoopTest)).
Proof.
  intros Ht Hpc Hij Hl. unfold swap_step. rewrite Ht, Hpc. cbn zeta.
  by rewrite Hl, decide_False by (intros Hne; apply Hne, Hij).
Qed.

(** C15. The identity swap: in every reachable state, a thread spinning
    on [trylock] at line 57 ([i == j]) whose mutex is free takes it, runs
    lines 63-71, unlocks it once at line 73, skips the second unlock at
    line 75 and is back at the loop test of line 39, with the whole buffer
    and the whole mutex table as they were. *)
Theorem identity_swap n m dly its w t th :
  (0 < n)%nat → Z.of_nat n <= INT_MAX → 0 <= its <= INT_MAX →
  rtc (step rand_seq) (init_world n m dly its) w →
  threads w !! t = Some th → tpc th = SpinI → sl_owners (locks w) !!z idx_i th = Some None →
  ∃ w' th', run rand_seq w (cs_moves t) = Some w' ∧ threads w' !! t = Some th' ∧
            tpc th' = LoopTest ∧ data (buf w') = data (buf w) ∧
            sl_owners (locks w') = sl_owners (locks w).
Proof.
  intros Hn HN Hits Hr Ht Hpc Hfree.
  pose proof (inv_reachable rand_seq rand_nonneg n m dly its w Hn HN Hits Hr) as Hi.
  pose proof (thread_in_inv _ _ _ _ Hi Ht) as Hok. unfold thread_ok in Hok. rewrite Hpc in Hok.
  destruct Hok as (_ & Hir & _ & Hij).
  pose proof (inv_len _ _ Hi) as Hlen. pose proof (lookup_lt_Some _ _ _ Ht) as Htl.
  destruct (sl_trylock_free (locks w) (idx_i th) t Hfree) as (l1 & Hl1 & Ho1).
  destruct (lookup_lt_is_Some_2 (data (buf w)) (Z.to_nat (idx_i th)) ltac:(lia)) as [v Hv].
  assert (Hv' : data (buf w) !!z idx_i th = Some v) by (by rewrite lookupZ_nonneg by lia).
  unfold cs_moves. simpl. rewrite (swap_step_SpinI_free w t th l1 Ht Hpc Hl1).
  set (w1 := with_thread (with_locks w l1) t (set_pc th ReadTmp)).
  rewrite (swap_step_ReadTmp w1 t (set_pc th ReadTmp) v); [|by apply lookup_with_thread|done|done].
  set (th2 := set_tmp (set_pc th ReadTmp) v WriteI). set (w2 := with_thread w1 t th2).
  rewrite (swap_step_WriteI w2 t th2 v); [|apply lookup_with_thread; simpl; by rewrite !length_insert
    |done|simpl; by rewrite <- Hij|simpl; lia].
  simpl. rewrite list_insert_id by done.
  set (th3 := set_pc th2 WriteJ). set (w3 := with_thread (with_data w2 (data (buf w))) t th3).
  rewrite (swap_step_WriteJ w3 t th3);
    [|apply lookup_with_thread; simpl; by rewrite !length_insert|done|simpl; lia].
  simpl. rewrite <- Hij, list_insert_id by done.
  set (th4 := set_pc th3 UnlockI). set (w4 := with_thread (with_data w3 (data (buf w))) t th4).
  assert (Ho4 : sl_owners (locks w4) !!z idx_i th4 = Some (Some t)).
  { simpl. rewrite Ho1, lookupZ_nonneg by lia. apply list_lookup_insert_eq.
    rewrite (inv_olen _ _ Hi). lia. }
  destruct (sl_unlock_owner _ _ _ Ho4) as [l2 Hl2].
  rewrite (swap_step_UnlockI_same w4 t th4 l2); [|apply lookup_with_thread; simpl; by rewrite !length_insert
    |done|done|done].
  simpl. eexists _, _. split_and!; [done|apply lookup_with_thread; simpl; by rewrite !length_insert
    |done|done|].
  simpl. destruct (sl_unlock_MOk _ _ _ _ Hl2) as [_ ->]. simpl. rewrite Ho1, list_insert_insert.
  rewrite decide_True by done. apply list_insert_id. by rewrite <- lookupZ_nonneg by lia.
Qed.

End Identity.

(** ** Concrete runs

    The four slots and two threads of [WorkerTheorems.demo_world]. *)

Definition atomic_rand : nat → Z := demo_rand [0; 1; 2; 3].

(** Thread 0 about to read [data[0]], with [i = 0], [j = 1]. *)
Definition w_cs0 : world MutexArray.table :=
  default demo_world (run atomic_rand demo_world [0; 0; 0; 0; 0; 0]%nat).

Definition th_cs0 : thread := default (spawn_thread 0 0 0) (threads w_cs0 !! 0%nat).

(** Thread 1 draws its slots between the three moves of thread 0. *)
Definition sched_atomic : list nat := [0; 1; 0; 1; 1; 0]%nat.

Definition w_atomic : world MutexArray.table :=
  default w_cs0 (run atomic_rand w_cs0 sched_atomic).

Lemma swap_atomic_witness :
  ∃ th', threads w_atomic !! 0%nat = Some th' ∧ tpc th' = UnlockI ∧
    exchanged (data (buf w_cs0)) (data (buf w_atomic)) (idx_i th_cs0) (idx_j th_cs0).
Proof.
  apply (swap_atomic atomic_rand (demo_rand_nonneg _) 4 2 10 2 w_cs0 0 th_cs0 sched_atomic);
    [lia|unfold INT_MAX; lia|unfold INT_MAX; lia| |vm_compute; reflexivity|vm_compute; reflexivity
    |vm_compute; reflexivity|reflexivity].
  apply (run_rtc _ _ _ [0; 0; 0; 0; 0; 0]%nat). vm_compute. reflexivity.
Defined.

(** Thread 0 draws [i = j = 1] and is at the [trylock] loop of lines
    57-59, with the mutex of slot 1 free. *)
Definition id_rand : nat → Z := demo_rand [1; 1].

Definition w_id : world MutexArray.table :=
  default demo_world (run id_rand demo_world [0; 0; 0; 0]%nat).

Definition th_id : thread := default (spawn_thread 0 0 0) (threads w_id !! 0%nat).

Lemma identity_swap_witness :
  ∃ w' th', run id_rand w_id (cs_moves 0) = Some w' ∧ threads w' !! 0%nat = Some th' ∧
            tpc th' = LoopTest ∧ data (buf w') = data (buf w_id) ∧
            sl_owners (locks w') = sl_owners (locks w_id).
Proof.
  apply (identity_swap id_rand (demo_rand_nonneg _) 4 2 10 2 w_id 0 th_id);
    [lia|unfold INT_MAX; lia|unfold INT_MAX; lia| |vm_compute; reflexivity
    |vm_compute; reflexivity|vm_compute; reflexivity].
  apply (run_rtc _ _ _ [0; 0; 0; 0]%nat). vm_compute. reflexivity.
Defined.

(** Thread 0 of [w_cs0] after [tmp = data[0]], about to write [data[0]]. *)
Definition w_wi : world MutexArray.table := default w_cs0 (run atomic_rand w_cs0 [0%nat]).

Definition w_wi_next : world MutexArray.table := default w_wi (run atomic_rand w_wi [0%nat]).

Lemma writes_under_lock_witness : owned_by w_wi 0 0.
Proof.
  apply (writes_under_lock atomic_rand (demo_rand_nonneg _) 4 2 10 2 w_wi w_wi_next 0 0);
    [lia|unfold INT_MAX; lia|unfold INT_MAX; lia| |vm_compute; reflexivity|vm_compute; discriminate].
  apply (run_rtc _ _ _ [0; 0; 0; 0; 0; 0; 0]%nat). vm_compute. reflexivity.
Defined.
