(* ===== verification/WorkerLog.v ===== *)
(** * The iteration count of a worker (swape2.c, lines 39-46)

    Every iteration of the loop of line 39 prints one line (lines 45-46)
    before it locks anything.  The lines thread [t] has printed plus the
    iterations it has still to start equal the count it was given
    ([log_inv]), whatever the interleaving.  So a thread that returns has
    run exactly [iterations] swaps ([worker_iterations]), and a thread given
    a negative count never returns: [while(args->iterations--)] stops only
    at [0], which a negative counter never reaches before it overflows
    ([negative_iterations_never_return]). *)

From S2P Require Import Prelude CInt SlotLockTable SharedBuffer SwapWorker WorkerInvariant WorkerTheorems.

Local Open Scope Z_scope.

(** The lines thread [k] has printed. *)
Definition printed (k : nat) (l : list event) : nat :=
  length (filter (λ e, ev_thread e = k) l).

(** The iterations a thread has still to print: the current one counts
    until its line is printed. *)
Definition remaining (th : thread) : Z :=
  match tpc th with
  | Finished => 0
  | DrawI | DrawJ | PrintSwap => iterations th + 1
  | _ => iterations th
  end.

Definition log_inv `{SlotLocks L} (its : Z) (w : world L) : Prop :=
  ∀ t th, threads w !! t = Some th →
    thread_num th = t ∧ Z.of_nat (printed t (log w)) + remaining th = its.

Lemma printed_app k l1 l2 : printed k (l1 ++ l2) = (printed k l1 + printed k l2)%nat.
Proof. unfold printed. by rewrite filter_app, length_app. Qed.

Lemma printed_own k l : Forall (λ e, ev_thread e = k) l → printed k l = length l.
Proof.
  unfold printed. induction 1; [done|]. rewrite filter_cons_True by done. simpl. lia.
Qed.

Lemma printed_other k k' l : Forall (λ e, ev_thread e = k') l → k ≠ k' → printed k l = 0%nat.
Proof.
  unfold printed. induction 1; intros Hk; [done|]. rewrite filter_cons_False by congruence. auto.
Qed.

Section Log.
Context `{SlotLocks L}.
Variable rand_seq : nat → Z.
Implicit Types w : world L.

(** A step of thread [t] changes thread [t] only, keeps its number,
    appends the lines it prints, and what it prints is what it had still to
    print. *)
Lemma swap_step_log w w' t th :
  threads w !! t = Some th → swap_step rand_seq w t = Stepped w' →
  ∃ th' l, threads w' = <[t := th']> (threads w) ∧ thread_num th' = thread_num th ∧
    log w' = log w ++ l ∧ Forall (λ e, ev_thread e = thread_num th) l ∧
    Z.of_nat (length l) + remaining th' = remaining th.
Proof.
  intros Ht Hs. unfold swap_step in Hs. rewrite Ht in Hs.
  destruct (tpc th) eqn:Hpc; simpl in Hs; try discriminate;
    repeat (case_match; simplify_eq/=; try done);
    repeat match goal with E : c_dec _ = Some _ |- _ => apply c_dec_Some_inv in E as [-> _] end;
    lazymatch goal with
    | |- context [log w ++ [?e]] => eexists _, [e]
    | _ => eexists _, []
    end;
    (split_and!; [reflexivity|reflexivity|rewrite ?app_nil_r; reflexivity
                 |repeat constructor|]);
    unfold remaining; simpl; rewrite ?Hpc; try case_decide; simpl; lia.
Qed.

Lemma log_inv_init n m dly its : log_inv (L := L) its (init_world n m dly its).
Proof.
  intros t th. simpl. rewrite list_lookup_fmap.
  destruct (decide (t < m)%nat); [|by rewrite lookup_seq_ge by lia].
  rewrite lookup_seq_lt by done. intros [= <-]. done.
Qed.

Lemma log_inv_step its w w' : log_inv its w → step rand_seq w w' → log_inv its w'.
Proof.
  intros Hl Hst. inversion Hst as [t w0 w1 Hs]; subst w0 w1. destruct (threads w !! t) as [th|] eqn:Ht;
    [|by unfold swap_step in Hs; rewrite Ht in Hs].
  destruct (swap_step_log w w' t th Ht Hs) as (th' & l & Ew & Hnum & Elog & Hev & Hrem).
  destruct (Hl t th Ht) as [Ht_num Hcount].
  intros u thu. rewrite Ew, Elog, printed_app, list_lookup_insert.
  case_decide as Hc.
  - destruct Hc as [-> _]. intros [= <-]. rewrite Ht_num in Hev. rewrite (printed_own _ l Hev).
    split; [congruence|lia].
  - intros Hu. assert (u ≠ t) by (intros ->; apply Hc; split; [done|]; by eapply lookup_lt_Some).
    destruct (Hl u thu Hu) as [Hu_num Hu_count].
    rewrite (printed_other u (thread_num th) l Hev) by congruence. split; [done|lia].
Qed.

Lemma log_inv_rtc its w w' : log_inv its w → rtc (step rand_seq) w w' → log_inv its w'.
Proof. intros Hl Hr. induction Hr as [|w1 w2 w3 Hs _ IH]; [done|]. by eapply IH, log_inv_step. Qed.

Lemma log_inv_reachable n m dly its w :
  rtc (step rand_seq) (init_world n m dly its) w → log_inv its w.
Proof. apply log_inv_rtc, log_inv_init. Qed.

Lemma length_threads_rtc w w' :
  rtc (step rand_seq) w w' → length (threads w') = length (threads w).
Proof.
  induction 1 as [|w1 w2 w3 Hst _ IH]; [done|]. rewrite IH.
  inversion Hst as [t w0 w4 Hs]; subst w0 w4.
  destruct (threads w1 !! t) as [th|] eqn:Ht; [|by unfold swap_step in Hs; rewrite Ht in Hs].
  destruct (swap_step_log w1 w2 t th Ht Hs) as (th' & l & -> & _). apply length_insert.
Qed.

(** C17. A worker runs its whole iteration count: once every thread has
    returned, each of the [m] threads started with [iterations = its >= 0]
    has printed exactly [its] lines, one per swap (lines 45-46), whatever
    the interleaving. *)
Theorem worker_iterations n m dly its w :
  0 <= its → rtc (step rand_seq) (init_world n m dly its) w →
  (∀ t th, threads w !! t = Some th → tpc th = Finished) →
  ∀ t, (t < m)%nat → printed t (log w) = Z.to_nat its.
Proof.
  intros Hits Hr Hj t Ht.
  assert (Hlen : length (threads w) = m).
  { rewrite (length_threads_rtc _ _ Hr). simpl. by rewrite length_fmap, length_seq. }
  destruct (lookup_lt_is_Some_2 (threads w) t ltac:(lia)) as [th Hth].
  destruct (log_inv_reachable n m dly its w Hr t th Hth) as [_ Hc].
  unfold remaining in Hc. rewrite (Hj t th Hth) in Hc. lia.
Qed.

(** C18. A thread started with a negative iteration count never returns:
    [while(args->iterations--)] stops only when the counter is [0], and a
    negative counter only decreases (until the decrement overflows at
    [INT_MIN]): the iterations it has still to run are its count minus the
    lines it has printed. *)
Theorem negative_iterations_never_return n m dly its w :
  its < 0 → rtc (step rand_seq) (init_world n m dly its) w →
  ∀ t th, threads w !! t = Some th →
    tpc th ≠ Finished ∧ remaining th = its - Z.of_nat (printed t (log w)).
Proof.
  intros Hits Hr t th Hth.
  destruct (log_inv_reachable n m dly its w Hr t th Hth) as [_ Hc].
  split; [|lia]. intros Hf. unfold remaining in Hc. rewrite Hf in Hc. lia.
Qed.

End Log.

(** ** Concrete runs *)

(** [demo_world] run to the end by the lowest-thread-first scheduler. *)
Definition w_demo_end : world MutexArray.table :=
  run_first (demo_rand [0; 1; 2; 3]) 200 demo_world.

Lemma worker_iterations_witness :
  printed 0 (log w_demo_end) = Z.to_nat 2 ∧ printed 1 (log w_demo_end) = Z.to_nat 2.
Proof.
  pose proof (worker_iterations (demo_rand [0; 1; 2; 3]) 4 2 10 2 w_demo_end) as Hw.
  assert (Hall : Forall (λ th, tpc th = Finished) (threads w_demo_end))
    by (vm_compute; repeat constructor).
  split; (apply Hw; [lia|apply run_first_rtc| |lia]);
    intros t th Ht; exact (Forall_lookup_1 _ _ _ _ Hall Ht).
Defined.

(** Two threads told to run [-1] times, after 300 steps. *)
Definition w_negative : world MutexArray.table :=
  run_first (demo_rand [0; 1; 2; 3]) 300 (init_world 4 2 10 (-1)).

Lemma negative_iterations_never_return_witness :
  ∃ th, threads w_negative !! 0%nat = Some th ∧ iterations th < -1 ∧ tpc th ≠ Finished.
Proof.
  eexists. split; [vm_compute; reflexivity|]. split; [vm_compute; reflexivity|].
  refine (proj1 (negative_iterations_never_return (demo_rand [0; 1; 2; 3]) 4 2 10 (-1) w_negative
                   ltac:(lia) (run_first_rtc _ _ _) 0%nat _ _)).
  vm_compute. reflexivity.
Defined.
