(* ===== verification/WorkerEvents.v ===== *)
(** * Runs where nothing is swapped (swape2.c, lines 39-46)

    With [iterations = 0], or without threads, no thread enters the body of
    the loop of line 39: nothing is printed, the buffer and the mutexes
    stay as [start_threads] made them ([zero_iterations_idle]), and no
    thread accesses the buffer, so such a run has no data race. *)

From S2P Require Import Prelude CInt SlotLockTable SharedBuffer SwapWorker WorkerInvariant WorkerTheorems.

Local Open Scope Z_scope.

(** A thread with nothing left to do: about to leave the loop of line 39,
    or returned. *)
Definition idle_thread (th : thread) : Prop :=
  (tpc th = LoopTest ∧ iterations th = 0) ∨ tpc th = Finished.

(** A state of a run where nothing is swapped: [w0] as it was, but for the
    threads, all idle. *)
Record idle `{SlotLocks L} (w0 w : world L) : Prop := {
  idle_buf : buf w = buf w0;
  idle_locks : locks w = locks w0;
  idle_log : log w = [];
  idle_threads : Forall idle_thread (threads w)
}.

Section Events.
Context `{SlotLocks L}.
Variable rand_seq : nat → Z.
Implicit Types w : world L.

Lemma idle_step w0 w w' : idle w0 w → step rand_seq w w' → idle w0 w'.
Proof.
  intros [Hb Hl Hg Hth] Hst. inversion Hst as [t w1 w2 Hs]; subst w1 w2.
  unfold swap_step in Hs. destruct (threads w !! t) as [th|] eqn:Ht; [|done].
  destruct (Forall_lookup_1 _ _ _ _ Hth Ht) as [[Hpc Hit]|Hpc]; rewrite Hpc in Hs; [|done].
  rewrite decide_True in Hs by done. simplify_eq/=. split; try done.
  apply Forall_insert; [done|]. by right.
Qed.

Lemma idle_rtc w0 w w' : idle w0 w → rtc (step rand_seq) w w' → idle w0 w'.
Proof. intros Hi Hr. induction Hr as [|w1 w2 w3 Hs _ IH]; [done|]. by eapply IH, idle_step. Qed.

(** Idle threads access nothing: a state of a run with nothing to swap
    has no data race. *)
Lemma idle_no_race w0 w : idle w0 w → ¬ data_race w.
Proof.
  intros [_ _ _ Hth] (t & u & th & thu & a & b & _ & Ht & _ & Ha & _).
  destruct (Forall_lookup_1 _ _ _ _ Hth Ht) as [[Hpc _]|Hpc];
    unfold next_accesses in Ha; rewrite Hpc in Ha; set_solver.
Qed.

Lemma idle_init n m dly its :
  (its = 0 ∨ m = 0%nat) → idle (L := L) (init_world n m dly its) (init_world n m dly its).
Proof.
  intros Hz. split; try done. simpl. apply Forall_fmap, Forall_forall.
  intros k Hk%elem_of_seq. left. simpl. split; [done|lia].
Qed.

(** C26. With [iterations = 0], or with no thread, no thread enters the
    body of the loop of line 39: in every reachable state nothing has been
    printed, the buffer is still [0..N-1], every mutex is as initialised,
    and every thread is about to return or has returned. *)
Theorem zero_iterations_idle n m dly its w :
  (its = 0 ∨ m = 0%nat) → rtc (step rand_seq) (init_world n m dly its) w →
  log w = [] ∧ buf w = {| data := iota n; size := Z.of_nat n |} ∧ locks w = sl_init n ∧
  Forall idle_thread (threads w).
Proof.
  intros Hz Hr. destruct (idle_rtc _ _ _ (idle_init n m dly its Hz) Hr) as [-> -> -> ?].
  by split_and!.
Qed.

End Events.

(** ** Concrete runs *)

(** Two threads told to run [0] times, run to the end. *)
Definition w_idle : world MutexArray.table :=
  run_first (demo_rand [0; 1]) 10 (init_world 4 2 10 0).

Lemma zero_iterations_idle_witness :
  log w_idle = [] ∧ buf w_idle = {| data := iota 4; size := Z.of_nat 4 |} ∧
  locks w_idle = sl_init 4 ∧ Forall idle_thread (threads w_idle).
Proof. apply (zero_iterations_idle (demo_rand [0; 1]) 4 2 10 0); [by left|apply run_first_rtc]. Defined.
