(* ===== verification/Coordinator.v ===== *)
(** * [main] and [start_threads] (swape2.c, lines 101-207)

    [main] sets the default options (lines 197-200), lets [read_options]
    override them from the command line, and calls [start_threads], which
    - allocates the buffer and fills it with [0..N-1] (lines 112-120),
    - initialises the [N] mutexes (lines 122-127),
    - fills the [struct args] of each thread and creates it (lines 144-157),
    - joins every thread (lines 160-161),
    - checks the buffer with [checkBuffer] and destroys the mutexes (lines
      171-187).

    The setup is the function [start_setup], whose result is the initial
    world of [WorkerTheorems]; the parallel phase is any run of [step]; the
    join loop over the array of [struct thread_info] is [join_wait], which
    ends exactly when every thread has returned ([joined],
    [join_wait_joined]); the end of the run is [finish].  [read_options] is not in the repository (options.c): it is
    modelled from the specification as a fold of the flags over the
    defaults. *)

From S2P Require Import Prelude CInt SlotLockTable SharedBuffer SwapWorker WorkerInvariant WorkerTheorems WorkerLiveness WorkerAtomic.

Local Open Scope Z_scope.

(** [struct options] of options.h. *)
Record options := {
  num_threads : Z;
  buffer_size : Z;
  opt_iterations : Z;
  opt_delay : Z
}.

(** Lines 197-200. *)
Definition default_options : options :=
  {| num_threads := 10; buffer_size := 10; opt_iterations := 100; opt_delay := 10 |}.

(** The command-line flags [read_options] understands, with their values. *)
Inductive flag :=
| FlagThreads (v : Z)
| FlagSize (v : Z)
| FlagIterations (v : Z)
| FlagDelay (v : Z).

(** [read_options]: each flag overrides one option; absent flags keep the
    defaults. *)
Definition read_flag (opt : options) (f : flag) : options :=
  match f with
  | FlagThreads v => {| num_threads := v; buffer_size := buffer_size opt;
                        opt_iterations := opt_iterations opt; opt_delay := opt_delay opt |}
  | FlagSize v => {| num_threads := num_threads opt; buffer_size := v;
                     opt_iterations := opt_iterations opt; opt_delay := opt_delay opt |}
  | FlagIterations v => {| num_threads := num_threads opt; buffer_size := buffer_size opt;
                           opt_iterations := v; opt_delay := opt_delay opt |}
  | FlagDelay v => {| num_threads := num_threads opt; buffer_size := buffer_size opt;
                      opt_iterations := opt_iterations opt; opt_delay := v |}
  end.

Definition read_options (args : list flag) (opt : options) : options :=
  foldl read_flag opt args.

(** The options [main] passes to [start_threads]. *)
Definition main_options (args : list flag) : options := read_options args default_options.

(** [struct thread_info] (lines 21-24): the id [pthread_create] stored
    (line 153) and the thread's number (line 145). *)
Record thread_info := {
  thread_id : nat;
  ti_thread_num : Z
}.

(** The array [threads] once the loop of lines 144-157 has created [n]
    threads: the id of thread [k] is [k], the index of its [world] entry. *)
Definition thread_infos (n : nat) : list thread_info :=
  (λ k, {| thread_id := k; ti_thread_num := Z.of_nat k |}) <$> seq 0 n.

Section Coordinator.
Context `{SlotLocks L}.

(** Lines 110-157: the buffer from the block [malloc] returned
    ([garbage]), the mutexes, and the threads at the top of [swap]. *)
Definition start_setup (opt : options) (garbage : list Z) : world L :=
  {| buf := buffer_init (buffer_size opt) garbage;
     locks := sl_init (Z.to_nat (buffer_size opt));
     threads := (λ k, spawn_thread k (opt_delay opt) (opt_iterations opt))
                  <$> seq 0 (Z.to_nat (num_threads opt));
     rand_pos := 0;
     log := [] |}.

(** Lines 160-161 have returned: every thread is past [return NULL]. *)
Definition joined (w : world L) : Prop := ∀ t th, threads w !! t = Some th → tpc th = Finished.

(** Lines 160-161, one [pthread_join] after the other: the first thread
    that has not returned, on which [main] waits, or [None] once all have. *)
Fixpoint join_wait (ts : list thread_info) (w : world L) : option nat :=
  match ts with
  | [] => None
  | ti :: ts' =>
      match threads w !! thread_id ti with
      | Some th => if decide (tpc th = Finished) then join_wait ts' w else Some (thread_id ti)
      | None => join_wait ts' w
      end
  end.

(** What lines 171-187 observe: the answer of [checkBuffer] and the
    result of [pthread_mutex_destroy] on each mutex. *)
Record report := {
  correct : option bool;
  destroyed : list (mresult Z)
}.

Definition finish (w : world L) : report :=
  {| correct := checkBuffer (buf w);
     destroyed := (λ k, sl_destroy (locks w) (Z.of_nat k))
                    <$> seq 0 (Z.to_nat (size (buf w))) |}.

End Coordinator.

(** [joined], decided. *)
Definition joinedb `{SlotLocks L} (w : world L) : bool :=
  forallb (λ th, bool_decide (tpc th = Finished)) (threads w).

Lemma joinedb_spec `{SlotLocks L} (w : world L) : joinedb w = true → joined w.
Proof.
  unfold joinedb, joined. rewrite forallb_forall. intros Hall t th Ht.
  apply (bool_decide_eq_true_1 (tpc th = Finished)), Hall.
  apply list_elem_of_In. by eapply list_elem_of_lookup_2.
Qed.

(** The join loop of lines 160-161 over the [n] created threads ends
    exactly when every thread has returned. *)
Lemma join_wait_joined `{SlotLocks L} (w : world L) :
  join_wait (thread_infos (length (threads w))) w = None ↔ joined w.
Proof.
  unfold thread_infos, joined.
  assert (Hgen : ∀ k c, (k + c <= length (threads w))%nat →
    join_wait ((λ k, {| thread_id := k; ti_thread_num := Z.of_nat k |}) <$> seq k c) w = None ↔
    ∀ t th, (k <= t < k + c)%nat → threads w !! t = Some th → tpc th = Finished).
  { intros k c. revert k. induction c as [|c IH]; intros k Hkc; simpl.
    - split; [intros _ t th ?; lia|done].
    - destruct (lookup_lt_is_Some_2 (threads w) k ltac:(lia)) as [th Hth]. rewrite Hth.
      case_decide as Hf.
      + rewrite IH by lia. split; intros Hall t th' Ht Hth'.
        * destruct (decide (t = k)) as [->|]; [congruence|]. apply (Hall t th'); [lia|done].
        * apply (Hall t th'); [lia|done].
      + split; [done|]. intros Hall. by destruct Hf; apply (Hall k th); [lia|]. }
  rewrite (Hgen 0%nat (length (threads w))) by lia. split.
  - intros Hall t th Ht. apply (Hall t th); [|done]. apply lookup_lt_Some in Ht. lia.
  - intros Hall t th _ Ht. by apply (Hall t th).
Qed.

Section Correctness.
Context `{SlotLocksLaws L}.
Variable rand_seq : nat → Z.
Hypothesis rand_nonneg : ∀ p, 0 <= rand_seq p.
Implicit Types w : world L.

(** The setup of [start_threads] is the initial world of the parallel
    phase, whatever the block [malloc] returned. *)
Lemma start_setup_init opt garbage :
  0 <= buffer_size opt → length garbage = Z.to_nat (buffer_size opt) →
  start_setup (L := L) opt garbage =
    init_world (Z.to_nat (buffer_size opt)) (Z.to_nat (num_threads opt))
               (opt_delay opt) (opt_iterations opt).
Proof.
  intros Hs Hg. unfold start_setup, init_world, buffer_init.
  rewrite init_loop_iota by done. rewrite Z2Nat.id by done. done.
Qed.

Lemma joined_no_holder w t th k : joined w → threads w !! t = Some th → holds th k = false.
Proof. intros Hj Ht. unfold holds. by rewrite (Hj t th Ht). Qed.

Lemma joined_owners_free n w k :
  inv n w → joined w → (k < n)%nat → sl_owners (locks w) !! k = Some None.
Proof.
  intros Hi Hj Hk. destruct (sl_owners (locks w) !! k) as [[u|]|] eqn:E.
  - apply (inv_locks _ _ Hi) in E as (th & Ht & Hh).
    by rewrite (joined_no_holder w u th k Hj Ht) in Hh.
  - done.
  - apply lookup_ge_None in E. pose proof (inv_olen _ _ Hi). lia.
Qed.

Lemma joined_restore w : joined w → restore w = data (buf w).
Proof.
  intros Hj. apply restore_data_no_pending. intros u th Hu. by rewrite (Hj u th Hu).
Qed.

Lemma reachable_from_setup opt garbage w :
  0 < buffer_size opt <= INT_MAX → 0 <= opt_iterations opt <= INT_MAX →
  length garbage = Z.to_nat (buffer_size opt) →
  rtc (step rand_seq) (start_setup opt garbage) w →
  inv (Z.to_nat (buffer_size opt)) w.
Proof.
  intros Hs Hits Hg Hr. rewrite start_setup_init in Hr by (done || lia).
  eapply (inv_reachable rand_seq rand_nonneg); [..|exact Hr]; lia.
Qed.

(** The state after the join: the buffer is a permutation of [0..N-1] of
    its size, and every mutex is free. *)
Lemma joined_state opt garbage w :
  0 < buffer_size opt <= INT_MAX → 0 <= opt_iterations opt <= INT_MAX →
  length garbage = Z.to_nat (buffer_size opt) →
  rtc (step rand_seq) (start_setup opt garbage) w → joined w →
  data (buf w) ≡ₚ iota (Z.to_nat (buffer_size opt)) ∧ size (buf w) = buffer_size opt ∧
  length (data (buf w)) = Z.to_nat (buffer_size opt) ∧
  ∀ k, (k < Z.to_nat (buffer_size opt))%nat → sl_destroy (locks w) (Z.of_nat k) = MOk 0.
Proof.
  intros Hs Hits Hg Hr Hj.
  pose proof (reachable_from_setup opt garbage w Hs Hits Hg Hr) as Hi.
  pose proof (inv_perm _ _ Hi) as Hp. rewrite (joined_restore w Hj) in Hp.
  split_and!; [done|rewrite (inv_size _ _ Hi); lia|apply Hi|].
  intros k Hk. rewrite sl_destroy_spec. unfold LockSpec.destroy.
  by rewrite lookupZ_nat, (joined_owners_free _ w k Hi Hj Hk).
Qed.

(** C9. After the join (lines 160-161), the buffer is a permutation of
    [0..N-1] and its sum is [N*(N-1)/2], for every interleaving, every
    [rand()] sequence and every initial contents of the [malloc]ed
    block. *)
Theorem joined_buffer_correct opt garbage w :
  0 < buffer_size opt <= INT_MAX → 0 <= opt_iterations opt <= INT_MAX →
  length garbage = Z.to_nat (buffer_size opt) →
  rtc (step rand_seq) (start_setup opt garbage) w → joined w →
  data (buf w) ≡ₚ iota (Z.to_nat (buffer_size opt)) ∧
  sumZ (data (buf w)) = expected_sum (buffer_size opt).
Proof.
  intros Hs Hits Hg Hr Hj.
  destruct (joined_state opt garbage w Hs Hits Hg Hr Hj) as (Hp & _).
  split; [done|]. rewrite (sumZ_perm_iota _ _ Hp). f_equal. lia.
Qed.

(** C11. After the join, every [pthread_mutex_destroy] of lines 183-187
    returns 0 (no mutex is left locked), and [checkBuffer] answers
    "Correct buffer" exactly when [N = 10], for [N <= 65536]. *)
Theorem joined_report opt garbage w :
  0 < buffer_size opt <= 65536 → 0 <= opt_iterations opt <= INT_MAX →
  length garbage = Z.to_nat (buffer_size opt) →
  rtc (step rand_seq) (start_setup opt garbage) w → joined w →
  finish w = {| correct := Some (bool_decide (buffer_size opt = 10));
                destroyed := replicate (Z.to_nat (buffer_size opt)) (MOk 0) |}.
Proof.
  intros Hs Hits Hg Hr Hj.
  destruct (joined_state opt garbage w ltac:(unfold INT_MAX; lia) Hits Hg Hr Hj)
    as (Hp & Hsz & _ & Hd).
  unfold finish. f_equal.
  - rewrite (checkBuffer_iota_perm _ (Z.to_nat (buffer_size opt))); [|done|lia|lia].
    f_equal. apply bool_decide_ext. lia.
  - rewrite Hsz. apply list_eq. intros k. rewrite list_lookup_fmap.
    destruct (decide (k < Z.to_nat (buffer_size opt))%nat) as [Hk|Hk].
    + rewrite lookup_seq_lt, lookup_replicate_2 by done. simpl. by rewrite Hd.
    + rewrite lookup_seq_ge by lia. symmetry. apply lookup_replicate_None. lia.
Qed.

(** C13. The joins of lines 160-161 can always return: from every state
    the parallel phase reaches, some schedule of the threads leads to the
    state where every thread has returned.  (The backoff of lines 50-54 is
    not fair, so not every schedule does.) *)
Theorem join_reachable opt garbage w :
  0 < buffer_size opt <= INT_MAX → 0 <= opt_iterations opt <= INT_MAX →
  length garbage = Z.to_nat (buffer_size opt) →
  rtc (step rand_seq) (start_setup opt garbage) w →
  ∃ w', rtc (step rand_seq) w w' ∧ joined w'.
Proof.
  intros Hs Hits Hg Hr.
  destruct (finish_from_inv rand_seq rand_nonneg _ w (reachable_from_setup opt garbage w Hs Hits Hg Hr))
    as (w' & Hr' & Hall).
  exists w'. split; [done|]. intros t th Ht. by apply (Forall_lookup_1 _ _ _ _ Hall Ht).
Qed.

End Correctness.

(** ** The scenarios of the specification, run

    [rand()] is a fixed linear sequence, the [malloc]ed block holds zeros,
    and the threads run one after the other ([run_first]). *)

Definition demo_lcg (p : nat) : Z := (Z.of_nat p * 7919 + 13) mod 32768.

Lemma demo_lcg_nonneg p : 0 <= demo_lcg p.
Proof. unfold demo_lcg. apply Z.mod_pos_bound. lia. Qed.

Definition zero_block (opt : options) : list Z := replicate (Z.to_nat (buffer_size opt)) 0.

Definition scenario_end (opt : options) (fuel : Z) : world MutexArray.table :=
  run_first demo_lcg (Z.to_nat fuel) (start_setup opt (zero_block opt)).

(** [N = 10], 10 threads, 100 iterations each (the defaults). *)
Definition w_defaults : world MutexArray.table := scenario_end default_options 20000.

(** [N = 2], 2 threads, 1000 iterations each. *)
Definition opt_two : options :=
  {| num_threads := 2; buffer_size := 2; opt_iterations := 1000; opt_delay := 10 |}.

Definition w_two : world MutexArray.table := scenario_end opt_two 30000.

Lemma joined_buffer_correct_witness :
  data (buf w_defaults) ≡ₚ iota 10 ∧ sumZ (data (buf w_defaults)) = 45.
Proof.
  apply (joined_buffer_correct demo_lcg demo_lcg_nonneg default_options
           (zero_block default_options) w_defaults);
    [unfold INT_MAX; simpl; lia|unfold INT_MAX; simpl; lia|reflexivity
    |apply run_first_rtc|apply joinedb_spec; vm_compute; reflexivity].
Defined.

(** A state in the middle of the default run: the threads are still
    running, and a schedule to the join exists. *)
Definition w_midway : world MutexArray.table := scenario_end default_options 150.

Lemma join_reachable_witness :
  joinedb w_midway = false ∧ ∃ w', rtc (step demo_lcg) w_midway w' ∧ joined w'.
Proof.
  split; [vm_compute; reflexivity|].
  apply (join_reachable demo_lcg demo_lcg_nonneg default_options (zero_block default_options));
    [unfold INT_MAX; simpl; lia|unfold INT_MAX; simpl; lia|reflexivity|apply run_first_rtc].
Defined.

(** With two slots, the run ends with a correct buffer (sum 1), and
    [start_threads] prints "Incorrect buffer". *)
Lemma joined_report_witness :
  finish w_two = {| correct := Some false; destroyed := [MOk 0; MOk 0] |}.
Proof.
  apply (joined_report demo_lcg demo_lcg_nonneg opt_two (zero_block opt_two) w_two);
    [simpl; lia|unfold INT_MAX; simpl; lia|reflexivity
    |apply run_first_rtc|apply joinedb_spec; vm_compute; reflexivity].
Defined.
