(* ===== verification/Main.v ===== *)
(** * The whole program: [start_threads] and [main] with their output and
    exit status (swape2.c, lines 101-207)

    [program_run io opt garbage o] says that the program, run with the
    options [opt], on a platform whose allocations and thread creations
    succeed or fail as [io] says, and with [garbage] the contents of the
    block [malloc] returns, can end with the outcome [o]: what it printed
    and how it ended.  Its seven rules are the seven ways the code ends:
    - [buffer_size <= 0]: the variable-length array of line 107 has no
      valid size (undefined behaviour, before anything is printed);
    - the [malloc] of line 112 fails: "Out of memory", [exit(1)];
    - a [malloc] of lines 131-132 fails: "Not enough memory", [exit(1)];
    - [pthread_create] fails for thread [i] (line 153): the threads
      [0..i-1] already run and print ([w]) when [main] prints the failure,
      and keep running and printing ([w']) until [exit(1)] ends the
      process;
    - a thread reaches undefined behaviour in one of its steps;
    - two threads race on a slot of the buffer ([data_race]: the unlocked
      reads of line 45 against a write of lines 66-69), undefined
      behaviour, with the threads created so far ([created]);
    - every thread returns (lines 160-161): [start_threads] prints the
      buffer, the verdict of [checkBuffer], the time and the failures of
      [pthread_mutex_destroy], and [pthread_exit] ends the process with
      status 0 (the [exit(0)] of line 206 is never reached).
    The output of the threads is their log, in the order the interleaving
    printed it.  [pthread_mutex_init] with default attributes always
    succeeds on the modelled platform (glibc), so the failure branch of
    line 124 is not taken; the time printed by line 177 is an input. *)

From stdpp Require Import strings.
From S2P Require Import Prelude CInt SlotLockTable SharedBuffer SwapWorker Console WorkerInvariant WorkerTheorems WorkerLog WorkerEvents Coordinator.

Local Open Scope Z_scope.

(** What the platform answers. *)
Record io := {
  buffer_alloc_ok : bool;      (** the [malloc] of line 112 *)
  threads_alloc_ok : bool;     (** the [malloc] of line 131 *)
  args_alloc_ok : bool;        (** the [malloc] of line 132 *)
  create_ok : nat → bool;      (** [pthread_create] of thread [i], line 153 *)
  time_taken : string          (** [%f] of [time_taken], line 177 *)
}.

Inductive status :=
| Exited (code : Z)
| Undefined (u : ub).

Record outcome := {
  output : string;
  exit_status : status
}.

(** Lines 122-127, from slot [k], for [n] slots. *)
Fixpoint mutex_lines (k n : nat) : string :=
  match n with
  | O => EmptyString
  | S n' => " Mutex " +:+ print_int (Z.of_nat k) +:+ " created" +:+ nl +:+ mutex_lines (S k) n'
  end.

(** The first [i] in [k .. k+n-1] whose [pthread_create] fails (lines
    144-157). *)
Fixpoint first_failure (ok : nat → bool) (k n : nat) : option nat :=
  match n with
  | O => None
  | S n' => if ok k then first_failure ok (S k) n' else Some k
  end.

(** Lines 122-129. *)
Definition setup_out (opt : options) : string :=
  mutex_lines 0 (Z.to_nat (buffer_size opt)) +:+ nl +:+
  " Creating " +:+ print_int (num_threads opt) +:+ " threads" +:+ nl +:+ nl.

(** Lines 138-139. *)
Definition before_out (b : buffer) : string := "Buffer before: " +:+ print_buffer b +:+ nl.

(** [opt] with only the first [i] threads created. *)
Definition first_threads (opt : options) (i : nat) : options :=
  {| num_threads := Z.of_nat i; buffer_size := buffer_size opt;
     opt_iterations := opt_iterations opt; opt_delay := opt_delay opt |}.

(** The number of threads the loop of lines 144-157 creates: all of them,
    or those before the first [pthread_create] that fails. *)
Definition created (io0 : io) (opt : options) : nat :=
  default (Z.to_nat (num_threads opt)) (first_failure (create_ok io0) 0 (Z.to_nat (num_threads opt))).

Definition verdict (ok : bool) : string :=
  (if ok then "Correct buffer" else "Incorrect buffer") +:+ nl.

Definition time_line (io0 : io) : string :=
  "start_threads() took " +:+ time_taken io0 +:+ " seconds to execute " +:+ nl.

Section Main.
Context `{SlotLocks L}.
Variable rand_seq : nat → Z.

(** Lines 183-187, from slot [k], for [n] slots. *)
Fixpoint destroy_lines (l : L) (k n : nat) : string :=
  match n with
  | O => EmptyString
  | S n' =>
      (if decide (sl_destroy l (Z.of_nat k) = MOk 0) then EmptyString
       else nl +:+ " mutex destroy failed" +:+ nl) +:+ destroy_lines l (S k) n'
  end.

(** Lines 163-189, once every thread has returned: the output and the
    status.  [checkBuffer] overflowing is undefined behaviour. *)
Definition finish_run (io0 : io) (w : world L) : string * status :=
  let shown := nl +:+ "Buffer after:  " +:+ print_buffer (buf w) +:+ nl in
  match checkBuffer (buf w) with
  | None => (shown, Undefined UB_overflow)
  | Some ok =>
      (shown +:+ verdict ok +:+ nl +:+ time_line io0 +:+
       destroy_lines (locks w) 0 (Z.to_nat (size (buf w))), Exited 0)
  end.

Definition allocs_ok (io0 : io) : bool :=
  buffer_alloc_ok io0 && threads_alloc_ok io0 && args_alloc_ok io0.

Inductive program_run (io0 : io) (opt : options) (garbage : list Z) : outcome → Prop :=
| run_vla :
    buffer_size opt <= 0 →
    program_run io0 opt garbage {| output := EmptyString; exit_status := Undefined UB_vla_size |}
| run_no_buffer :
    0 < buffer_size opt → buffer_alloc_ok io0 = false →
    program_run io0 opt garbage {| output := "Out of memory" +:+ nl; exit_status := Exited 1 |}
| run_no_tables :
    0 < buffer_size opt → buffer_alloc_ok io0 = true →
    threads_alloc_ok io0 && args_alloc_ok io0 = false →
    program_run io0 opt garbage
      {| output := setup_out opt +:+ "Not enough memory" +:+ nl; exit_status := Exited 1 |}
| run_no_thread i w w' :
    0 < buffer_size opt → allocs_ok io0 = true →
    first_failure (create_ok io0) 0 (Z.to_nat (num_threads opt)) = Some i →
    rtc (step rand_seq) (start_setup (first_threads opt i) garbage) w →
    rtc (step rand_seq) w w' →
    program_run io0 opt garbage
      {| output := setup_out opt +:+ before_out (buf (start_setup (L := L) opt garbage)) +:+
                   log_out (log w) +:+ "Could not create thread #" +:+ print_int (Z.of_nat i) +:+
                   log_out (drop (length (log w)) (log w'));
         exit_status := Exited 1 |}
| run_crash w t u :
    0 < buffer_size opt → allocs_ok io0 = true →
    first_failure (create_ok io0) 0 (Z.to_nat (num_threads opt)) = None →
    rtc (step rand_seq) (start_setup opt garbage) w → swap_step rand_seq w t = Crashed u →
    program_run io0 opt garbage
      {| output := setup_out opt +:+ before_out (buf (start_setup (L := L) opt garbage)) +:+
                   log_out (log w);
         exit_status := Undefined u |}
| run_race w :
    0 < buffer_size opt → allocs_ok io0 = true →
    rtc (step rand_seq) (start_setup (first_threads opt (created io0 opt)) garbage) w →
    data_race w →
    program_run io0 opt garbage
      {| output := setup_out opt +:+ before_out (buf (start_setup (L := L) opt garbage)) +:+
                   log_out (log w);
         exit_status := Undefined UB_data_race |}
| run_joined w :
    0 < buffer_size opt → allocs_ok io0 = true →
    first_failure (create_ok io0) 0 (Z.to_nat (num_threads opt)) = None →
    rtc (step rand_seq) (start_setup opt garbage) w →
    join_wait (thread_infos (Z.to_nat (num_threads opt))) w = None →
    program_run io0 opt garbage
      {| output := setup_out opt +:+ before_out (buf (start_setup (L := L) opt garbage)) +:+
                   log_out (log w) +:+ (finish_run io0 w).1;
         exit_status := (finish_run io0 w).2 |}.

(** Every allocation succeeded and every thread was created. *)
Definition all_ok (io0 : io) (opt : options) : bool :=
  allocs_ok io0 && bool_decide (first_failure (create_ok io0) 0 (Z.to_nat (num_threads opt)) = None).

(** [main], lines 192-207: the defaults of lines 197-200, [read_options]
    on the command line [args], then [start_threads], which ends the
    process itself ([exit] or [pthread_exit]): the [exit(0)] of line 206 is
    never reached. *)
Definition main (io0 : io) (args : list flag) (garbage : list Z) (o : outcome) : Prop :=
  program_run io0 (main_options args) garbage o.

End Main.

Section Theorems.
Context `{SlotLocksLaws L}.
Variable rand_seq : nat → Z.
Hypothesis rand_nonneg : ∀ p, 0 <= rand_seq p.

Lemma destroy_lines_free (l : L) k n :
  (∀ i, (k <= i < k + n)%nat → sl_destroy l (Z.of_nat i) = MOk 0) →
  destroy_lines l k n = EmptyString.
Proof.
  revert k. induction n as [|n IH]; intros k Hd; [done|]. simpl.
  rewrite decide_True by (apply Hd; lia). rewrite string_app_nil_l. apply IH. intros. apply Hd. lia.
Qed.

(** Where the join loop of lines 160-161 has ended, every thread has
    returned. *)
Lemma join_wait_setup opt garbage w :
  rtc (step rand_seq) (start_setup opt garbage) w →
  join_wait (thread_infos (Z.to_nat (num_threads opt))) w = None → joined w.
Proof.
  intros Hr Hw. apply join_wait_joined.
  rewrite (length_threads_rtc rand_seq _ _ Hr). simpl. by rewrite length_fmap, length_seq.
Qed.

(** What [start_threads] prints once every thread has returned. *)
Lemma finish_run_joined io0 opt garbage w :
  0 < buffer_size opt <= 65536 → 0 <= opt_iterations opt <= INT_MAX →
  length garbage = Z.to_nat (buffer_size opt) →
  rtc (step rand_seq) (start_setup opt garbage) w → joined w →
  finish_run io0 w =
    (nl +:+ "Buffer after:  " +:+ print_ints (data (buf w)) +:+ nl +:+ nl +:+
     verdict (bool_decide (buffer_size opt = 10)) +:+ nl +:+ time_line io0,
     Exited 0) ∧
  data (buf w) ≡ₚ iota (Z.to_nat (buffer_size opt)).
Proof.
  intros Hs Hits Hg Hr Hj.
  destruct (joined_state rand_seq rand_nonneg opt garbage w ltac:(unfold INT_MAX; lia) Hits Hg Hr Hj)
    as (Hp & Hsz & Hlen & Hd).
  split; [|done]. unfold finish_run, print_buffer.
  rewrite (checkBuffer_iota_perm _ (Z.to_nat (buffer_size opt))) by (done || lia).
  rewrite (bool_decide_ext (Z.to_nat (buffer_size opt) = 10%nat) (buffer_size opt = 10)) by lia.
  rewrite destroy_lines_free by (intros; apply Hd; lia).
  rewrite Hsz, take_ge by lia. by rewrite string_app_nil_r, !string_app_assoc.
Qed.

(** A run where every allocation and every [pthread_create] succeeded
    ends at the join, with what [finish_run] prints, or at a data race. *)
Lemma run_ok_joined io0 opt garbage o :
  0 < buffer_size opt <= INT_MAX → 0 <= opt_iterations opt <= INT_MAX →
  length garbage = Z.to_nat (buffer_size opt) → all_ok io0 opt = true →
  program_run rand_seq io0 opt garbage o →
  (∃ w, rtc (step rand_seq) (start_setup opt garbage) w ∧ joined w ∧
     o = {| output := setup_out opt +:+ before_out (buf (start_setup (L := L) opt garbage)) +:+
                      log_out (log w) +:+ (finish_run io0 w).1;
            exit_status := (finish_run io0 w).2 |}) ∨
  (exit_status o = Undefined UB_data_race ∧
   ∃ w, rtc (step rand_seq) (start_setup (first_threads opt (created io0 opt)) garbage) w ∧
        data_race w).
Proof.
  intros Hs Hits Hg Hok Hrun. unfold all_ok, allocs_ok in Hok.
  destruct Hrun as [Hle|? Hb|? Hb Ht|i w w' ? Ha Hf Hr|w t u ? Ha Hf Hr Hc|w ? Ha Hr Hrace|w ? Ha Hf Hr Hj].
  - lia.
  - by rewrite Hb in Hok.
  - rewrite Hb in Hok. simpl in Hok. by rewrite Ht in Hok.
  - rewrite Hf, bool_decide_false, andb_false_r in Hok by done. done.
  - exfalso. refine (step_not_crashed rand_seq rand_nonneg _ w t u _ Hc).
    by apply (reachable_from_setup rand_seq rand_nonneg opt garbage w).
  - right. split; [done|eauto].
  - left. exists w. split_and!; [done|by eapply join_wait_setup|done].
Qed.

Lemma first_failure_range ok k n i : first_failure ok k n = Some i → (k <= i < k + n)%nat.
Proof.
  revert k. induction n as [|n IH]; intros k; simpl; [done|].
  destruct (ok k); [intros ?%IH; lia|intros [= <-]; lia].
Qed.

Lemma created_le io0 opt : (created io0 opt <= Z.to_nat (num_threads opt))%nat.
Proof.
  unfold created. destruct (first_failure _ _ _) as [i|] eqn:E; simpl; [|done].
  apply first_failure_range in E. lia.
Qed.

(** A data race needs two threads. *)
Lemma data_race_two_threads (w : world L) : data_race w → (2 <= length (threads w))%nat.
Proof. intros (t & u & th & thu & _ & _ & Htu & Ht%lookup_lt_Some & Hu%lookup_lt_Some & _). lia. Qed.

(** C20. The exit status the specification asks for, and the one
    undefined behaviour left: with valid options ([0 < buffer_size <=
    65536], [0 <= iterations <= INT_MAX]) the program exits with 0 when
    every allocation and every [pthread_create] succeeds, whatever
    [checkBuffer] answers, and with 1 otherwise; the only other way it can
    end is the data race of the unlocked reads of line 45, which needs the
    allocations to succeed and two threads. *)
Theorem exit_status_spec io0 opt garbage o :
  0 < buffer_size opt <= 65536 → 0 <= opt_iterations opt <= INT_MAX →
  length garbage = Z.to_nat (buffer_size opt) →
  program_run rand_seq io0 opt garbage o →
  exit_status o = Exited (if all_ok io0 opt then 0 else 1) ∨
  (exit_status o = Undefined UB_data_race ∧ allocs_ok io0 = true ∧ 2 <= num_threads opt).
Proof.
  intros Hs Hits Hg Hrun.
  destruct Hrun as [Hle|? Hb|? Hb Ht|i w w' ? Ha Hf Hr|w t u ? Ha Hf Hr Hc|w ? Ha Hr Hrace|w ? Ha Hf Hr Hj];
    simpl; [lia|left|left|left|left|right|left].
  - unfold all_ok, allocs_ok. by rewrite Hb.
  - unfold all_ok, allocs_ok. rewrite Hb. simpl. by rewrite Ht.
  - unfold all_ok. rewrite Ha, Hf. by rewrite bool_decide_false.
  - exfalso. refine (step_not_crashed rand_seq rand_nonneg _ w t u _ Hc).
    by apply (reachable_from_setup rand_seq rand_nonneg opt garbage w); [unfold INT_MAX; lia|..].
  - split_and!; [done|done|]. pose proof (data_race_two_threads w Hrace) as H2.
    rewrite (length_threads_rtc rand_seq _ _ Hr) in H2. simpl in H2.
    rewrite length_fmap, length_seq, Nat2Z.id in H2. pose proof (created_le io0 opt). lia.
  - unfold all_ok. rewrite Ha, Hf, bool_decide_true by done.
    by rewrite (proj1 (finish_run_joined io0 opt garbage w Hs Hits Hg Hr (join_wait_setup _ _ w Hr Hj))).
Qed.

(** C21. What the user reads at the end of a run that exits with 0: the
    output ends with the line "Buffer after:" followed by a permutation of
    [0..N-1], which a reader parses back, then "Correct buffer" exactly
    when [N = 10] (the constant of [checkBuffer]), the time, and no
    "mutex destroy failed". *)
Theorem final_report io0 opt garbage o :
  0 < buffer_size opt <= 65536 → 0 <= opt_iterations opt <= INT_MAX →
  length garbage = Z.to_nat (buffer_size opt) →
  program_run rand_seq io0 opt garbage o → exit_status o = Exited 0 →
  ∃ pre l, output o = pre +:+ nl +:+ "Buffer after:  " +:+ print_ints l +:+ nl +:+ nl +:+
                      verdict (bool_decide (buffer_size opt = 10)) +:+ nl +:+ time_line io0 ∧
    l ≡ₚ iota (Z.to_nat (buffer_size opt)) ∧ parse_buffer (print_ints l +:+ nl) = Some l.
Proof.
  intros Hs Hits Hg Hrun He.
  destruct Hrun as [|? Hb|? Hb Ht|i w w' ? Ha Hf Hr|w t u ? Ha Hf Hr Hc|w ? Ha Hr Hrace|w ? Ha Hf Hr Hj];
    cbn [exit_status] in He; try discriminate.
  destruct (finish_run_joined io0 opt garbage w Hs Hits Hg Hr (join_wait_setup _ _ w Hr Hj)) as [Ef Hp].
  exists (setup_out opt +:+ before_out (buf (start_setup (L := L) opt garbage)) +:+ log_out (log w)),
    (data (buf w)).
  cbn [output]. rewrite Ef. cbn [fst].
  split; [by rewrite !string_app_assoc|]. split; [done|apply parse_print_ints].
Qed.

(** C27. A run where nothing is swapped ([iterations = 0], or no
    thread): the output prints the buffer [0..N-1] before and after, with
    no line of [swap] in between, and the program exits with 0. *)
Theorem no_swap_output io0 opt garbage o :
  0 < buffer_size opt <= 65536 → 0 <= opt_iterations opt <= INT_MAX →
  (opt_iterations opt = 0 ∨ num_threads opt <= 0) →
  length garbage = Z.to_nat (buffer_size opt) → all_ok io0 opt = true →
  program_run rand_seq io0 opt garbage o →
  let b := {| data := iota (Z.to_nat (buffer_size opt)); size := buffer_size opt |} in
  output o = setup_out opt +:+ "Buffer before: " +:+ print_buffer b +:+ nl +:+
             nl +:+ "Buffer after:  " +:+ print_buffer b +:+ nl +:+
             verdict (bool_decide (buffer_size opt = 10)) +:+ nl +:+ time_line io0 ∧
  exit_status o = Exited 0.
Proof.
  intros Hs Hits Hz Hg Hok Hrun b.
  destruct (run_ok_joined io0 opt garbage o ltac:(unfold INT_MAX; lia) Hits Hg Hok Hrun)
    as [(w & Hr & Hj & ->)|(_ & w & Hr & Hrace)].
  2:{ exfalso. unfold all_ok in Hok. apply andb_true_iff in Hok as [_ Hf%bool_decide_eq_true_1].
      unfold created in Hr. rewrite Hf in Hr. cbn [default] in Hr.
      rewrite start_setup_init in Hr by (simpl; done || lia). cbn [first_threads num_threads] in Hr.
      rewrite Nat2Z.id in Hr.
      apply (idle_no_race _ _ (idle_rtc rand_seq _ _ _ (idle_init (Z.to_nat (buffer_size opt))
              (Z.to_nat (num_threads opt)) (opt_delay opt) (opt_iterations opt) ltac:(lia)) Hr) Hrace). }
  destruct (finish_run_joined io0 opt garbage w Hs Hits Hg Hr Hj) as [Ef _].
  rewrite start_setup_init in Hr |- * by (done || lia).
  destruct (idle_rtc rand_seq _ _ _ (idle_init (Z.to_nat (buffer_size opt))
              (Z.to_nat (num_threads opt)) (opt_delay opt) (opt_iterations opt) ltac:(lia)) Hr) as [Hb _ Hl _].
  cbn [output exit_status]. rewrite Ef. cbn [fst snd]. split; [|done].
  rewrite Hl, Hb. unfold before_out, print_buffer, b. cbn [data size buf init_world log_out foldr].
  rewrite Z2Nat.id, take_ge by (rewrite ?length_iota; lia).
  by rewrite !string_app_assoc, string_app_nil_l.
Qed.

(** C28. Run without command-line flags, the program uses its defaults
    (10 threads, [N = 10], 100 iterations): when the platform's
    allocations and thread creations succeed it exits with 0 and its
    report says "Correct buffer", followed by the time, unless the
    unlocked reads of line 45 raced with a write (undefined behaviour). *)
Theorem main_defaults_correct io0 garbage o :
  length garbage = 10%nat → all_ok io0 default_options = true →
  main rand_seq io0 [] garbage o →
  (exit_status o = Exited 0 ∧
   ∃ pre, output o = pre +:+ "Correct buffer" +:+ nl +:+ nl +:+ time_line io0) ∨
  exit_status o = Undefined UB_data_race.
Proof.
  intros Hg Hok Hrun. unfold main, main_options in Hrun. cbn [read_options foldl] in Hrun.
  destruct (run_ok_joined io0 default_options garbage o ltac:(unfold INT_MAX; simpl; lia)
              ltac:(unfold INT_MAX; simpl; lia) Hg Hok Hrun) as [(w & Hr & Hj & ->)|[? _]];
    [left|by right].
  destruct (finish_run_joined io0 default_options garbage w ltac:(simpl; lia)
              ltac:(unfold INT_MAX; simpl; lia) Hg Hr Hj) as [Ef _].
  cbn [output exit_status]. rewrite Ef. cbn [fst snd]. split; [done|].
  exists (setup_out default_options +:+ before_out (buf (start_setup (L := L) default_options garbage)) +:+
          log_out (log w) +:+ nl +:+ "Buffer after:  " +:+ print_ints (data (buf w)) +:+ nl +:+ nl).
  by rewrite !string_app_assoc.
Qed.

End Theorems.

(** ** Concrete runs

    Three slots, two threads of two iterations, [rand()] the sequence of
    [Coordinator.demo_lcg], the [malloc]ed block full of zeros. *)

Definition io_ok : io :=
  {| buffer_alloc_ok := true; threads_alloc_ok := true; args_alloc_ok := true;
     create_ok := λ _, true; time_taken := "0.000100" |}.

(** The second [pthread_create] fails. *)
Definition io_no_second : io :=
  {| buffer_alloc_ok := true; threads_alloc_ok := true; args_alloc_ok := true;
     create_ok := λ i, bool_decide (i ≠ 1%nat); time_taken := "0.000100" |}.

Definition opt_small : options :=
  {| num_threads := 2; buffer_size := 3; opt_iterations := 2; opt_delay := 0 |}.

Definition w_small : world MutexArray.table := scenario_end opt_small 200.

(** The run of [w_small], as [run_joined] describes it. *)
Definition o_small : outcome :=
  {| output := setup_out opt_small +:+
               before_out (buf (start_setup (L := MutexArray.table) opt_small (zero_block opt_small))) +:+
               log_out (log w_small) +:+ (finish_run io_ok w_small).1;
     exit_status := (finish_run io_ok w_small).2 |}.

(** Thread 0 is created and runs two steps before thread 1 fails. *)
Definition w_first_only : world MutexArray.table :=
  default (start_setup (first_threads opt_small 1) (zero_block opt_small))
    (run demo_lcg (start_setup (first_threads opt_small 1) (zero_block opt_small)) [0; 0]%nat).

Definition o_no_second : outcome :=
  {| output := setup_out opt_small +:+
               before_out (buf (start_setup (L := MutexArray.table) opt_small (zero_block opt_small))) +:+
               log_out (log w_first_only) +:+ "Could not create thread #" +:+ print_int 1 +:+
               log_out (drop (length (log w_first_only)) (log w_first_only));
     exit_status := Exited 1 |}.

Lemma exit_status_spec_witness :
  all_ok io_no_second opt_small = false ∧
  (exit_status o_no_second = Exited (if all_ok io_no_second opt_small then 0 else 1) ∨
   (exit_status o_no_second = Undefined UB_data_race ∧ allocs_ok io_no_second = true ∧
    2 <= num_threads opt_small)).
Proof.
  split; [vm_compute; reflexivity|].
  apply (exit_status_spec demo_lcg demo_lcg_nonneg io_no_second opt_small (zero_block opt_small));
    [simpl; lia|unfold INT_MAX; simpl; lia|reflexivity|].
  apply (run_no_thread demo_lcg io_no_second opt_small (zero_block opt_small) 1 w_first_only
           w_first_only); [simpl; lia|vm_compute; reflexivity|vm_compute; reflexivity| |reflexivity].
  apply (run_rtc _ _ _ [0; 0]%nat). vm_compute. reflexivity.
Defined.

Lemma final_report_witness :
  ∃ pre l, output o_small = pre +:+ nl +:+ "Buffer after:  " +:+ print_ints l +:+ nl +:+ nl +:+
                            verdict (bool_decide (buffer_size opt_small = 10)) +:+ nl +:+
                            time_line io_ok ∧
    l ≡ₚ iota (Z.to_nat (buffer_size opt_small)) ∧ parse_buffer (print_ints l +:+ nl) = Some l.
Proof.
  apply (final_report demo_lcg demo_lcg_nonneg io_ok opt_small (zero_block opt_small));
    [simpl; lia|unfold INT_MAX; simpl; lia|reflexivity| |vm_compute; reflexivity].
  apply run_joined; [simpl; lia|reflexivity|reflexivity|apply run_first_rtc|].
  vm_compute. reflexivity.
Defined.

(** No iteration: the buffer is printed twice, unchanged. *)
Definition opt_idle : options :=
  {| num_threads := 2; buffer_size := 3; opt_iterations := 0; opt_delay := 0 |}.

Definition w_idle_end : world MutexArray.table := scenario_end opt_idle 10.

Definition o_idle : outcome :=
  {| output := setup_out opt_idle +:+
               before_out (buf (start_setup (L := MutexArray.table) opt_idle (zero_block opt_idle))) +:+
               log_out (log w_idle_end) +:+ (finish_run io_ok w_idle_end).1;
     exit_status := (finish_run io_ok w_idle_end).2 |}.

Lemma no_swap_output_witness :
  let b := {| data := iota 3; size := 3 |} in
  output o_idle = setup_out opt_idle +:+ "Buffer before: " +:+ print_buffer b +:+ nl +:+
                  nl +:+ "Buffer after:  " +:+ print_buffer b +:+ nl +:+
                  verdict (bool_decide (buffer_size opt_idle = 10)) +:+ nl +:+ time_line io_ok ∧
  exit_status o_idle = Exited 0.
Proof.
  apply (no_swap_output demo_lcg demo_lcg_nonneg io_ok opt_idle (zero_block opt_idle));
    [simpl; lia|unfold INT_MAX; simpl; lia|left; reflexivity|reflexivity|vm_compute; reflexivity|].
  apply run_joined; [simpl; lia|reflexivity|reflexivity|apply run_first_rtc|].
  vm_compute. reflexivity.
Defined.

(** The run with the default options, to the end. *)
Definition o_defaults : outcome :=
  {| output := setup_out default_options +:+
               before_out (buf (start_setup (L := MutexArray.table) default_options
                                  (zero_block default_options))) +:+
               log_out (log w_defaults) +:+ (finish_run io_ok w_defaults).1;
     exit_status := (finish_run io_ok w_defaults).2 |}.

Lemma main_defaults_correct_witness :
  (exit_status o_defaults = Exited 0 ∧
   ∃ pre, output o_defaults = pre +:+ "Correct buffer" +:+ nl +:+ nl +:+ time_line io_ok) ∨
  exit_status o_defaults = Undefined UB_data_race.
Proof.
  apply (main_defaults_correct demo_lcg demo_lcg_nonneg io_ok (zero_block default_options));
    [reflexivity|vm_compute; reflexivity|].
  apply run_joined; [simpl; lia|reflexivity|reflexivity|apply run_first_rtc|].
  vm_compute. reflexivity.
Defined.


(** Thread 0 is about to write [data[1]] (line 66, [i = 1], [j = 0]) while
    thread 1 is about to print [data[2]] and [data[1]] (line 45). *)
Definition w_race : world MutexArray.table :=
  default (start_setup (first_threads opt_small (created io_ok opt_small)) (zero_block opt_small))
    (run demo_lcg (start_setup (first_threads opt_small (created io_ok opt_small)) (zero_block opt_small))
       [0; 0; 0; 0; 0; 0; 0; 1; 1; 1]%nat).

(** C8. The data race of lines 45-46 is reachable: with three slots and
    two threads, a schedule brings one thread to the unlocked read of
    [data[1]] at line 45 while the other is about to write [data[1]] at
    line 66 under its mutex, so the program has undefined behaviour. *)
Theorem data_race_reachable :
  ∃ o, program_run demo_lcg io_ok opt_small (zero_block opt_small) o ∧
       exit_status o = Undefined UB_data_race.
Proof.
  eexists. split; [apply (run_race demo_lcg io_ok opt_small (zero_block opt_small) w_race)|reflexivity];
    [simpl; lia|reflexivity| |].
  - apply (run_rtc _ _ _ [0; 0; 0; 0; 0; 0; 0; 1; 1; 1]%nat). vm_compute. reflexivity.
  - exists 0%nat, 1%nat. do 2 eexists.
    exists {| acc_kind := WriteAcc; acc_slot := 1; acc_locked := true |},
           {| acc_kind := ReadAcc; acc_slot := 1; acc_locked := false |}.
    split_and!; [done|vm_compute; reflexivity|vm_compute; reflexivity
                |apply list_elem_of_In; vm_compute; auto|apply list_elem_of_In; vm_compute; auto|].
    unfold conflicting. simpl. split_and!; [done|by left|intros [_ ?]; done].
Qed.
